(** * Drawbridge: the session bridge, the viewport protocol and the asset upload

    A shallow embedding of the Drawbridge server (the HTTP + WebSocket bridge
    in front of an Excalidraw canvas) and of its DigitalOcean Spaces client
    [lib/spaces-client.js], with the properties of the specification that
    concern them.

    The server is JavaScript: request bodies and WebSocket frames are
    untyped JSON values, a session is a mutable object shared by the
    handlers, and a handler may throw half-way.  The embedding keeps all
    three: JSON values are the inductive [jsval], handlers are functions in
    a state-and-exception monad over the server's [world], and a throw
    leaves the state as it was at the throw. *)

From Stdlib Require Import ZArith String Ascii List Bool Lia.
From Corelib Require Import PrimFloat.
From stdpp Require Import gmap strings list.

#[local] Open Scope string_scope.
#[local] Open Scope Z_scope.

#[local] Set Warnings "-register-all".

(** ** JavaScript values *)

(** What [JSON.parse] produces, and [undefined] for what reading an absent
    member gives.  Numbers are IEEE 754 binary64, as in JavaScript.  An
    object is the list of its members, each key once, as [JSON.parse]
    leaves them. *)
Inductive jsval : Type :=
| JUndefined
| JNull
| JBool (b : bool)
| JNum (f : float)
| JStr (s : string)
| JArr (items : list jsval)
| JObj (members : list (string * jsval)).

(** What a handler can throw. [S3Failure] is an error object of the storage
    SDK: its [name] and its [$metadata.httpStatusCode] when it has one. *)
Inductive exn : Type :=
| TypeError (what : string)
| SyntaxError (what : string)
| Error (message : string)
| S3Failure (name : string) (httpStatusCode : option Z).

(** How the evaluation of an expression ends. *)
Inductive completion (A : Type) : Type :=
| Returned (a : A)
| Thrown (e : exn).
Arguments Returned {A} a.
Arguments Thrown {A} e.

#[global] Instance completion_ret : MRet completion := @Returned.
#[global] Instance completion_bind : MBind completion :=
  fun A B k m => match m with Returned a => k a | Thrown e => Thrown e end.

(** Code that runs on a mutable state [S] and returns or throws; the state
    it leaves is the state at that point. *)
Definition stateful (S A : Type) : Type := S → completion A * S.

#[global] Instance stateful_ret (S : Type) : MRet (stateful S) :=
  fun A a st => (Returned a, st).
#[global] Instance stateful_bind (S : Type) : MBind (stateful S) :=
  fun A B k m st =>
    match m st with
    | (Returned a, st') => k a st'
    | (Thrown e, st') => (Thrown e, st')
    end.

Definition lift {S A : Type} (c : completion A) : stateful S A := fun st => (c, st).
Definition effect {S : Type} (f : S → S) : stateful S unit := fun st => (Returned tt, f st).
Definition skip {S : Type} : stateful S unit := mret tt.

(** [ToBoolean]: [undefined], [null], [false], [0], [-0], [NaN] and the
    empty string are falsy, everything else is truthy. *)
Definition truthy (v : jsval) : bool :=
  match v with
  | JUndefined | JNull => false
  | JBool b => b
  | JNum f => negb (PrimFloat.eqb f 0%float || negb (PrimFloat.eqb f f))
  | JStr s => negb (String.eqb s "")
  | JArr _ | JObj _ => true
  end.

(** [a || b]. *)
Definition js_or (a b : jsval) : jsval := if truthy a then a else b.

Fixpoint own_member (k : string) (members : list (string * jsval)) : jsval :=
  match members with
  | [] => JUndefined
  | (k', v) :: rest => if String.eqb k k' then v else own_member k rest
  end.

(** [v.k], for the member names the server reads ([type], [x], [y],
    [width], [height], [elements], [appState]): none of them is a built-in
    property of an array, a string, a number or a boolean, so only an
    object can have one.  Reading a member of [null] or [undefined]
    throws. *)
Definition member (k : string) (v : jsval) : completion jsval :=
  match v with
  | JUndefined | JNull =>
      Thrown (TypeError ("Cannot read properties of null or undefined, reading " ++ k))
  | JObj members => Returned (own_member k members)
  | JBool _ | JNum _ | JStr _ | JArr _ => Returned JUndefined
  end.

(** The value of [v.length]: a count for an array or a string, and the
    member called [length], whatever it holds, for an object. *)
Inductive lengthval : Type :=
| Count (n : nat)
| Held (v : jsval).

Definition read_length (v : jsval) : completion lengthval :=
  match v with
  | JUndefined | JNull =>
      Thrown (TypeError "Cannot read properties of null or undefined, reading length")
  | JArr items => Returned (Count (length items))
  | JStr s => Returned (Count (String.length s))
  | JObj members => Returned (Held (own_member "length" members))
  | JBool _ | JNum _ => Returned (Held JUndefined)
  end.

Definition truthy_length (n : lengthval) : bool :=
  match n with
  | Count n => negb (Nat.eqb n 0)
  | Held v => truthy v
  end.

(** [n > 0] for a length.  The left side is converted to a number:
    [undefined] to [NaN], [null] to 0, [true] to 1.  A string, an array or
    an object would be converted through its text ([ToPrimitive], then
    [StringToNumber]); those conversions are outside this development,
    hence the [option]. *)
Definition length_gt0 (n : lengthval) : option bool :=
  match n with
  | Count n => Some (negb (Nat.eqb n 0))
  | Held (JNum f) => Some (PrimFloat.ltb 0%float f)
  | Held (JBool b) => Some b
  | Held JUndefined | Held JNull => Some false
  | Held (JStr _) | Held (JArr _) | Held (JObj _) => None
  end.

(** A string is held as its bytes: [characters] gives one item per byte,
    which is what iterating a string gives for ASCII text. *)
Fixpoint characters (s : string) : list jsval :=
  match s with
  | EmptyString => []
  | String c rest => JStr (String c EmptyString) :: characters rest
  end.

(** The items [for (const el of v)] and [[...v]] run over: an array's
    items, a string's characters; anything else is not iterable. *)
Definition iterate (v : jsval) : completion (list jsval) :=
  match v with
  | JArr items => Returned items
  | JStr s => Returned (characters s)
  | JUndefined | JNull | JBool _ | JNum _ | JObj _ =>
      Thrown (TypeError "value is not iterable")
  end.

(** ** Viewport extraction (§4.2) *)

(** A camera: the world-space rectangle a client shows.  Its fields hold
    whatever the command held, when that was truthy. *)
Module Camera.
Record t : Type := make { x : jsval; y : jsval; width : jsval; height : jsval }.
End Camera.

Definition is_camera_tag (tag : jsval) : bool :=
  match tag with
  | JStr s => String.eqb s "cameraUpdate" || String.eqb s "viewportUpdate"
  | _ => false
  end.

(** The state of one call of [extractViewportUpdates]: the array it was
    handed, which the loop reads item by item, and the two arrays it
    builds. *)
Record extraction : Type := {
  input : list jsval;
  drawElements : list jsval;
  viewports : list Camera.t;
}.

Definition push_viewport (camera : Camera.t) (st : extraction) : extraction :=
  {| input := input st; drawElements := drawElements st;
     viewports := viewports st ++ [camera] |}.

Definition push_drawElement (el : jsval) (st : extraction) : extraction :=
  {| input := input st; drawElements := drawElements st ++ [el];
     viewports := viewports st |}.

(** The body of the loop, for the item [el]:
<<
    if (el.type === 'cameraUpdate' || el.type === 'viewportUpdate') {
      viewports.push({ x: el.x || 0, y: el.y || 0,
                       width: el.width || 800, height: el.height || 600 });
    } else {
      drawElements.push(el);
    }
>> *)
Definition extract_item (el : jsval) : stateful extraction unit :=
  tag ← lift (member "type" el);
  if is_camera_tag tag then
    ex ← lift (member "x" el);
    ey ← lift (member "y" el);
    ew ← lift (member "width" el);
    eh ← lift (member "height" el);
    effect (push_viewport (Camera.make (js_or ex (JNum 0)) (js_or ey (JNum 0))
                                       (js_or ew (JNum 800)) (js_or eh (JNum 600))))
  else
    effect (push_drawElement el).

(** [for (const el of elements)]: the array iterator reads the live array
    at the next index until the index is past its end.  [fuel] bounds the
    number of turns; the length of the array is enough
    ([extract_loop_enough]). *)
Fixpoint extract_loop (fuel i : nat) : stateful extraction unit :=
  match fuel with
  | O => skip
  | S fuel' =>
      fun st =>
        match input st !! i with
        | None => (Returned tt, st)
        | Some el => (extract_item el;; extract_loop fuel' (S i)) st
        end
  end.

(** The loop on the array [items] and two empty arrays. *)
Definition extract_run (items : list jsval) : completion unit * extraction :=
  extract_loop (length items) 0
    {| input := items; drawElements := []; viewports := [] |}.

(** [extractViewportUpdates(elements)]: the arrays built, unless the loop
    threw. *)
Definition extractViewportUpdates (elements : jsval) : completion extraction :=
  items ← iterate elements;
  match extract_run items with
  | (Returned _, st) => Returned st
  | (Thrown e, _) => Thrown e
  end.

(** What the loop amounts to: the camera a command stands for, and the
    partition of a batch. *)
Definition is_camera (el : jsval) : bool :=
  match el with
  | JObj members => is_camera_tag (own_member "type" members)
  | _ => false
  end.

Definition camera_of (el : jsval) : Camera.t :=
  match el with
  | JObj members =>
      Camera.make (js_or (own_member "x" members) (JNum 0))
                  (js_or (own_member "y" members) (JNum 0))
                  (js_or (own_member "width" members) (JNum 800))
                  (js_or (own_member "height" members) (JNum 600))
  | _ => Camera.make (JNum 0) (JNum 0) (JNum 800) (JNum 600)
  end.

Definition nullish (v : jsval) : bool :=
  match v with
  | JUndefined | JNull => true
  | _ => false
  end.

(** What reading [el.type] throws when [el] is [null] or [undefined]. *)
Definition null_read : exn :=
  TypeError "Cannot read properties of null or undefined, reading type".

(** ** Sessions, sockets and the server's state (§3, §4.1) *)

(** [ws.readyState]. *)
Inductive readyState : Type := CONNECTING | OPEN | CLOSING | CLOSED.

(** A WebSocket connection, by identity. *)
Abbreviation conn := nat (only parsing).

(** What the server sends, before [JSON.stringify].  The [appState] of an
    [elements] message is [None] where the message object has no such
    member (the relay of an [update]). *)
Inductive server_msg : Type :=
| MsgElements (scene : jsval) (state : option jsval)
| MsgAppend (delta : list jsval)
| MsgViewport (camera : Camera.t)
| MsgClear.

(** The lines of [console.log] and [console.error]. *)
Inductive log_line : Type :=
| LogConnected (sessionId : string) (size : nat)
| LogDisconnected (sessionId : string) (size : nat)
| LogCleanedUp (sessionId : string)
| LogParseError (err : exn).

(** [{ elements, appState, viewport, clients }].  [clients] is a [Set]: the
    connections in insertion order, each once. *)
Record session : Type := {
  elements : jsval;
  appState : jsval;
  viewport : option Camera.t;
  clients : list conn;
}.

(** The server process: the [sessions] map (without the insertion order
    of the [Map], which only the listing of [/api/sessions] shows), the
    state of every socket it has accepted, what it has sent and logged,
    the clock in milliseconds and the pending [setTimeout] callbacks (due
    time and the [sessionId] each closes over), soonest first. *)
Record world : Type := {
  sessions : gmap string session;
  sockets : gmap conn readyState;
  outbox : list (conn * server_msg);
  console : list log_line;
  clock : Z;
  timers : list (Z * string);
}.

Definition set_sessions (f : gmap string session → gmap string session) (w : world) : world :=
  {| sessions := f (sessions w); sockets := sockets w; outbox := outbox w;
     console := console w; clock := clock w; timers := timers w |}.

Definition set_sockets (f : gmap conn readyState → gmap conn readyState) (w : world) : world :=
  {| sessions := sessions w; sockets := f (sockets w); outbox := outbox w;
     console := console w; clock := clock w; timers := timers w |}.

Definition send (c : conn) (msg : server_msg) (w : world) : world :=
  {| sessions := sessions w; sockets := sockets w; outbox := outbox w ++ [(c, msg)];
     console := console w; clock := clock w; timers := timers w |}.

Definition log (line : log_line) (w : world) : world :=
  {| sessions := sessions w; sockets := sockets w; outbox := outbox w;
     console := console w ++ [line]; clock := clock w; timers := timers w |}.

Definition set_clock (t : Z) (w : world) : world :=
  {| sessions := sessions w; sockets := sockets w; outbox := outbox w;
     console := console w; clock := t; timers := timers w |}.

Definition set_timers (q : list (Z * string)) (w : world) : world :=
  {| sessions := sessions w; sockets := sockets w; outbox := outbox w;
     console := console w; clock := clock w; timers := q |}.

Definition with_elements (v : jsval) (s : session) : session :=
  {| elements := v; appState := appState s; viewport := viewport s; clients := clients s |}.

Definition with_appState (v : jsval) (s : session) : session :=
  {| elements := elements s; appState := v; viewport := viewport s; clients := clients s |}.

Definition with_viewport (v : option Camera.t) (s : session) : session :=
  {| elements := elements s; appState := appState s; viewport := v; clients := clients s |}.

Definition with_clients (l : list conn) (s : session) : session :=
  {| elements := elements s; appState := appState s; viewport := viewport s; clients := l |}.

(** [{ elements: [], appState: null, viewport: null, clients: new Set() }] *)
Definition new_session : session :=
  {| elements := JArr []; appState := JNull; viewport := None; clients := [] |}.

(** A handler runs on the server's state. *)
Abbreviation handler := (stateful world).

(** [getSession(id)]: the session of that id, created when there is none.
    The session is an object the handler then reads and writes through
    its reference: [deref] and [assign] go through the map, in which the
    id stays bound for the rest of the handler. *)
Definition getSession (id : string) : handler unit :=
  fun w =>
    match sessions w !! id with
    | Some _ => (Returned tt, w)
    | None => (Returned tt, set_sessions <[id := new_session]> w)
    end.

Definition session_of (id : string) (w : world) : session :=
  default new_session (sessions w !! id).

Definition deref {A : Type} (id : string) (field : session → A) : handler A :=
  fun w => (Returned (field (session_of id w)), w).

Definition assign (id : string) (f : session → session) : handler unit :=
  effect (set_sessions (alter f id)).

Definition is_open (w : world) (c : conn) : bool :=
  match sockets w !! c with
  | Some OPEN => true
  | _ => false
  end.

(** [broadcast(session, msg)]:
<<
    for (const client of session.clients)
      if (client.readyState === WebSocket.OPEN) client.send(str);
>> *)
Definition broadcast (id : string) (msg : server_msg) : handler unit :=
  fun w =>
    (Returned tt,
     fold_left (fun w c => if is_open w c then send c msg w else w)
               (clients (session_of id w)) w).

(** ** The HTTP mutation API (§4.3) *)

(** The body of a successful response ([success: true] throughout).  A
    handler that throws is answered by Express with status 500. *)
Inductive response : Type :=
| ResSession (id : string) (scene : jsval) (state : jsval) (camera : option Camera.t)
| ResElements (elementCount : lengthval) (clientCount : nat)
| ResAppend (elementCount : lengthval)
| ResViewport (camera : Camera.t)
| ResClear.

(** [GET /api/session/:id] *)
Definition get_session (id : string) : handler response :=
  getSession id;;
  scene ← deref id elements;
  state ← deref id appState;
  camera ← deref id viewport;
  mret (ResSession id scene state camera).

(** The tail shared by replace-all and append:
<<
    if (viewports.length > 0) {
      const viewport = viewports[viewports.length - 1];
      session.viewport = viewport;
      broadcast(session, { type: 'viewport', viewport });
    }
>> *)
Definition apply_viewports (id : string) (viewports : list Camera.t) : handler unit :=
  match last viewports with
  | Some camera =>
      assign id (with_viewport (Some camera));;
      broadcast id (MsgViewport camera)
  | None => skip
  end.

(** [POST /api/session/:id/elements] *)
Definition post_elements (id : string) (body : jsval) : handler response :=
  getSession id;;
  batch ← lift (member "elements" body);
  state ← lift (member "appState" body);
  ex ← lift (extractViewportUpdates (js_or batch (JArr [])));
  assign id (with_elements (JArr (drawElements ex)));;
  (if truthy state then assign id (with_appState state) else skip);;
  scene ← deref id elements;
  state' ← deref id appState;
  broadcast id (MsgElements scene (Some state'));;
  apply_viewports id (viewports ex);;
  scene' ← deref id elements;
  n ← lift (read_length scene');
  size ← deref id (fun s => length (clients s));
  mret (ResElements n size).

(** [POST /api/session/:id/append] *)
Definition post_append (id : string) (body : jsval) : handler response :=
  getSession id;;
  batch ← lift (member "elements" body);
  some ← (if truthy batch
          then n ← lift (read_length batch); mret (truthy_length n)
          else mret false);
  (if some : bool then
     ex ← lift (extractViewportUpdates batch);
     (if negb (Nat.eqb (length (drawElements ex)) 0) then
        scene ← deref id elements;
        old ← lift (iterate scene);
        assign id (with_elements (JArr (old ++ drawElements ex)));;
        broadcast id (MsgAppend (drawElements ex))
      else skip);;
     apply_viewports id (viewports ex)
   else skip);;
  scene ← deref id elements;
  n ← lift (read_length scene);
  mret (ResAppend n).

(** [POST /api/session/:id/viewport] *)
Definition post_viewport (id : string) (body : jsval) : handler response :=
  getSession id;;
  bx ← lift (member "x" body);
  by' ← lift (member "y" body);
  bw ← lift (member "width" body);
  bh ← lift (member "height" body);
  let camera := Camera.make (js_or bx (JNum 0)) (js_or by' (JNum 0))
                            (js_or bw (JNum 800)) (js_or bh (JNum 600)) in
  assign id (with_viewport (Some camera));;
  broadcast id (MsgViewport camera);;
  mret (ResViewport camera).

(** [POST /api/session/:id/clear] *)
Definition post_clear (id : string) : handler response :=
  getSession id;;
  assign id (with_elements (JArr []));;
  assign id (with_appState JNull);;
  assign id (with_viewport None);;
  broadcast id MsgClear;;
  mret ResClear.

(** ** The WebSocket channel (§4.4) *)

(** [session.clients.add(ws)] and [session.clients.delete(ws)] *)
Definition set_add (c : conn) (l : list conn) : list conn :=
  if existsb (Nat.eqb c) l then l else l ++ [c].

Definition set_delete (c : conn) (l : list conn) : list conn :=
  List.filter (fun c' => negb (Nat.eqb c c')) l.

(** The callback of [wss.handleUpgrade] for a request on [/ws/id], up to
    the registration of the listeners.  Nothing catches what it throws: the
    process ends.  The result is [None] where the test
    [session.elements.length > 0] needs a conversion this development does
    not cover ([length_gt0]). *)
Definition on_upgrade (id : string) (ws : conn) (w : world) : option (completion unit * world) :=
  let '(_, w) := getSession id w in
  let '(_, w) := assign id (fun s => with_clients (set_add ws (clients s)) s) w in
  let w := log (LogConnected id (length (clients (session_of id w)))) w in
  match read_length (elements (session_of id w)) with
  | Thrown e => Some (Thrown e, w)
  | Returned n =>
      match length_gt0 n with
      | None => None
      | Some some =>
          let w := if some
                   then send ws (MsgElements (elements (session_of id w))
                                             (Some (appState (session_of id w)))) w
                   else w in
          let w := match viewport (session_of id w) with
                   | Some camera => send ws (MsgViewport camera) w
                   | None => w
                   end in
          Some (Returned tt, w)
      end
  end.

(** What [JSON.parse(data.toString())] makes of a frame: a value, or a
    [SyntaxError]. *)
Inductive frame : Type :=
| NotJSON
| Json (msg : jsval).

(** The relay loop of an [update]:
<<
    for (const client of session.clients)
      if (client !== ws && client.readyState === WebSocket.OPEN)
        client.send(JSON.stringify({ type: 'elements', elements: msg.elements }));
>> *)
Definition relay (id : string) (ws : conn) (msg : server_msg) (w : world) : world :=
  fold_left (fun w c => if negb (Nat.eqb c ws) && is_open w c then send c msg w else w)
            (clients (session_of id w)) w.

Definition is_update (tag : jsval) : bool :=
  match tag with
  | JStr s => String.eqb s "update"
  | _ => false
  end.

(** [JSON.parse(data.toString())] *)
Definition JSON_parse (data : frame) : completion jsval :=
  match data with
  | NotJSON => Thrown (SyntaxError "Unexpected token in JSON")
  | Json msg => Returned msg
  end.

(** The [try] block of the message listener of the connection [ws] of
    session [id]:
<<
    const msg = JSON.parse(data.toString());
    if (msg.type === 'update') { session.elements = msg.elements; ... }
>> *)
Definition try_message (id : string) (ws : conn) (data : frame) : handler unit :=
  msg ← lift (JSON_parse data);
  tag ← lift (member "type" msg);
  if is_update tag then
    scene ← lift (member "elements" msg);
    assign id (with_elements scene);;
    effect (relay id ws (MsgElements scene None))
  else skip.

(** [ws.on('message', ...)]: what the [try] block throws is logged by the
    [catch], and the listener returns. *)
Definition on_message (id : string) (ws : conn) (data : frame) (w : world) : world :=
  match try_message id ws data w with
  | (Returned _, w') => w'
  | (Thrown e, w') => log (LogParseError e) w'
  end.

(** [setTimeout(callback, delay)]: the queue stays ordered by due time, a
    new timer after those due at the same instant. *)
Fixpoint enqueue (due : Z) (id : string) (q : list (Z * string)) : list (Z * string) :=
  match q with
  | [] => [(due, id)]
  | (due', id') :: rest =>
      if due' <=? due then (due', id') :: enqueue due id rest
      else (due, id) :: (due', id') :: rest
  end.

(** [5 * 60 * 1000] *)
Definition idle_window : Z := 5 * 60 * 1000.

(** [ws.on('close', ...)] *)
Definition on_close (id : string) (ws : conn) (w : world) : world :=
  let w := set_sessions (alter (fun s => with_clients (set_delete ws (clients s)) s) id) w in
  let w := log (LogDisconnected id (length (clients (session_of id w)))) w in
  if Nat.eqb (length (clients (session_of id w))) 0
  then set_timers (enqueue (clock w + idle_window) id (timers w)) w
  else w.

(** The timer's callback:
<<
    const s = sessions.get(sessionId);
    if (s && s.clients.size === 0) { sessions.delete(sessionId); console.log(...); }
>> *)
Definition cleanup (id : string) (w : world) : world :=
  match sessions w !! id with
  | Some s =>
      if Nat.eqb (length (clients s)) 0
      then log (LogCleanedUp id) (set_sessions (delete id) w)
      else w
  | None => w
  end.

(** [dt] milliseconds pass: the callbacks due by then run, soonest first. *)
Definition elapse (dt : Z) (w : world) : world :=
  let t := clock w + dt in
  let due := List.filter (fun '(d, _) => d <=? t) (timers w) in
  let later := List.filter (fun '(d, _) => negb (d <=? t)) (timers w) in
  set_clock t (fold_left (fun w '(_, id) => cleanup id w) due (set_timers later w)).

(** ** The server as a transition system *)

(** What can happen to the server.  A frame or a close comes from a
    connection that is in its session's client set: the listeners are
    registered by the upgrade, on the session that [getSession] returned
    then, and a session leaves the map only with no client in it, so that
    session is the one the map holds under [id]. *)
Inductive event : Type :=
| Upgrade (id : string) (ws : conn)
| Message (id : string) (ws : conn) (data : frame)
| Closing (ws : conn)
| Close (id : string) (ws : conn)
| GetSession (id : string)
| PostElements (id : string) (body : jsval)
| PostAppend (id : string) (body : jsval)
| PostViewport (id : string) (body : jsval)
| PostClear (id : string)
| Elapse (dt : Z).

Definition connected (id : string) (ws : conn) (w : world) : bool :=
  match sessions w !! id with
  | Some s => existsb (Nat.eqb ws) (clients s)
  | None => false
  end.

(** One event.  [None]: the event cannot happen in [w], the process died
    (an upgrade that threw), or [on_upgrade] gave [None].  An HTTP handler
    that throws is answered with status 500 and the server goes on in the
    state the handler left. *)
Definition step (e : event) (w : world) : option world :=
  match e with
  | Upgrade id ws =>
      match sockets w !! ws with
      | Some _ => None
      | None =>
          match on_upgrade id ws (set_sockets <[ws := OPEN]> w) with
          | Some (Returned _, w') => Some w'
          | Some (Thrown _, _) | None => None
          end
      end
  | Message id ws data =>
      if connected id ws w then Some (on_message id ws data w) else None
  | Closing ws =>
      match sockets w !! ws with
      | Some OPEN => Some (set_sockets <[ws := CLOSING]> w)
      | _ => None
      end
  | Close id ws =>
      if connected id ws w
      then Some (on_close id ws (set_sockets <[ws := CLOSED]> w))
      else None
  | GetSession id => Some (snd (get_session id w))
  | PostElements id body => Some (snd (post_elements id body w))
  | PostAppend id body => Some (snd (post_append id body w))
  | PostViewport id body => Some (snd (post_viewport id body w))
  | PostClear id => Some (snd (post_clear id w))
  | Elapse dt => if 0 <=? dt then Some (elapse dt w) else None
  end.

Fixpoint run (evs : list event) (w : world) : option world :=
  match evs with
  | [] => Some w
  | e :: rest => match step e w with Some w' => run rest w' | None => None end
  end.

(** The server as it starts: no session, no socket, no timer. *)
Definition boot : world :=
  {| sessions := ∅; sockets := ∅; outbox := []; console := [];
     clock := 0; timers := [] |}.

Definition reachable (w : world) : Prop := ∃ evs, run evs boot = Some w.

(** ** The Spaces client ([lib/spaces-client.js], §4.5) *)

Module Spaces.

(** [spacesConfig] *)
Record config : Type := { bucket : string; region : string; cdnBase : string }.

(** What [new S3Client({...})] is built from. *)
Record client : Type := { endpoint : string; accessKeyId : string; secretAccessKey : string }.

(** The module's two variables, both [null] until initialised. *)
Record module_state : Type := {
  s3Client : option client;
  spacesConfig : option config;
}.

Definition uninitialised : module_state := {| s3Client := None; spacesConfig := None |}.

(** The variables of the environment [initSpacesClient] reads; [None] is
    an unset variable. *)
Record environment : Type := {
  DO_SPACES_ACCESS_KEY : option string;
  DO_SPACES_SECRET_KEY : option string;
  DO_SPACES_BUCKET : option string;
  DO_SPACES_REGION : option string;
}.

(** A set, non-empty variable: what [!v] lets through. *)
Definition present (v : option string) : option string :=
  match v with
  | Some s => if String.eqb s "" then None else Some s
  | None => None
  end.

Definition initSpacesClient (env : environment) (st : module_state) : bool * module_state :=
  match present (DO_SPACES_ACCESS_KEY env), present (DO_SPACES_SECRET_KEY env),
        present (DO_SPACES_BUCKET env) with
  | Some accessKey, Some secretKey, Some bucket =>
      let region := default "nyc3" (present (DO_SPACES_REGION env)) in
      (true,
       {| s3Client := Some {| endpoint := "https://" ++ region ++ ".digitaloceanspaces.com";
                              accessKeyId := accessKey;
                              secretAccessKey := secretKey |};
          spacesConfig := Some {| bucket := bucket; region := region;
                                  cdnBase := "https://" ++ bucket ++ "." ++ region
                                               ++ ".digitaloceanspaces.com" |} |})
  | _, _, _ => (false, st)
  end.

Definition isSpacesEnabled (st : module_state) : bool :=
  match s3Client st, spacesConfig st with
  | Some _, Some _ => true
  | _, _ => false
  end.

Definition MIME_EXTENSIONS : list (string * string) :=
  [ ("image/png", ".png"); ("image/jpeg", ".jpg"); ("image/jpg", ".jpg");
    ("image/gif", ".gif"); ("image/svg+xml", ".svg"); ("image/webp", ".webp") ].

Fixpoint table_lookup (k : string) (table : list (string * string)) : option string :=
  match table with
  | [] => None
  | (k', v) :: rest => if String.eqb k k' then Some v else table_lookup k rest
  end.

(** [MIME_EXTENSIONS[mimeType] || '.bin'], for a [mimeType] that is not the
    name of a member every object inherits. *)
Definition extension (mimeType : string) : string :=
  default ".bin" (table_lookup mimeType MIME_EXTENSIONS).

(** *** [dataURL.match(/^data:[^;]+;base64,(.+)$/)] *)

Fixpoint strip_prefix (p s : string) : option string :=
  match p, s with
  | EmptyString, _ => Some s
  | String a p', String b s' => if Ascii.eqb a b then strip_prefix p' s' else None
  | String _ _, EmptyString => None
  end.

(** The characters before the first [;] and the text from that [;] on. *)
Fixpoint until_semicolon (s : string) : option (string * string) :=
  match s with
  | EmptyString => None
  | String c rest =>
      if Ascii.eqb c ";" then Some (EmptyString, s)
      else match until_semicolon rest with
           | Some (run, tail) => Some (String c run, tail)
           | None => None
           end
  end.

(** Whether [.] matches every character: no LF, CR, U+2028 or U+2029 (the
    last two by their UTF-8 bytes E2 80 A8 and E2 80 A9). *)
Fixpoint dot_matches_all (s : string) : bool :=
  match s with
  | EmptyString => true
  | String c rest =>
      if Ascii.eqb c "010" || Ascii.eqb c "013" then false
      else match rest with
           | String c1 (String c2 _) =>
               if Ascii.eqb c "226" && Ascii.eqb c1 "128"
                  && (Ascii.eqb c2 "168" || Ascii.eqb c2 "169")
               then false else dot_matches_all rest
           | _ => dot_matches_all rest
           end
  end.

(** The capture group of the match, or [None] when there is no match:
    [data:], a non-empty run without [;], the text [;base64,], and a
    non-empty rest, on one line, up to the end. *)
Definition match_dataURL (dataURL : string) : option string :=
  match strip_prefix "data:" dataURL with
  | None => None
  | Some rest =>
      match until_semicolon rest with
      | None => None
      | Some (run, tail) =>
          if String.eqb run "" then None
          else match strip_prefix ";base64," tail with
               | None => None
               | Some payload =>
                   if String.eqb payload "" then None
                   else if dot_matches_all payload then Some payload else None
               end
      end
  end.

(** [Buffer.from(text, 'base64')], kept as the text it decodes. *)
Inductive buffer : Type := FromBase64 (text : string).

(** The two commands the client sends. *)
Inductive command : Type :=
| HeadObjectCommand (Bucket Key : string)
| PutObjectCommand (Bucket Key : string) (Body : buffer)
                   (ContentType ACL CacheControl : string).

(** The storage backend behind [s3Client.send]: a command runs on the
    backend's state and resolves, or rejects with an error. *)
Class S3 (B : Type) : Type := s3_send : command → B → completion unit * B.

(** The backend together with the record of what was sent to it and how
    each command ended, oldest first. *)
Record io (B : Type) : Type := { backend : B; sent : list (command * completion unit) }.
Arguments backend {B} _.
Arguments sent {B} _.

Definition send {B : Type} `{S3 B} (cmd : command) (st : io B) : completion unit * io B :=
  let '(r, b) := s3_send cmd (backend st) in
  (r, {| backend := b; sent := sent st ++ [(cmd, r)] |}).

(** [err.name] and [err.$metadata?.httpStatusCode] *)
Definition error_name (e : exn) : string :=
  match e with
  | TypeError _ => "TypeError"
  | SyntaxError _ => "SyntaxError"
  | Error _ => "Error"
  | S3Failure name _ => name
  end.

Definition error_status (e : exn) : option Z :=
  match e with
  | S3Failure _ status => status
  | _ => None
  end.

(** The errors the existence check swallows: the negation of
    [err.name !== 'NotFound' && err.$metadata?.httpStatusCode !== 404]. *)
Definition not_found (e : exn) : bool :=
  String.eqb (error_name e) "NotFound"
  || match error_status e with Some code => code =? 404 | None => false end.

Definition object_key (sessionId fileId mimeType : string) : string :=
  "files/" ++ sessionId ++ "/" ++ fileId ++ extension mimeType.

Definition object_url (cfg : config) (key : string) : string :=
  cdnBase cfg ++ "/" ++ key.

(** [uploadFile(sessionId, fileId, dataURL, mimeType)] *)
Definition uploadFile {B : Type} `{S3 B} (m : module_state)
    (sessionId fileId dataURL mimeType : string) (st : io B) : completion string * io B :=
  match s3Client m, spacesConfig m with
  | Some _, Some cfg =>
      match match_dataURL dataURL with
      | None => (Thrown (Error "Invalid dataURL format"), st)
      | Some payload =>
          let buffer := FromBase64 payload in
          let key := object_key sessionId fileId mimeType in
          match send (HeadObjectCommand (bucket cfg) key) st with
          | (Returned _, st) => (Returned (object_url cfg key), st)
          | (Thrown err, st) =>
              if negb (not_found err) then (Thrown err, st)
              else
                match send (PutObjectCommand (bucket cfg) key buffer mimeType "public-read"
                              "public, max-age=31536000, immutable") st with
                | (Returned _, st) => (Returned (object_url cfg key), st)
                | (Thrown err', st) => (Thrown err', st)
                end
          end
      end
  | _, _ => (Thrown (Error "Spaces client not initialized"), st)
  end.

(** The [PutObject] commands of a record, and those of them that resolved. *)
Definition is_put (entry : command * completion unit) : bool :=
  match fst entry with
  | PutObjectCommand _ _ _ _ _ _ => true
  | HeadObjectCommand _ _ => false
  end.

Definition resolved (entry : command * completion unit) : bool :=
  match snd entry with
  | Returned _ => true
  | Thrown _ => false
  end.

Definition writes (log : list (command * completion unit)) : nat :=
  length (List.filter is_put log).

Definition stored (log : list (command * completion unit)) : nat :=
  length (List.filter (fun entry => is_put entry && resolved entry) log).

(** A bucket held in memory, as a backend: [HeadObject] resolves for a key
    that holds an object and is rejected with [NotFound] (status 404)
    otherwise; [PutObject] stores the object. *)
Record object : Type := { body : buffer; contentType : string; acl : string; cacheControl : string }.

Abbreviation memory := (gmap (string * string) object).

#[global] Instance memory_s3 : S3 memory :=
  fun cmd (b : memory) =>
    match cmd with
    | HeadObjectCommand Bucket Key =>
        match b !! (Bucket, Key) with
        | Some _ => (Returned tt, b)
        | None => (Thrown (S3Failure "NotFound" (Some 404)), b)
        end
    | PutObjectCommand Bucket Key Body ContentType ACL CacheControl =>
        (Returned tt,
         <[(Bucket, Key) := {| body := Body; contentType := ContentType;
                               acl := ACL; cacheControl := CacheControl |}]> b)
    end.

(** A backend on which an object that was written is found by the next
    existence check. *)
Definition read_your_writes (B : Type) `{S3 B} : Prop :=
  ∀ Bucket Key Body ContentType ACL CacheControl (b b' : B),
    s3_send (PutObjectCommand Bucket Key Body ContentType ACL CacheControl) b
      = (Returned tt, b') →
    fst (s3_send (HeadObjectCommand Bucket Key) b') = Returned tt.

(** Sample data: the module after [initSpacesClient] on a full
    environment, an empty bucket, and a small PNG as a data URL. *)
Definition sample_env : environment :=
  {| DO_SPACES_ACCESS_KEY := Some "key"; DO_SPACES_SECRET_KEY := Some "secret";
     DO_SPACES_BUCKET := Some "drawbridge"; DO_SPACES_REGION := None |}.

Definition ready : module_state := snd (initSpacesClient sample_env uninitialised).

Definition empty_bucket : io memory := {| backend := ∅; sent := [] |}.

Definition sample_dataURL : string := "data:image/png;base64,iVBORw0KGgo=".

End Spaces.

(** ** Closed forms used by the properties *)

(** The arrays a call of [extractViewportUpdates] ends with on a batch
    without [null]: the items that are no camera commands, and the camera
    of every command, both in the order of the batch. *)
Definition partition_of (items : list jsval) : extraction :=
  {| input := items;
     drawElements := List.filter (fun el => negb (is_camera el)) items;
     viewports := map camera_of (List.filter is_camera items) |}.

(** The state a handler leaves when it has written [s] to the session [id]
    and sent [msgs]. *)
Definition commit (id : string) (s : session) (msgs : list (conn * server_msg))
    (w : world) : world :=
  {| sessions := <[id := s]> (sessions w); sockets := sockets w;
     outbox := outbox w ++ msgs; console := console w;
     clock := clock w; timers := timers w |}.

(** [msg], once for every client of [s] whose socket is open in [w], in
    the order of the client set. *)
Definition to_open (w : world) (s : session) (msg : server_msg) : list (conn * server_msg) :=
  map (fun c => (c, msg)) (List.filter (is_open w) (clients s)).

(** The messages of an outbox that went to [c]. *)
Definition received (c : conn) (msgs : list (conn * server_msg)) : list server_msg :=
  map snd (List.filter (fun m => Nat.eqb (fst m) c) msgs).

(** The session after the cameras of a batch: the last one is its
    viewport, and without a camera nothing changes. *)
Definition framed (cams : list Camera.t) (s : session) : session :=
  match last cams with
  | Some camera => with_viewport (Some camera) s
  | None => s
  end.

(** The [viewport] messages of a batch: one broadcast, of its last
    camera. *)
Definition viewport_messages (w : world) (s : session) (cams : list Camera.t)
    : list (conn * server_msg) :=
  match last cams with
  | Some camera => to_open w s (MsgViewport camera)
  | None => []
  end.

(** The answer of the append handler: [session.elements.length] is read
    last, and throws on a scene that is [null] or [undefined]. *)
Definition append_reply (s : session) : completion response :=
  n ← read_length (elements s); Returned (ResAppend n).

(** [elements && elements.length], as a condition. *)
Definition has_items (batch : jsval) : bool :=
  truthy batch
  && match read_length batch with
     | Returned n => truthy_length n
     | Thrown _ => false
     end.

(** The session after the draw elements of a batch were appended to the
    scene [old]: without draw elements nothing is written. *)
Definition grown (old draws : list jsval) (s : session) : session :=
  match draws with
  | [] => s
  | _ :: _ => with_elements (JArr (old ++ draws)) s
  end.

(** The [append] messages of a batch: one broadcast of its draw elements,
    and none when it has no draw element. *)
Definition append_messages (w : world) (s : session) (draws : list jsval)
    : list (conn * server_msg) :=
  match draws with
  | [] => []
  | _ :: _ => to_open w s (MsgAppend draws)
  end.

(** A batch of drawing elements: every item has a [type] that can be read
    (it is not [null]) and is no camera command. *)
Definition draw_batch (items : list jsval) : bool :=
  forallb (fun el => negb (nullish el) && negb (is_camera el)) items.

(** ** Sample data *)

Definition rectangle (name : string) : jsval :=
  JObj [("type", JStr "rectangle"); ("id", JStr name); ("seed", JNum 7)].

Definition arrow (name : string) : jsval :=
  JObj [("type", JStr "arrow"); ("id", JStr name); ("seed", JNum 11)].

Definition cameraUpdate (px py pw ph : float) : jsval :=
  JObj [("type", JStr "cameraUpdate"); ("x", JNum px); ("y", JNum py);
        ("width", JNum pw); ("height", JNum ph)].

(** A server with one session, [demo], an empty scene and three clients,
    the third of which is closing. *)
Definition studio : world :=
  {| sessions := {[ "demo" := {| elements := JArr []; appState := JNull;
                                 viewport := None; clients := [1; 2; 3]%nat |} ]};
     sockets := {[ 1%nat := OPEN; 2%nat := OPEN; 3%nat := CLOSING ]};
     outbox := []; console := []; clock := 0; timers := [] |}.

(** The camera commands of a batch that brings no draw element: an absent
    batch ([undefined], or any other falsy value) has none, and an array
    qualifies when all its items are camera commands. *)
Definition camera_only (batch : jsval) : option (list jsval) :=
  match batch with
  | JArr items => if forallb is_camera items then Some items else None
  | _ => if truthy batch then None else Some []
  end.

(** The four members of a camera, the name each is read under and the
    default it gets. *)
Inductive camera_field : Type := FieldX | FieldY | FieldWidth | FieldHeight.

Definition field_name (k : camera_field) : string :=
  match k with
  | FieldX => "x"
  | FieldY => "y"
  | FieldWidth => "width"
  | FieldHeight => "height"
  end.

Definition field_default (k : camera_field) : jsval :=
  match k with
  | FieldX | FieldY => JNum 0
  | FieldWidth => JNum 800
  | FieldHeight => JNum 600
  end.

Definition field_of (k : camera_field) (camera : Camera.t) : jsval :=
  match k with
  | FieldX => Camera.x camera
  | FieldY => Camera.y camera
  | FieldWidth => Camera.width camera
  | FieldHeight => Camera.height camera
  end.

(** An object without its member [k]. *)
Definition without (k : string) (members : list (string * jsval)) : list (string * jsval) :=
  List.filter (fun m => negb (String.eqb k (fst m))) members.

(** A handler is tame for the session [id] when all it does to the
    server's state is to write to that session, keeping its client set,
    and to send messages. *)
Definition tame {A : Type} (id : string) (m : handler A) : Prop :=
  ∀ (s : session) (msgs : list (conn * server_msg)) (w : world),
    ∃ (s' : session) (msgs' : list (conn * server_msg)),
      snd (m (commit id s msgs w)) = commit id s' msgs' w
      ∧ clients s' = clients s.

(** What such a handler leaves of [w]: the sockets, the clock and the
    timers, and all sessions but [id], whose clients it keeps. *)
Definition edits (id : string) (w w' : world) : Prop :=
  sockets w' = sockets w
  ∧ clock w' = clock w ∧ timers w' = timers w
  ∧ ∃ s', sessions w' = <[id := s']> (sessions w)
          ∧ clients s' = clients (session_of id w).

(** Every client set lists a connection once, as a [Set] does. *)
Definition sets_ok (w : world) : Prop :=
  ∀ id s, sessions w !! id = Some s → NoDup (clients s).

(** The session [id] has no client: it is not in the map, or its client
    set is empty. *)
Definition vacant (id : string) (w : world) : Prop :=
  clients (session_of id w) = [].

(** The state after three clients have joined [demo] and the third has
    started to close ([lobby_trace]). *)
Definition lobby_trace : list event :=
  [Upgrade "demo" 1; Upgrade "demo" 2; Upgrade "demo" 3; Closing 3]%nat.

Definition lobby : world :=
  {| sessions := {[ "demo" := {| elements := JArr []; appState := JNull;
                                 viewport := None; clients := [1; 2; 3]%nat |} ]};
     sockets := {[ 1%nat := OPEN; 2%nat := OPEN; 3%nat := CLOSING ]};
     outbox := [];
     console := [LogConnected "demo" 1; LogConnected "demo" 2; LogConnected "demo" 3];
     clock := 0; timers := [] |}.

(** ** Inbound payloads (§4.4, §7) *)

(** What the [try] block throws before it looks at the message's type:
    the [SyntaxError] of [JSON.parse], or the [TypeError] of reading
    [msg.type] when the payload is the JSON text [null]. *)
Definition parse_failure (data : frame) : option exn :=
  match JSON_parse data with
  | Thrown e => Some e
  | Returned msg =>
      match member "type" msg with
      | Thrown e => Some e
      | Returned _ => None
      end
  end.

(** A payload that is no [update]: it fails as above, or its [type] is
    not the string [update]. *)
Definition not_update (data : frame) : bool :=
  match JSON_parse data with
  | Thrown _ => true
  | Returned msg =>
      match member "type" msg with
      | Thrown _ => true
      | Returned tag => negb (is_update tag)
      end
  end.

(** The specification's account of a malformed payload, for the payload
    [data] of the connection [ws] of session [id] in the state [w]: the
    server logs it and drops it, and the session state and the sockets are
    as before. *)
Definition logged_and_dropped (id : string) (ws : conn) (data : frame) (w : world) : Prop :=
  let w' := on_message id ws data w in
  (∃ e, console w' = (console w ++ [LogParseError e])%list)
  ∧ sessions w' = sessions w
  ∧ sockets w' = sockets w.

(** The state after one client has joined [demo] and sent an [update]
    whose scene holds a camera command. *)
Definition smuggled : list jsval := [cameraUpdate 0 0 800 600; rectangle "a"].

Definition smuggle_trace : list event :=
  [Upgrade "demo" 1%nat;
   Message "demo" 1%nat
     (Json (JObj [("type", JStr "update"); ("elements", JArr smuggled)]))].

Definition smuggle_state : world :=
  {| sessions := {[ "demo" := {| elements := JArr smuggled; appState := JNull;
                                 viewport := None; clients := [1%nat] |} ]};
     sockets := {[ 1%nat := OPEN ]};
     outbox := [];
     console := [LogConnected "demo" 1];
     clock := 0; timers := [] |}.

(** ** Idle sessions (§4.1) *)

Definition is_upgrade_of (id : string) (e : event) : bool :=
  match e with
  | Upgrade id' _ => String.eqb id id'
  | _ => false
  end.

Definition is_close_of (id : string) (ws : conn) (e : event) : bool :=
  match e with
  | Close id' ws' => String.eqb id id' && Nat.eqb ws ws'
  | _ => false
  end.

(** No client joins the session [id] in [evs]. *)
Definition quiet (id : string) (evs : list event) : bool :=
  forallb (fun e => negb (is_upgrade_of id e)) evs.

(** The connection [ws] of session [id] does not close in [evs]. *)
Definition stays (id : string) (ws : conn) (evs : list event) : bool :=
  forallb (fun e => negb (is_close_of id ws e)) evs.

(** The clock, and the client set of the session [id] when the map holds
    one. *)
Definition observe (id : string) (w : world) : Z * option (list conn) :=
  (clock w, clients <$> sessions w !! id).

(** One client joins [demo] and leaves; a clear and a read of another
    session follow within 200 s. *)
Definition solo : world :=
  {| sessions := {[ "demo" := {| elements := JArr [rectangle "a"]; appState := JNull;
                                 viewport := None; clients := [1%nat] |} ]};
     sockets := {[ 1%nat := OPEN ]};
     outbox := []; console := [LogConnected "demo" 1];
     clock := 5000; timers := [] |}.

Definition solo_closed : world :=
  on_close "demo" 1 (set_sockets <[1%nat := CLOSED]> solo).

Definition idle_trace : list event :=
  [PostClear "demo"; Elapse 200000; GetSession "other"; Elapse 99999].

(** A session that only the HTTP API has touched, a day later. *)
Definition orphan_trace : list event :=
  [GetSession "orphan"; Elapse idle_window; Elapse 86400000].

(** A client joins 100 s after the session became empty and leaves 150 s
    later. *)
Definition rejoin_trace : list event :=
  [Upgrade "demo" 1%nat; Close "demo" 1%nat; Elapse 100000;
   Upgrade "demo" 2%nat; Elapse 150000; Close "demo" 2%nat].

(** ** The invariant of the scene (§3) *)

(** A scene without camera pseudo-elements: an array none of whose items
    has the type [cameraUpdate] or [viewportUpdate]. *)
Definition clean_scene (s : session) : Prop :=
  ∃ items, elements s = JArr items ∧ existsb is_camera items = false.

Definition scenes_clean (w : world) : Prop :=
  ∀ id s, sessions w !! id = Some s → clean_scene s.

(** No WebSocket message among the events. *)
Definition is_message (e : event) : bool :=
  match e with
  | Message _ _ _ => true
  | _ => false
  end.

Definition without_messages (evs : list event) : bool :=
  forallb (fun e => negb (is_message e)) evs.

(** ** Further closed forms *)

(** What a connection that joins the session [s] is sent: the scene when
    it has a length above 0, then the viewport when there is one. *)
Definition greeting (ws : conn) (s : session) : list (conn * server_msg) :=
  (match elements s with
   | JArr (_ :: _) => [(ws, MsgElements (elements s) (Some (appState s)))]
   | _ => []
   end
   ++ match viewport s with
      | Some camera => [(ws, MsgViewport camera)]
      | None => []
      end)%list.

(** ** Who is sent what *)

(** The event is a request or a WebSocket event of the session [id]; the
    closing handshake of a socket and the passing of time are of no
    session. *)
Definition names (id : string) (e : event) : bool :=
  match e with
  | Upgrade id' _ | Message id' _ _ | Close id' _ | GetSession id'
  | PostElements id' _ | PostAppend id' _ | PostViewport id' _ | PostClear id' =>
      String.eqb id id'
  | Closing _ | Elapse _ => false
  end.

(** Every message of [msgs] goes to one of [members] whose socket is open
    in [w]. *)
Definition addressed (w : world) (members : list conn)
    (msgs : list (conn * server_msg)) : Prop :=
  Forall (fun m => In (fst m) members ∧ is_open w (fst m) = true) msgs.

(** A handler is polite for the session [id] when, besides writing to that
    session and keeping its client set, it only adds messages for open
    clients of the session to what was sent. *)
Definition polite {A : Type} (id : string) (m : handler A) : Prop :=
  ∀ (s : session) (msgs : list (conn * server_msg)) (w : world),
    ∃ (s' : session) (extra : list (conn * server_msg)),
      snd (m (commit id s msgs w)) = commit id s' (msgs ++ extra) w
      ∧ clients s' = clients s
      ∧ addressed w (clients s) extra.

(** Every connection of a client set has a socket, and is in no other
    session's client set. *)
Definition housed (w : world) : Prop :=
  ∀ id s c, sessions w !! id = Some s → In c (clients s) →
            sockets w !! c ≠ None
            ∧ ∀ id' s', sessions w !! id' = Some s' → In c (clients s') → id' = id.

(** ** What every stored viewport has *)

(** The width and the height of a camera are truthy: neither is [0],
    [null], [undefined], [NaN] or the empty string. *)
Definition sized (camera : Camera.t) : Prop :=
  truthy (Camera.width camera) = true ∧ truthy (Camera.height camera) = true.

Definition viewport_sized (s : session) : Prop :=
  ∀ camera, viewport s = Some camera → sized camera.

Definition viewports_sized (w : world) : Prop :=
  ∀ id s, sessions w !! id = Some s → viewport_sized s.

(** The handler keeps the property [P] of the session [id], and touches
    nothing but that session and the outbox. *)
Definition keeps {A : Type} (P : session → Prop) (id : string) (m : handler A) : Prop :=
  ∀ (s : session) (msgs : list (conn * server_msg)) (w : world),
    P s →
    ∃ (s' : session) (msgs' : list (conn * server_msg)),
      snd (m (commit id s msgs w)) = commit id s' msgs' w ∧ P s'.

(** The state after [POST /api/session/demo/viewport] with an empty body
    on the server as it starts. *)
Definition framed_demo : world := snd (post_viewport "demo" (JObj []) boot).

(** ** Paths, keys and data URLs *)

(** The character [c] occurs in [s]. *)
Fixpoint has_char (c : ascii) (s : string) : bool :=
  match s with
  | EmptyString => false
  | String a rest => Ascii.eqb a c || has_char c rest
  end.

(** [pathname?.match(/^\/ws\/(.+)$/)], then [match[1]]: the session id of
    an upgrade request, or [None] when the socket is destroyed.  The
    pathname is [None] for a URL in which [parse] finds no path. *)
Definition ws_route (pathname : option string) : option string :=
  match pathname with
  | None => None
  | Some path =>
      match Spaces.strip_prefix "/ws/" path with
      | None => None
      | Some id =>
          if String.eqb id "" then None
          else if Spaces.dot_matches_all id then Some id else None
      end
  end.

(** The upgrade request for [pathname] on the new socket [ws]: without a
    match the socket is destroyed and the server goes on as it was. *)
Definition upgrade_request (pathname : option string) (ws : conn) (w : world) : option world :=
  match ws_route pathname with
  | None => Some w
  | Some id => step (Upgrade id ws) w
  end.


(** ** The client's conversion test ([src/App.tsx]; the export script
    makes the same test inline) *)

Module Client.

(** [items.some(p)]: the items are tried in order, the first for which [p]
    is truthy ends the search, and so does what [p] throws. *)
Fixpoint some (p : jsval → completion bool) (items : list jsval) : completion bool :=
  match items with
  | [] => Returned false
  | el :: rest => b ← p el; if b : bool then Returned true else some p rest
  end.

(** [(el) => el.label] and [(el) => !el.seed], as [some] reads them.
    Neither [label] nor [seed] is a built-in property either. *)
Definition has_label (el : jsval) : completion bool :=
  v ← member "label" el; mret (truthy v).

Definition lacks_seed (el : jsval) : completion bool :=
  v ← member "seed" el; mret (negb (truthy v)).

(** [needsConversion(elements)]:
<<
    if (elements.some((el) => el.label)) return true;
    if (elements.some((el) => !el.seed)) return true;
    return false;
>> *)
Definition needsConversion (elements : list jsval) : completion bool :=
  labelled ← some has_label elements;
  if labelled : bool then mret true
  else
    bare ← some lacks_seed elements;
    if bare : bool then mret true else mret false.

Section Sanitize.

(** What [await ensureFontsLoaded()] comes to, and the conversion the
    library does of the elements with their label defaults:
    [convertToExcalidrawElements(withDefaults, { regenerateIds: false })]. *)
Variable fonts : completion unit.
Variable convert : list jsval → completion (list jsval).

(** [sanitizeElements(elements)]: what the [try] block throws is logged
    and the elements are passed through. *)
Definition sanitizeElements (elements : jsval) : list jsval :=
  match elements with
  | JArr items =>
      match (fonts;;
             needed ← needsConversion items;
             if negb needed then Returned items else convert items) with
      | Returned result => result
      | Thrown _ => items
      end
  | _ => []
  end.

End Sanitize.

(** An element in Excalidraw's own format, as the test sees it: an object
    with a truthy [seed] and no truthy [label]. *)
Definition finished (el : jsval) : bool :=
  match el with
  | JObj members =>
      negb (truthy (own_member "label" members)) && truthy (own_member "seed" members)
  | _ => false
  end.

End Client.

(** ** The health check *)

(** The body of the answer of [GET /health] (with [status: 'ok']). *)
Record health_report : Type := { sessionCount : nat; clientCount : nat }.

(** [GET /health]:
<<
    const sessionCount = sessions.size;
    let clientCount = 0;
    for (const s of sessions.values()) clientCount += s.clients.size;
>>
    The loop adds the sizes up, so the order in which it meets the sessions
    does not matter. *)
Definition health (w : world) : health_report :=
  {| sessionCount := size (sessions w);
     clientCount := map_fold (fun _ s n => (n + length (clients s))%nat) 0%nat (sessions w) |}.

(** The sockets that are not [CLOSED], counted. *)
Definition is_closed (st : readyState) : bool :=
  match st with
  | CLOSED => true
  | _ => false
  end.

Definition live_sockets (w : world) : nat :=
  map_fold (fun _ st n => (n + if is_closed st then 0 else 1)%nat) 0%nat (sockets w).

(** Every connection of a client set has a socket that is not [CLOSED]. *)
Definition alive (w : world) : Prop :=
  ∀ id s c, sessions w !! id = Some s → In c (clients s) →
            ∃ st, sockets w !! c = Some st ∧ is_closed st = false.

(** * Properties *)

(** ** The definitions on small inputs *)

Example extract_three :
  extractViewportUpdates
    (JArr [cameraUpdate 0 0 1600 1200; rectangle "a"; cameraUpdate 100 50 400 300])
  = Returned
      {| input := [cameraUpdate 0 0 1600 1200; rectangle "a"; cameraUpdate 100 50 400 300];
         drawElements := [rectangle "a"];
         viewports := [Camera.make (JNum 0) (JNum 0) (JNum 1600) (JNum 1200);
                       Camera.make (JNum 100) (JNum 50) (JNum 400) (JNum 300)] |}.
Proof. reflexivity. Qed.

Example extract_null_item :
  extractViewportUpdates (JArr [rectangle "a"; JNull]) = Thrown null_read.
Proof. reflexivity. Qed.

Example extract_not_iterable :
  extractViewportUpdates (JNum 5) = Thrown (TypeError "value is not iterable").
Proof. reflexivity. Qed.

Example falsy_values :
  map truthy [JUndefined; JNull; JBool false; JNum 0; JNum (-0); JStr ""; JNum 800;
              JStr "0"; JArr []; JObj []]
  = [false; false; false; false; false; false; true; true; true; true].
Proof. reflexivity. Qed.

Example upgrade_greets :
  (fun w => outbox w) <$>
    run [PostElements "demo" (JObj [("elements",
                                     JArr [rectangle "a"; cameraUpdate 1 2 3 4])]);
         Upgrade "demo" 7%nat] boot
  = Some [(7%nat, MsgElements (JArr [rectangle "a"]) (Some JNull));
          (7%nat, MsgViewport (Camera.make (JNum 1) (JNum 2) (JNum 3) (JNum 4)))].
Proof. vm_compute. reflexivity. Qed.

Example dataURL_matches :
  Spaces.match_dataURL Spaces.sample_dataURL = Some "iVBORw0KGgo=".
Proof. reflexivity. Qed.

Example dataURL_mismatches :
  map Spaces.match_dataURL
      [ "image/png;base64,AAAA"; "data:;base64,AAAA"; "data:image/png;base64,";
        "data:image/png;base32,AAAA"; "data:image/png,AAAA";
        "data:image/png;base64,AA" ++ String "010" "AA" ]
  = [None; None; None; None; None; None].
Proof. reflexivity. Qed.

Example extensions :
  map Spaces.extension
      ["image/png"; "image/jpeg"; "image/jpg"; "image/gif"; "image/svg+xml";
       "image/webp"; "application/pdf"]
  = [".png"; ".jpg"; ".jpg"; ".gif"; ".svg"; ".webp"; ".bin"].
Proof. reflexivity. Qed.

Example upload_needs_the_client :
  Spaces.isSpacesEnabled Spaces.uninitialised = false
  ∧ Spaces.isSpacesEnabled Spaces.ready = true
  ∧ Spaces.uploadFile Spaces.uninitialised "demo" "file-1" Spaces.sample_dataURL
      "image/png" Spaces.empty_bucket
    = (Thrown (Error "Spaces client not initialized"), Spaces.empty_bucket)
  ∧ Spaces.uploadFile Spaces.ready "demo" "file-1" "not a data URL"
      "image/png" Spaces.empty_bucket
    = (Thrown (Error "Invalid dataURL format"), Spaces.empty_bucket).
Proof. repeat split. Qed.

(** ** Viewport extraction *)

Ltac unfold_monad :=
  unfold mbind, mret, stateful_bind, stateful_ret, completion_bind, completion_ret,
         lift, effect, skip in *.

(** One turn of the loop: a throw on [null], a camera pushed for a camera
    command, the item itself pushed otherwise. *)
Lemma extract_item_eq (el : jsval) (st : extraction) :
  extract_item el st =
    if nullish el then (Thrown null_read, st)
    else (Returned tt,
          if is_camera el then push_viewport (camera_of el) st
          else push_drawElement el st).
Proof.
  unfold extract_item, null_read. unfold_monad.
  destruct el as [| | b | f | s | items | members]; simpl; try reflexivity.
  destruct (is_camera_tag (own_member "type" members)); reflexivity.
Qed.

Lemma extract_item_input (el : jsval) (st : extraction) :
  input (snd (extract_item el st)) = input st.
Proof.
  rewrite extract_item_eq.
  destruct (nullish el); [reflexivity|].
  destruct (is_camera el); reflexivity.
Qed.

Lemma extract_loop_S (fuel i : nat) (st : extraction) :
  extract_loop (S fuel) i st =
    match input st !! i with
    | None => (Returned tt, st)
    | Some el =>
        match extract_item el st with
        | (Returned _, st') => extract_loop fuel (S i) st'
        | (Thrown e, st') => (Thrown e, st')
        end
    end.
Proof. reflexivity. Qed.

(** The loop never writes the array it reads. *)
Lemma extract_loop_input (fuel : nat) :
  ∀ (i : nat) (st : extraction), input (snd (extract_loop fuel i st)) = input st.
Proof.
  induction fuel as [|fuel IH]; intros i st; simpl; [reflexivity|].
  destruct (input st !! i) as [el|] eqn:Hi; [|reflexivity].
  unfold_monad.
  pose proof (extract_item_input el st) as Hin.
  destruct (extract_item el st) as [[[]|e] st']; simpl in *.
  - rewrite IH. exact Hin.
  - exact Hin.
Qed.

(** With fuel for every item still to read, the loop reads them all: it
    throws when one of them is [null] or [undefined], and otherwise the
    draw elements and the cameras are appended in the order of the items. *)
Lemma extract_loop_enough (todo : list jsval) :
  ∀ (done : list jsval) (st : extraction) (fuel : nat),
    input st = (done ++ todo)%list →
    (length todo ≤ fuel)%nat →
    if existsb nullish todo
    then fst (extract_loop fuel (length done) st) = Thrown null_read
    else extract_loop fuel (length done) st =
           (Returned tt,
            {| input := input st;
               drawElements := drawElements st ++ List.filter (fun el => negb (is_camera el)) todo;
               viewports := viewports st ++ map camera_of (List.filter is_camera todo) |}).
Proof.
  induction todo as [|el todo IH]; intros done st fuel Hin Hfuel.
  - simpl. rewrite !app_nil_r.
    destruct st as [inp draws cams]; simpl in *.
    rewrite app_nil_r in Hin. subst inp.
    destruct fuel as [|fuel]; simpl; [reflexivity|].
    rewrite lookup_ge_None_2 by lia. reflexivity.
  - destruct fuel as [|fuel]; [simpl in Hfuel; lia|].
    simpl in Hfuel.
    assert (Hl : input st !! length done = Some el).
    { rewrite Hin. apply list_lookup_middle. reflexivity. }
    rewrite extract_loop_S, Hl, extract_item_eq. simpl existsb.
    destruct (nullish el) eqn:Hnull; simpl; [reflexivity|].
    set (st' := if is_camera el then push_viewport (camera_of el) st
                else push_drawElement el st).
    assert (Hin' : input st' = ((done ++ [el]) ++ todo)%list).
    { subst st'. rewrite <- app_assoc. destruct (is_camera el); simpl; exact Hin. }
    specialize (IH (done ++ [el])%list st' fuel Hin' ltac:(lia)).
    rewrite length_app in IH. simpl in IH.
    replace (length done + 1)%nat with (S (length done)) in IH by lia.
    destruct (existsb nullish todo); [exact IH|].
    rewrite IH. subst st'. f_equal.
    destruct (is_camera el); simpl; rewrite <- ?app_assoc; reflexivity.
Qed.

Lemma extract_run_eq (items : list jsval) :
  existsb nullish items = false →
  extract_run items = (Returned tt, partition_of items).
Proof.
  intros Hok. unfold extract_run.
  pose proof (extract_loop_enough items []
                {| input := items; drawElements := []; viewports := [] |}
                (length items) eq_refl ltac:(lia)) as H.
  rewrite Hok in H. exact H.
Qed.

Lemma extract_run_throws (items : list jsval) :
  existsb nullish items = true →
  fst (extract_run items) = Thrown null_read.
Proof.
  intros Hnull. unfold extract_run.
  pose proof (extract_loop_enough items []
                {| input := items; drawElements := []; viewports := [] |}
                (length items) eq_refl ltac:(lia)) as H.
  rewrite Hnull in H. exact H.
Qed.

Lemma extractViewportUpdates_array (items : list jsval) :
  extractViewportUpdates (JArr items) =
    if existsb nullish items then Thrown null_read else Returned (partition_of items).
Proof.
  unfold extractViewportUpdates. simpl iterate. unfold_monad.
  destruct (existsb nullish items) eqn:Hn.
  - pose proof (extract_run_throws items Hn) as H.
    destruct (extract_run items) as [[[]|e] st]; simpl in H; congruence.
  - rewrite (extract_run_eq items Hn). reflexivity.
Qed.

(** C7. For every array of items, [extractViewportUpdates] leaves the
    array it reads as it was, whether it returns or throws (it throws
    exactly when an item is [null] or [undefined], whose [type] cannot be
    read), and the [drawElements] it returns are exactly the items whose
    [type] is neither [cameraUpdate] nor [viewportUpdate], in the order they
    have in the input. *)
Theorem extraction_keeps_input_and_order (items : list jsval) :
  input (snd (extract_run items)) = items
  ∧ (if existsb nullish items
     then fst (extract_run items) = Thrown null_read
          ∧ extractViewportUpdates (JArr items) = Thrown null_read
     else extract_run items = (Returned tt, partition_of items)
          ∧ extractViewportUpdates (JArr items) = Returned (partition_of items)
          ∧ drawElements (partition_of items)
              = List.filter (fun el => negb (is_camera el)) items).
Proof.
  split.
  - unfold extract_run. rewrite extract_loop_input. reflexivity.
  - pose proof (extractViewportUpdates_array items) as Harr.
    destruct (existsb nullish items) eqn:Hn.
    + split; [apply extract_run_throws; exact Hn | exact Harr].
    + split; [apply extract_run_eq; exact Hn|]. split; [exact Harr | reflexivity].
Qed.

(** ** Running a handler *)

Lemma run_bind {S A B : Type} (m : stateful S A) (k : A → stateful S B) (st : S) :
  (m ≫= k) st =
    match m st with
    | (Returned a, st') => k a st'
    | (Thrown e, st') => (Thrown e, st')
    end.
Proof. reflexivity. Qed.

Lemma run_lift {S A : Type} (c : completion A) (st : S) : lift c st = (c, st).
Proof. reflexivity. Qed.

Lemma run_ret {S A : Type} (a : A) (st : S) : (mret a : stateful S A) st = (Returned a, st).
Proof. reflexivity. Qed.

Lemma run_skip {S : Type} (st : S) : skip st = (Returned tt, st).
Proof. reflexivity. Qed.

Lemma session_of_commit (id : string) (s : session) (msgs : list (conn * server_msg))
    (w : world) :
  session_of id (commit id s msgs w) = s.
Proof. unfold session_of, commit. simpl. rewrite lookup_insert_eq. reflexivity. Qed.

Lemma commit_commit (id : string) (s s' : session)
    (msgs msgs' : list (conn * server_msg)) (w : world) :
  commit id s' msgs' (commit id s msgs w) = commit id s' (msgs ++ msgs') w.
Proof.
  unfold commit. simpl. rewrite insert_insert_eq, app_assoc. reflexivity.
Qed.

(** [getSession] leaves the session it returns bound to the id. *)
Lemma getSession_commit (id : string) (w : world) :
  getSession id w = (Returned tt, commit id (session_of id w) [] w).
Proof.
  unfold getSession, session_of, commit.
  destruct w as [ss so ob co cl ti]. simpl.
  destruct (ss !! id) as [s|] eqn:Hs; simpl; rewrite app_nil_r.
  - rewrite (insert_id _ _ _ Hs). reflexivity.
  - reflexivity.
Qed.

Lemma assign_commit (id : string) (f : session → session) (s : session)
    (msgs : list (conn * server_msg)) (w : world) :
  assign id f (commit id s msgs w) = (Returned tt, commit id (f s) msgs w).
Proof.
  unfold assign, effect, set_sessions, commit. simpl.
  rewrite alter_insert_eq. reflexivity.
Qed.

Lemma deref_commit {A : Type} (id : string) (field : session → A) (s : session)
    (msgs : list (conn * server_msg)) (w : world) :
  deref id field (commit id s msgs w) = (Returned (field s), commit id s msgs w).
Proof. unfold deref. rewrite session_of_commit. reflexivity. Qed.

(** A loop of sends adds to the outbox and touches nothing else. *)
Lemma send_loop (keep : conn → bool) (msg : server_msg) (l : list conn) :
  ∀ w : world,
    fold_left (fun w c => if keep c && is_open w c then send c msg w else w) l w =
    {| sessions := sessions w; sockets := sockets w;
       outbox := outbox w ++ map (fun c => (c, msg))
                               (List.filter (fun c => keep c && is_open w c) l);
       console := console w; clock := clock w; timers := timers w |}.
Proof.
  induction l as [|c l IH]; intros w; simpl.
  - rewrite app_nil_r. destruct w; reflexivity.
  - rewrite IH. destruct (keep c && is_open w c) eqn:Hc; simpl.
    + rewrite <- app_assoc. reflexivity.
    + reflexivity.
Qed.

Lemma broadcast_commit (id : string) (msg : server_msg) (s : session)
    (msgs : list (conn * server_msg)) (w : world) :
  broadcast id msg (commit id s msgs w) =
    (Returned tt, commit id s (msgs ++ to_open w s msg) w).
Proof.
  unfold broadcast. rewrite session_of_commit. f_equal.
  pose proof (send_loop (fun _ => true) msg (clients s) (commit id s msgs w)) as H.
  simpl in H. rewrite H. unfold commit, to_open. simpl.
  rewrite <- app_assoc. reflexivity.
Qed.

Ltac exec :=
  repeat first
    [ rewrite run_bind
    | rewrite run_lift
    | rewrite run_ret
    | rewrite run_skip
    | rewrite getSession_commit
    | rewrite assign_commit
    | rewrite deref_commit
    | rewrite broadcast_commit
    | progress cbv beta iota ].

Lemma apply_viewports_commit (id : string) (cams : list Camera.t) (s : session)
    (msgs : list (conn * server_msg)) (w : world) :
  apply_viewports id cams (commit id s msgs w) =
    (Returned tt,
     match last cams with
     | Some camera =>
         commit id (with_viewport (Some camera) s)
                (msgs ++ to_open w s (MsgViewport camera)) w
     | None => commit id s msgs w
     end).
Proof.
  unfold apply_viewports. destruct (last cams) as [camera|]; exec; reflexivity.
Qed.

Lemma apply_viewports_framed (id : string) (cams : list Camera.t) (s : session)
    (msgs : list (conn * server_msg)) (w : world) :
  apply_viewports id cams (commit id s msgs w) =
    (Returned tt, commit id (framed cams s) (msgs ++ viewport_messages w s cams) w).
Proof.
  rewrite apply_viewports_commit. unfold framed, viewport_messages.
  destruct (last cams); [reflexivity|]. rewrite app_nil_r. reflexivity.
Qed.

(** ** The HTTP handlers in closed form *)

Lemma get_session_eq (id : string) (w : world) :
  get_session id w =
    (Returned (ResSession id (elements (session_of id w)) (appState (session_of id w))
                          (viewport (session_of id w))),
     commit id (session_of id w) [] w).
Proof. unfold get_session. exec. reflexivity. Qed.

Lemma post_elements_eq (id : string) (body batch state : jsval) (ex : extraction)
    (w : world) :
  member "elements" body = Returned batch →
  member "appState" body = Returned state →
  extractViewportUpdates (js_or batch (JArr [])) = Returned ex →
  let s0 := session_of id w in
  let s1 := with_elements (JArr (drawElements ex)) s0 in
  let s2 := if truthy state then with_appState state s1 else s1 in
  post_elements id body w =
    (Returned (ResElements (Count (length (drawElements ex))) (length (clients s0))),
     commit id (framed (viewports ex) s2)
            (to_open w s0 (MsgElements (JArr (drawElements ex)) (Some (appState s2)))
             ++ viewport_messages w s0 (viewports ex)) w).
Proof.
  intros Hb Hs Hex s0 s1 s2. unfold post_elements. exec.
  rewrite Hb. exec. rewrite Hs. exec. rewrite Hex. exec.
  fold s0. fold s1.
  assert (Hstep : (if truthy state then assign id (with_appState state) else skip)
                    (commit id s1 [] w) = (Returned tt, commit id s2 [] w)).
  { subst s2. destruct (truthy state); exec; reflexivity. }
  rewrite Hstep. exec. rewrite apply_viewports_framed. exec.
  assert (Hc : clients s2 = clients s0) by (subst s2 s1; destruct (truthy state); reflexivity).
  assert (He : elements s2 = JArr (drawElements ex))
    by (subst s2 s1; destruct (truthy state); reflexivity).
  assert (Hf : ∀ s, elements (framed (viewports ex) s) = elements s
                    ∧ clients (framed (viewports ex) s) = clients s).
  { intros s. unfold framed. destruct (last (viewports ex)); split; reflexivity. }
  destruct (Hf s2) as [Hfe Hfc].
  rewrite Hfe, He. simpl read_length. exec.
  rewrite Hfc, Hc. unfold viewport_messages, to_open. rewrite Hc. reflexivity.
Qed.

Lemma framed_elements (cams : list Camera.t) (s : session) :
  elements (framed cams s) = elements s.
Proof. unfold framed. destruct (last cams); reflexivity. Qed.

Lemma framed_clients (cams : list Camera.t) (s : session) :
  clients (framed cams s) = clients s.
Proof. unfold framed. destruct (last cams); reflexivity. Qed.

Lemma framed_appState (cams : list Camera.t) (s : session) :
  appState (framed cams s) = appState s.
Proof. unfold framed. destruct (last cams); reflexivity. Qed.

Lemma append_reply_run (s : session) (w : world) :
  (n ← lift (read_length (elements s)); mret (ResAppend n) : handler response) w
  = (append_reply s, w).
Proof.
  unfold append_reply. exec. unfold_monad.
  destruct (read_length (elements s)); reflexivity.
Qed.

Lemma post_append_guard (batch : jsval) (w : world) :
  (if truthy batch
   then n ← lift (read_length batch); mret (truthy_length n)
   else mret false : handler bool) w
  = (Returned (has_items batch), w).
Proof.
  unfold has_items. destruct (truthy batch) eqn:Ht; [|reflexivity].
  exec. destruct batch; simpl in *; try discriminate; exec; reflexivity.
Qed.

(** An append without items: nothing is written and nothing is sent. *)
Lemma post_append_skip (id : string) (body batch : jsval) (w : world) :
  member "elements" body = Returned batch →
  has_items batch = false →
  post_append id body w =
    (append_reply (session_of id w), commit id (session_of id w) [] w).
Proof.
  intros Hb Hno. unfold post_append. exec. rewrite Hb. exec.
  rewrite post_append_guard, Hno. exec.
  rewrite <- append_reply_run. reflexivity.
Qed.

(** An append with items, on a scene that can be spread when there is
    something to append to it. *)
Lemma post_append_batch (id : string) (body batch : jsval) (ex : extraction)
    (old : list jsval) (w : world) :
  member "elements" body = Returned batch →
  has_items batch = true →
  extractViewportUpdates batch = Returned ex →
  (drawElements ex ≠ [] → iterate (elements (session_of id w)) = Returned old) →
  let s0 := session_of id w in
  let s3 := framed (viewports ex) (grown old (drawElements ex) s0) in
  post_append id body w =
    (append_reply s3,
     commit id s3 (append_messages w s0 (drawElements ex)
                   ++ viewport_messages w s0 (viewports ex)) w).
Proof.
  intros Hb Hsome Hex Hold s0 s3. unfold post_append. exec. rewrite Hb. exec.
  rewrite post_append_guard, Hsome. exec. rewrite Hex. exec. fold s0.
  subst s3. unfold grown, append_messages.
  destruct (drawElements ex) as [|d ds] eqn:Hd.
  - simpl. exec. rewrite apply_viewports_framed. exec.
    rewrite <- append_reply_run. reflexivity.
  - change (negb (length (d :: ds) =? 0)%nat) with true. exec. fold s0 in Hold. rewrite Hold by discriminate. exec.
    rewrite apply_viewports_framed. exec.
    rewrite <- append_reply_run.
    unfold viewport_messages, to_open. reflexivity.
Qed.

Lemma post_viewport_eq (id : string) (body bx by' bw bh : jsval) (w : world) :
  member "x" body = Returned bx →
  member "y" body = Returned by' →
  member "width" body = Returned bw →
  member "height" body = Returned bh →
  let camera := Camera.make (js_or bx (JNum 0)) (js_or by' (JNum 0))
                            (js_or bw (JNum 800)) (js_or bh (JNum 600)) in
  post_viewport id body w =
    (Returned (ResViewport camera),
     commit id (with_viewport (Some camera) (session_of id w))
            (to_open w (session_of id w) (MsgViewport camera)) w).
Proof.
  intros Hx Hy Hw Hh camera. unfold post_viewport. exec.
  rewrite Hx. exec. rewrite Hy. exec. rewrite Hw. exec. rewrite Hh. exec.
  reflexivity.
Qed.

Lemma post_clear_eq (id : string) (w : world) :
  post_clear id w =
    (Returned ResClear,
     commit id {| elements := JArr []; appState := JNull; viewport := None;
                  clients := clients (session_of id w) |}
            (to_open w (session_of id w) MsgClear) w).
Proof. unfold post_clear. exec. reflexivity. Qed.

(** ** Append (§4.3) *)

Lemma draw_batch_partition (items : list jsval) :
  draw_batch items = true →
  existsb nullish items = false
  ∧ List.filter (fun el => negb (is_camera el)) items = items
  ∧ List.filter is_camera items = [].
Proof.
  unfold draw_batch. induction items as [|el items IH]; simpl; intros H.
  - repeat split.
  - apply andb_true_iff in H as [Hel Hrest].
    apply andb_true_iff in Hel as [Hn Hc].
    apply negb_true_iff in Hn. apply negb_true_iff in Hc.
    destruct (IH Hrest) as (IH1 & IH2 & IH3).
    rewrite Hn, Hc, IH1, IH2, IH3. simpl. repeat split.
Qed.

Lemma has_items_array (items : list jsval) :
  has_items (JArr items) = negb (Nat.eqb (length items) 0).
Proof. reflexivity. Qed.

(** An append of drawing elements to a scene that is an array. *)
Lemma post_append_drawing (id : string) (body : jsval) (items old : list jsval)
    (w : world) :
  member "elements" body = Returned (JArr items) →
  draw_batch items = true →
  elements (session_of id w) = JArr old →
  post_append id body w =
    (Returned (ResAppend (Count (length (old ++ items)))),
     commit id (grown old items (session_of id w))
            (append_messages w (session_of id w) items) w).
Proof.
  intros Hb Hdraw Hold.
  destruct (draw_batch_partition items Hdraw) as (Hnull & Hkeep & Hcam).
  destruct items as [|el items].
  - rewrite (post_append_skip id body (JArr []) w Hb eq_refl).
    unfold append_reply. rewrite Hold, app_nil_r. reflexivity.
  - pose proof (extractViewportUpdates_array (el :: items)) as Hex.
    rewrite Hnull in Hex.
    rewrite (post_append_batch id body (JArr (el :: items)) _ old w Hb eq_refl Hex).
    + unfold partition_of. cbn [drawElements viewports].
      rewrite Hkeep, Hcam. simpl map.
      unfold framed, viewport_messages. simpl last. rewrite app_nil_r.
      unfold append_reply, grown. reflexivity.
    + intros _. rewrite Hold. reflexivity.
Qed.

(** C5. On a session whose scene is empty, an append of the batch [E1]
    followed by an append of the batch [E2] (drawing elements only) leaves
    the scene [E1 ++ E2], which is what a read returns; the broadcast of
    each append is one [append] message per open client that carries the
    elements of that batch only (and nothing at all for an empty batch),
    never the accumulated scene. *)
Theorem append_then_append (id : string) (body1 body2 : jsval) (E1 E2 : list jsval)
    (w : world) :
  elements (session_of id w) = JArr [] →
  member "elements" body1 = Returned (JArr E1) →
  member "elements" body2 = Returned (JArr E2) →
  draw_batch E1 = true →
  draw_batch E2 = true →
  let w1 := snd (post_append id body1 w) in
  let w2 := snd (post_append id body2 w1) in
  elements (session_of id w2) = JArr (E1 ++ E2)
  ∧ (∃ state camera,
       fst (get_session id w2) = Returned (ResSession id (JArr (E1 ++ E2)) state camera))
  ∧ fst (post_append id body1 w) = Returned (ResAppend (Count (length E1)))
  ∧ fst (post_append id body2 w1) = Returned (ResAppend (Count (length (E1 ++ E2))))
  ∧ outbox w1 = (outbox w ++ append_messages w (session_of id w) E1)%list
  ∧ outbox w2 = (outbox w1 ++ append_messages w (session_of id w) E2)%list.
Proof.
  intros Hempty Hb1 Hb2 Hd1 Hd2 w1 w2.
  pose proof (post_append_drawing id body1 E1 [] w Hb1 Hd1 Hempty) as H1.
  set (s0 := session_of id w) in *.
  set (s1 := grown [] E1 s0) in *.
  assert (Hs1 : elements s1 = JArr E1).
  { subst s1. unfold grown. destruct E1; [exact Hempty | reflexivity]. }
  assert (Hc1 : clients s1 = clients s0).
  { subst s1. unfold grown. destruct E1; reflexivity. }
  assert (Hw1 : w1 = commit id s1 (append_messages w s0 E1) w).
  { subst w1. rewrite H1. reflexivity. }
  assert (Hsw1 : session_of id w1 = s1) by (rewrite Hw1; apply session_of_commit).
  assert (Hold1 : elements (session_of id w1) = JArr E1) by (rewrite Hsw1; exact Hs1).
  pose proof (post_append_drawing id body2 E2 E1 w1 Hb2 Hd2 Hold1) as H2.
  assert (Hmsgs : append_messages w1 (session_of id w1) E2 = append_messages w s0 E2).
  { rewrite Hsw1. unfold append_messages, to_open. rewrite Hc1, Hw1.
    destruct E2; reflexivity. }
  assert (Hw2 : w2 = commit id (grown E1 E2 s1)
                       (append_messages w s0 E1 ++ append_messages w s0 E2) w).
  { subst w2. rewrite H2. simpl snd. rewrite Hmsgs, Hsw1, Hw1.
    apply commit_commit. }
  assert (Hs2 : elements (grown E1 E2 s1) = JArr (E1 ++ E2)).
  { unfold grown. destruct E2; [rewrite app_nil_r; exact Hs1 | reflexivity]. }
  repeat split.
  - rewrite Hw2, session_of_commit. exact Hs2.
  - rewrite get_session_eq. simpl fst.
    rewrite Hw2, session_of_commit, Hs2. eauto.
  - rewrite H1. reflexivity.
  - rewrite H2. reflexivity.
  - rewrite Hw1. reflexivity.
  - rewrite Hw2, Hw1. simpl. rewrite app_assoc. reflexivity.
Qed.

Lemma append_then_append_witness :
  let body1 := JObj [("elements", JArr [rectangle "a"; rectangle "b"])] in
  let body2 := JObj [("elements", JArr [arrow "c"])] in
  let w1 := snd (post_append "demo" body1 studio) in
  let w2 := snd (post_append "demo" body2 w1) in
  elements (session_of "demo" w2) = JArr [rectangle "a"; rectangle "b"; arrow "c"]
  ∧ outbox w2 =
      [ (1%nat, MsgAppend [rectangle "a"; rectangle "b"]);
        (2%nat, MsgAppend [rectangle "a"; rectangle "b"]);
        (1%nat, MsgAppend [arrow "c"]);
        (2%nat, MsgAppend [arrow "c"]) ].
Proof.
  pose proof (append_then_append "demo"
                (JObj [("elements", JArr [rectangle "a"; rectangle "b"])])
                (JObj [("elements", JArr [arrow "c"])])
                [rectangle "a"; rectangle "b"] [arrow "c"] studio
                eq_refl eq_refl eq_refl eq_refl eq_refl) as H.
  cbv zeta in H. destruct H as (Hscene & _ & _ & _ & Hout1 & Hout2).
  split; [exact Hscene|].
  cbv zeta. rewrite Hout2, Hout1. reflexivity.
Defined.

(** ** Camera commands in a batch (§4.2, §4.3) *)

Lemma framed_last (cams cams' : list Camera.t) (s : session) :
  last cams = last cams' → framed cams s = framed cams' s.
Proof. unfold framed. intros ->. reflexivity. Qed.

Lemma viewport_messages_last (w : world) (s : session) (cams cams' : list Camera.t) :
  last cams = last cams' → viewport_messages w s cams = viewport_messages w s cams'.
Proof. unfold viewport_messages. intros ->. reflexivity. Qed.

Lemma framed_viewport (cams : list Camera.t) (camera : Camera.t) (s : session) :
  last cams = Some camera → viewport (framed cams s) = Some camera.
Proof. unfold framed. intros ->. reflexivity. Qed.

Lemma viewport_messages_some (w : world) (s : session) (cams : list Camera.t)
    (camera : Camera.t) :
  last cams = Some camera →
  viewport_messages w s cams = to_open w s (MsgViewport camera).
Proof. unfold viewport_messages. intros ->. reflexivity. Qed.

(** The cameras of a batch whose last camera command is [cmd]. *)
Lemma last_camera (before after : list jsval) (cmd : jsval) :
  is_camera cmd = true →
  List.filter is_camera after = [] →
  last (viewports (partition_of (before ++ cmd :: after))) = Some (camera_of cmd).
Proof.
  intros Hcmd Hafter. unfold partition_of. cbn [viewports].
  rewrite List.filter_app. simpl. rewrite Hcmd, Hafter.
  rewrite map_app. simpl. apply last_snoc.
Qed.

Lemma filter_filter_same {A : Type} (p : A → bool) (l : list A) :
  List.filter p (List.filter p l) = List.filter p l.
Proof.
  induction l as [|a l IH]; simpl; [reflexivity|].
  destruct (p a) eqn:Hp; simpl; rewrite ?Hp, IH; reflexivity.
Qed.

Lemma existsb_filter_false {A : Type} (p q : A → bool) (l : list A) :
  existsb p l = false → existsb p (List.filter q l) = false.
Proof.
  induction l as [|a l IH]; simpl; [reflexivity|].
  intros H. apply orb_false_iff in H as [Ha Hl].
  destruct (q a); simpl; rewrite ?Ha; auto.
Qed.

(** Dropping the camera commands that come before the last one changes
    neither the draw elements nor the last camera of a batch. *)
Lemma pruned_partition (before after : list jsval) (cmd : jsval) :
  existsb nullish (before ++ cmd :: after) = false →
  is_camera cmd = true →
  List.filter is_camera after = [] →
  let pruned := (List.filter (fun el => negb (is_camera el)) before ++ cmd :: after)%list in
  existsb nullish pruned = false
  ∧ drawElements (partition_of pruned) = drawElements (partition_of (before ++ cmd :: after))
  ∧ last (viewports (partition_of pruned)) = Some (camera_of cmd).
Proof.
  intros Hnull Hcmd Hafter pruned. subst pruned.
  rewrite existsb_app in Hnull. apply orb_false_iff in Hnull as [Hnb Hna].
  repeat split.
  - rewrite existsb_app. apply orb_false_iff. split; [|exact Hna].
    apply existsb_filter_false. exact Hnb.
  - unfold partition_of. cbn [drawElements].
    rewrite !List.filter_app, filter_filter_same. reflexivity.
  - apply last_camera; assumption.
Qed.

(** C6. In a batch whose last camera command is [cmd], whatever camera
    commands come before it, the viewport that replace-all and append
    write to the session is the camera of [cmd], the one [viewport]
    broadcast carries that camera, and the commands before [cmd] have no
    effect: the handler's answer and the state it leaves are those of the
    batch without them.  At the level of the extraction,
    [extract([camA, el, camB])] has the draw elements [[el]] and the camera
    of [camB] last. *)
Theorem last_camera_wins (id : string) (members members' : list (string * jsval))
    (before after old : list jsval) (cmd : jsval) (w : world) :
  let batch := (before ++ cmd :: after)%list in
  let pruned := (List.filter (fun el => negb (is_camera el)) before ++ cmd :: after)%list in
  let draws := List.filter (fun el => negb (is_camera el)) batch in
  let s0 := session_of id w in
  existsb nullish batch = false →
  is_camera cmd = true →
  List.filter is_camera after = [] →
  own_member "elements" members = JArr batch →
  own_member "elements" members' = JArr pruned →
  own_member "appState" members' = own_member "appState" members →
  iterate (elements s0) = Returned old →
  (∃ ex, extractViewportUpdates (JArr batch) = Returned ex
         ∧ drawElements ex = draws
         ∧ last (viewports ex) = Some (camera_of cmd))
  ∧ (let w' := snd (post_elements id (JObj members) w) in
     viewport (session_of id w') = Some (camera_of cmd)
     ∧ outbox w' =
         (outbox w
          ++ to_open w s0 (MsgElements (JArr draws) (Some (appState (session_of id w'))))
          ++ to_open w s0 (MsgViewport (camera_of cmd)))%list
     ∧ post_elements id (JObj members) w = post_elements id (JObj members') w)
  ∧ (let w' := snd (post_append id (JObj members) w) in
     viewport (session_of id w') = Some (camera_of cmd)
     ∧ outbox w' =
         (outbox w ++ append_messages w s0 draws
          ++ to_open w s0 (MsgViewport (camera_of cmd)))%list
     ∧ post_append id (JObj members) w = post_append id (JObj members') w).
Proof.
  intros batch pruned draws s0 Hnull Hcmd Hafter Hm Hm' Hst Hold.
  pose proof (last_camera before after cmd Hcmd Hafter) as Hlast. fold batch in Hlast.
  destruct (pruned_partition before after cmd Hnull Hcmd Hafter)
    as (Hnull' & Hdraws' & Hlast').
  fold pruned batch in Hnull', Hdraws', Hlast'.
  pose proof (extractViewportUpdates_array batch) as Hex. rewrite Hnull in Hex.
  pose proof (extractViewportUpdates_array pruned) as Hex'. rewrite Hnull' in Hex'.
  assert (Hne : batch ≠ []) by (subst batch; destruct before; discriminate).
  assert (Hne' : pruned ≠ []).
  { subst pruned. destruct (List.filter _ before); discriminate. }
  split; [|split].
  - exists (partition_of batch). repeat split; [exact Hex | exact Hlast].
  - assert (Hb : member "elements" (JObj members) = Returned (JArr batch))
      by (simpl; rewrite Hm; reflexivity).
    assert (Hb' : member "elements" (JObj members') = Returned (JArr pruned))
      by (simpl; rewrite Hm'; reflexivity).
    pose proof (post_elements_eq id (JObj members) (JArr batch)
                  (own_member "appState" members) (partition_of batch) w
                  Hb eq_refl Hex) as H.
    pose proof (post_elements_eq id (JObj members') (JArr pruned)
                  (own_member "appState" members') (partition_of pruned) w
                  Hb' eq_refl Hex') as H'.
    cbv zeta in H, H'. rewrite Hst, Hdraws' in H'.
    rewrite (framed_last _ _ _ (eq_trans Hlast' (eq_sym Hlast))) in H'.
    rewrite (viewport_messages_last _ _ _ _ (eq_trans Hlast' (eq_sym Hlast))) in H'.
    cbv zeta. rewrite H, H'. simpl snd. rewrite session_of_commit.
    repeat split.
    + apply framed_viewport. exact Hlast.
    + unfold commit. cbn [outbox]. rewrite framed_appState.
      rewrite (viewport_messages_some _ _ _ _ Hlast). reflexivity.
  - assert (Hb : member "elements" (JObj members) = Returned (JArr batch))
      by (simpl; rewrite Hm; reflexivity).
    assert (Hb' : member "elements" (JObj members') = Returned (JArr pruned))
      by (simpl; rewrite Hm'; reflexivity).
    assert (Hsome : has_items (JArr batch) = true).
    { rewrite has_items_array. destruct batch; [congruence | reflexivity]. }
    assert (Hsome' : has_items (JArr pruned) = true).
    { rewrite has_items_array. destruct pruned; [congruence | reflexivity]. }
    pose proof (post_append_batch id (JObj members) (JArr batch) (partition_of batch)
                  old w Hb Hsome Hex (fun _ => Hold)) as H.
    pose proof (post_append_batch id (JObj members') (JArr pruned) (partition_of pruned)
                  old w Hb' Hsome' Hex' (fun _ => Hold)) as H'.
    cbv zeta in H, H'. rewrite Hdraws' in H'.
    rewrite (framed_last _ _ _ (eq_trans Hlast' (eq_sym Hlast))) in H'.
    rewrite (viewport_messages_last _ _ _ _ (eq_trans Hlast' (eq_sym Hlast))) in H'.
    cbv zeta. rewrite H, H'. simpl snd. rewrite session_of_commit.
    repeat split.
    + apply framed_viewport. exact Hlast.
    + unfold commit. cbn [outbox].
      rewrite (viewport_messages_some _ _ _ _ Hlast). reflexivity.
Qed.

Lemma last_camera_wins_witness :
  let camA := cameraUpdate 0 0 1600 1200 in
  let camB := cameraUpdate 100 50 400 300 in
  let body := JObj [("elements", JArr [camA; rectangle "a"; camB])] in
  let shown := Camera.make (JNum 100) (JNum 50) (JNum 400) (JNum 300) in
  viewport (session_of "demo" (snd (post_elements "demo" body studio))) = Some shown
  ∧ viewport (session_of "demo" (snd (post_append "demo" body studio))) = Some shown
  ∧ outbox (snd (post_append "demo" body studio)) =
      [ (1%nat, MsgAppend [rectangle "a"]); (2%nat, MsgAppend [rectangle "a"]);
        (1%nat, MsgViewport shown); (2%nat, MsgViewport shown) ].
Proof.
  pose proof (last_camera_wins "demo"
                [("elements", JArr [cameraUpdate 0 0 1600 1200; rectangle "a";
                                    cameraUpdate 100 50 400 300])]
                [("elements", JArr [rectangle "a"; cameraUpdate 100 50 400 300])]
                [cameraUpdate 0 0 1600 1200; rectangle "a"] [] []
                (cameraUpdate 100 50 400 300) studio
                eq_refl eq_refl eq_refl eq_refl eq_refl eq_refl eq_refl) as H.
  cbv zeta in H. destruct H as (_ & (Hv1 & _ & _) & (Hv2 & Hout & _)).
  cbv zeta. split; [exact Hv1|]. split; [exact Hv2|].
  rewrite Hout. reflexivity.
Defined.

(** ** Appends that bring no draw element *)

Lemma last_map {A B : Type} (f : A → B) (l : list A) :
  last (map f l) = match last l with Some a => Some (f a) | None => None end.
Proof.
  induction l as [|a l IH]; [reflexivity|].
  destruct l as [|b l]; [reflexivity|].
  change (map f (a :: b :: l)) with (f a :: f b :: map f l).
  rewrite !last_cons_cons. exact IH.
Qed.

Lemma camera_not_nullish (el : jsval) : is_camera el = true → nullish el = false.
Proof. destruct el; simpl; intros H; try discriminate; reflexivity. Qed.

Lemma all_cameras_partition (items : list jsval) :
  forallb is_camera items = true →
  existsb nullish items = false
  ∧ List.filter (fun el => negb (is_camera el)) items = []
  ∧ List.filter is_camera items = items.
Proof.
  induction items as [|el items IH]; simpl; intros H; [repeat split|].
  apply andb_true_iff in H as [Hel Hrest].
  destruct (IH Hrest) as (IH1 & IH2 & IH3).
  rewrite (camera_not_nullish el Hel), Hel, IH1, IH2, IH3. repeat split.
Qed.

Lemma camera_only_cases (batch : jsval) (cams : list jsval) :
  camera_only batch = Some cams →
  (truthy batch = false ∧ cams = [])
  ∨ (batch = JArr cams ∧ forallb is_camera cams = true).
Proof.
  intros H. destruct batch as [| | b | f | s | items | o]; cbn [camera_only] in H.
  1-5: left;
       match type of H with
       | context [truthy ?v] =>
           revert H; destruct (truthy v) eqn:Ht; intros H;
           [discriminate | split; [reflexivity | congruence]]
       end.
  - right. destruct (forallb is_camera items) eqn:Hall; [|discriminate].
    injection H as <-. split; [reflexivity | exact Hall].
  - discriminate.
Qed.

(** C10. An append whose body has no [elements], or whose batch holds
    camera commands only, leaves the session's elements (and everything
    but its viewport) as they were and sends no [append] message: what it
    sends is the [viewport] broadcast of the last camera command, when the
    batch has one, and that camera becomes the session's viewport.  On a
    scene that is an array the answer is a success with the unchanged
    element count. *)
Theorem append_without_draw_elements (id : string) (body batch : jsval)
    (cams old : list jsval) (w : world) :
  member "elements" body = Returned batch →
  camera_only batch = Some cams →
  elements (session_of id w) = JArr old →
  let s0 := session_of id w in
  let w' := snd (post_append id body w) in
  elements (session_of id w') = JArr old
  ∧ appState (session_of id w') = appState s0
  ∧ clients (session_of id w') = clients s0
  ∧ viewport (session_of id w') =
      match last cams with
      | Some cmd => Some (camera_of cmd)
      | None => viewport s0
      end
  ∧ outbox w' =
      (outbox w ++ match last cams with
                   | Some cmd => to_open w s0 (MsgViewport (camera_of cmd))
                   | None => []
                   end)%list
  ∧ fst (post_append id body w) = Returned (ResAppend (Count (length old))).
Proof.
  intros Hb Hcam Hold s0 w'.
  assert (Hpost : post_append id body w =
                    (append_reply (framed (map camera_of cams) s0),
                     commit id (framed (map camera_of cams) s0)
                            (viewport_messages w s0 (map camera_of cams)) w)).
  { destruct (camera_only_cases batch cams Hcam) as [[Hfalsy ->] | [-> Hall]].
    - rewrite (post_append_skip id body batch w Hb); [reflexivity|].
      unfold has_items. rewrite Hfalsy. reflexivity.
    - destruct (all_cameras_partition cams Hall) as (Hnull & Hdraw & Hkeep).
      destruct (has_items (JArr cams)) eqn:Hsome.
      + pose proof (extractViewportUpdates_array cams) as Hex. rewrite Hnull in Hex.
        rewrite (post_append_batch id body (JArr cams) (partition_of cams) [] w
                   Hb Hsome Hex).
        * unfold partition_of. cbn [drawElements viewports]. rewrite Hdraw, Hkeep.
          reflexivity.
        * unfold partition_of. cbn [drawElements]. rewrite Hdraw. congruence.
      + rewrite (post_append_skip id body (JArr cams) w Hb Hsome).
        rewrite has_items_array in Hsome.
        destruct cams; [reflexivity | discriminate]. }
  subst w'. rewrite Hpost. simpl snd. simpl fst. rewrite session_of_commit.
  rewrite framed_elements, framed_appState, framed_clients.
  unfold append_reply. rewrite framed_elements. fold s0 in Hold. rewrite Hold.
  unfold framed, viewport_messages, commit. cbn [outbox].
  rewrite last_map. destruct (last cams); repeat split; reflexivity.
Qed.

Lemma append_without_draw_elements_witness :
  let body := JObj [("elements", JArr [cameraUpdate 0 0 1600 1200;
                                       cameraUpdate 100 50 400 300])] in
  let shown := Camera.make (JNum 100) (JNum 50) (JNum 400) (JNum 300) in
  post_append "demo" body studio =
    (Returned (ResAppend (Count 0)),
     commit "demo" (with_viewport (Some shown) (session_of "demo" studio))
            [(1%nat, MsgViewport shown); (2%nat, MsgViewport shown)] studio).
Proof.
  pose proof (append_without_draw_elements "demo"
                (JObj [("elements", JArr [cameraUpdate 0 0 1600 1200;
                                          cameraUpdate 100 50 400 300])])
                (JArr [cameraUpdate 0 0 1600 1200; cameraUpdate 100 50 400 300])
                [cameraUpdate 0 0 1600 1200; cameraUpdate 100 50 400 300] [] studio
                eq_refl eq_refl eq_refl) as H.
  cbv zeta in H. destruct H as (_ & _ & _ & _ & _ & Hreply).
  cbv zeta. apply injective_projections; [exact Hreply | reflexivity].
Defined.

(** ** Zero and absent camera fields *)

Lemma own_member_without_eq (k : string) (members : list (string * jsval)) :
  own_member k (without k members) = JUndefined.
Proof.
  unfold without. induction members as [|[k' v] members IH]; simpl; [reflexivity|].
  destruct (String.eqb k k') eqn:Hk; simpl; [exact IH|].
  rewrite Hk. exact IH.
Qed.

Lemma own_member_without_ne (k k' : string) (members : list (string * jsval)) :
  String.eqb k' k = false →
  own_member k' (without k members) = own_member k' members.
Proof.
  intros Hne. unfold without.
  induction members as [|[k'' v] members IH]; simpl; [reflexivity|].
  destruct (String.eqb k k'') eqn:Hk; simpl.
  - apply String.eqb_eq in Hk as <-. rewrite Hne. exact IH.
  - destruct (String.eqb k' k''); [reflexivity | exact IH].
Qed.

Lemma js_or_zero (f : float) (d : jsval) :
  PrimFloat.eqb f 0 = true → js_or (JNum f) d = d.
Proof. intros Hz. unfold js_or. simpl. rewrite Hz. reflexivity. Qed.

(** A member that holds zero counts for nothing in the camera of a
    command. *)
Lemma camera_of_zero (k : camera_field) (members : list (string * jsval)) (f : float) :
  own_member (field_name k) members = JNum f →
  PrimFloat.eqb f 0 = true →
  camera_of (JObj members) = camera_of (JObj (without (field_name k) members))
  ∧ field_of k (camera_of (JObj members)) = field_default k.
Proof.
  intros Hm Hz. unfold camera_of.
  destruct k; simpl in Hm; simpl field_name; simpl field_of;
    rewrite own_member_without_eq, !own_member_without_ne by reflexivity;
    rewrite Hm, (js_or_zero f _ Hz); split; reflexivity.
Qed.

Lemma is_camera_without (k : camera_field) (members : list (string * jsval)) :
  is_camera (JObj (without (field_name k) members)) = is_camera (JObj members).
Proof.
  simpl. rewrite own_member_without_ne; [reflexivity|]. destruct k; reflexivity.
Qed.

(** Replacing a camera command of a batch by one with the same camera
    changes nothing in what the extraction returns. *)
Lemma partition_same_camera (before after : list jsval) (cmd cmd' : jsval) :
  is_camera cmd = true →
  is_camera cmd' = true →
  camera_of cmd = camera_of cmd' →
  existsb nullish (before ++ cmd :: after) = existsb nullish (before ++ cmd' :: after)
  ∧ drawElements (partition_of (before ++ cmd :: after))
    = drawElements (partition_of (before ++ cmd' :: after))
  ∧ viewports (partition_of (before ++ cmd :: after))
    = viewports (partition_of (before ++ cmd' :: after)).
Proof.
  intros Hc Hc' Hsame. unfold partition_of. cbn [drawElements viewports].
  rewrite !existsb_app, !List.filter_app. simpl.
  rewrite (camera_not_nullish _ Hc), (camera_not_nullish _ Hc'), Hc, Hc'.
  simpl. rewrite !map_app. simpl. rewrite Hsame. repeat split.
Qed.

Lemma post_elements_same_extraction (id : string) (rest : list (string * jsval))
    (batch batch' : list jsval) (w : world) :
  existsb nullish batch = existsb nullish batch' →
  drawElements (partition_of batch) = drawElements (partition_of batch') →
  viewports (partition_of batch) = viewports (partition_of batch') →
  post_elements id (JObj (("elements", JArr batch) :: rest)) w
  = post_elements id (JObj (("elements", JArr batch') :: rest)) w.
Proof.
  intros Hn Hd Hv. unfold post_elements. exec. simpl member. exec.
  change (js_or (JArr batch) (JArr [])) with (JArr batch).
  change (js_or (JArr batch') (JArr [])) with (JArr batch').
  rewrite !extractViewportUpdates_array, <- Hn.
  destruct (existsb nullish batch); [reflexivity|].
  exec. rewrite Hd, Hv. reflexivity.
Qed.

Lemma post_append_same_extraction (id : string) (rest : list (string * jsval))
    (batch batch' : list jsval) (w : world) :
  has_items (JArr batch) = has_items (JArr batch') →
  existsb nullish batch = existsb nullish batch' →
  drawElements (partition_of batch) = drawElements (partition_of batch') →
  viewports (partition_of batch) = viewports (partition_of batch') →
  post_append id (JObj (("elements", JArr batch) :: rest)) w
  = post_append id (JObj (("elements", JArr batch') :: rest)) w.
Proof.
  intros Hsome Hn Hd Hv. unfold post_append. exec. simpl member. exec.
  rewrite !post_append_guard, <- Hsome. exec.
  destruct (has_items (JArr batch)); [|reflexivity].
  rewrite !extractViewportUpdates_array, <- Hn.
  destruct (existsb nullish batch); [reflexivity|].
  exec. rewrite Hd, Hv. reflexivity.
Qed.

(** C9. A member [x], [y], [width] or [height] that is present with the
    value zero is treated as if it were absent: the camera of a command,
    what replace-all and append do with a batch that holds the command, and
    what [POST /viewport] does with such a body are the same with the
    member removed, and the field of the viewport that is written and
    broadcast holds the default (0, 0, 800, 600).  A command with width 0
    thus gives a viewport of width 800. *)
Theorem zero_field_is_absent (k : camera_field) (members : list (string * jsval))
    (f : float) :
  own_member (field_name k) members = JNum f →
  PrimFloat.eqb f 0 = true →
  let cmd := JObj members in
  let bare := JObj (without (field_name k) members) in
  (camera_of cmd = camera_of bare ∧ field_of k (camera_of cmd) = field_default k)
  ∧ (is_camera cmd = true →
     ∀ id rest before after w,
       post_elements id (JObj (("elements", JArr (before ++ cmd :: after)) :: rest)) w
       = post_elements id (JObj (("elements", JArr (before ++ bare :: after)) :: rest)) w
       ∧ post_append id (JObj (("elements", JArr (before ++ cmd :: after)) :: rest)) w
         = post_append id (JObj (("elements", JArr (before ++ bare :: after)) :: rest)) w)
  ∧ (is_camera cmd = true →
     ∀ id rest w,
       let w' := snd (post_elements id (JObj (("elements", JArr [cmd]) :: rest)) w) in
       ∃ camera,
         field_of k camera = field_default k
         ∧ viewport (session_of id w') = Some camera
         ∧ ∃ sent, outbox w' = (sent ++ to_open w (session_of id w) (MsgViewport camera))%list)
  ∧ (∀ id w,
       post_viewport id cmd w = post_viewport id bare w
       ∧ ∃ camera,
           field_of k camera = field_default k
           ∧ viewport (session_of id (snd (post_viewport id cmd w))) = Some camera
           ∧ fst (post_viewport id cmd w) = Returned (ResViewport camera)
           ∧ outbox (snd (post_viewport id cmd w))
             = (outbox w ++ to_open w (session_of id w) (MsgViewport camera))%list).
Proof.
  intros Hm Hz cmd bare.
  destruct (camera_of_zero k members f Hm Hz) as [Hsame Hfield].
  fold cmd bare in Hsame, Hfield.
  split; [split; assumption|]. split; [|split].
  - intros Hcam id rest before after w.
    assert (Hcam' : is_camera bare = true)
      by (subst bare cmd; rewrite is_camera_without; exact Hcam).
    destruct (partition_same_camera before after cmd bare Hcam Hcam' Hsame)
      as (Hn & Hd & Hv).
    split.
    + apply post_elements_same_extraction; assumption.
    + apply post_append_same_extraction; try assumption.
      rewrite !has_items_array, !length_app. reflexivity.
  - intros Hcam id rest w w'. exists (camera_of cmd). split; [exact Hfield|].
    assert (Hex : extractViewportUpdates (JArr [cmd]) = Returned (partition_of [cmd]))
      by (rewrite extractViewportUpdates_array; reflexivity).
    pose proof (post_elements_eq id (JObj (("elements", JArr [cmd]) :: rest))
                  (JArr [cmd]) (own_member "appState" rest) (partition_of [cmd]) w
                  eq_refl eq_refl Hex) as H.
    cbv zeta in H. subst w'. rewrite H. simpl snd. rewrite session_of_commit.
    assert (Hlast : last (viewports (partition_of [cmd])) = Some (camera_of cmd)).
    { unfold partition_of. cbn [viewports List.filter]. rewrite Hcam. reflexivity. }
    split; [apply framed_viewport; exact Hlast|].
    unfold commit. cbn [outbox].
    rewrite (viewport_messages_some _ _ _ _ Hlast), app_assoc. eauto.
  - intros id w.
    pose proof (post_viewport_eq id cmd _ _ _ _ w eq_refl eq_refl eq_refl eq_refl) as H.
    pose proof (post_viewport_eq id bare _ _ _ _ w eq_refl eq_refl eq_refl eq_refl) as H'.
    cbv zeta in H, H'.
    change (Camera.make (js_or (own_member "x" members) (JNum 0))
                        (js_or (own_member "y" members) (JNum 0))
                        (js_or (own_member "width" members) (JNum 800))
                        (js_or (own_member "height" members) (JNum 600)))
      with (camera_of cmd) in H.
    change (Camera.make (js_or (own_member "x" (without (field_name k) members)) (JNum 0))
                        (js_or (own_member "y" (without (field_name k) members)) (JNum 0))
                        (js_or (own_member "width" (without (field_name k) members)) (JNum 800))
                        (js_or (own_member "height" (without (field_name k) members)) (JNum 600)))
      with (camera_of bare) in H'.
    rewrite <- Hsame in H'. split; [rewrite H, H'; reflexivity|].
    exists (camera_of cmd). rewrite H. simpl snd. simpl fst. rewrite session_of_commit.
    repeat split. exact Hfield.
Qed.

Lemma zero_field_is_absent_witness :
  let cmd := JObj [("type", JStr "cameraUpdate"); ("x", JNum 40); ("width", JNum 0)] in
  camera_of cmd = Camera.make (JNum 40) (JNum 0) (JNum 800) (JNum 600)
  ∧ post_viewport "demo" (JObj [("x", JNum 40); ("width", JNum 0)]) studio
    = post_viewport "demo" (JObj [("x", JNum 40)]) studio.
Proof.
  split.
  - reflexivity.
  - pose proof (zero_field_is_absent FieldWidth [("x", JNum 40); ("width", JNum 0)] 0%float
                  eq_refl eq_refl) as H.
    cbv zeta in H. destruct H as (_ & _ & _ & Hpost).
    exact (proj1 (Hpost "demo" studio)).
Defined.

(** ** What the handlers leave untouched *)

Lemma tame_bind {A B : Type} (id : string) (m : handler A) (k : A → handler B) :
  tame id m → (∀ a, tame id (k a)) → tame id (m ≫= k).
Proof.
  intros Hm Hk s msgs w. rewrite run_bind.
  destruct (Hm s msgs w) as (s1 & msgs1 & H1 & Hc1).
  destruct (m (commit id s msgs w)) as [[a|e] st]; simpl in H1; subst st.
  - destruct (Hk a s1 msgs1 w) as (s2 & msgs2 & H2 & Hc2).
    exists s2, msgs2. split; [exact H2 | congruence].
  - exists s1, msgs1. split; [reflexivity | exact Hc1].
Qed.

Lemma tame_lift {A : Type} (id : string) (c : completion A) : tame id (lift c).
Proof. intros s msgs w. exists s, msgs. split; reflexivity. Qed.

Lemma tame_ret {A : Type} (id : string) (a : A) : tame id (mret a : handler A).
Proof. intros s msgs w. exists s, msgs. split; reflexivity. Qed.

Lemma tame_skip (id : string) : tame id (skip : handler unit).
Proof. apply tame_ret. Qed.

Lemma tame_deref {A : Type} (id : string) (field : session → A) : tame id (deref id field).
Proof.
  intros s msgs w. exists s, msgs. rewrite deref_commit. split; reflexivity.
Qed.

Lemma tame_assign (id : string) (f : session → session) :
  (∀ s, clients (f s) = clients s) → tame id (assign id f).
Proof.
  intros Hf s msgs w. exists (f s), msgs. rewrite assign_commit.
  split; [reflexivity | apply Hf].
Qed.

Lemma tame_broadcast (id : string) (msg : server_msg) : tame id (broadcast id msg).
Proof.
  intros s msgs w. eexists s, _. rewrite broadcast_commit. split; reflexivity.
Qed.

Lemma tame_apply_viewports (id : string) (cams : list Camera.t) :
  tame id (apply_viewports id cams).
Proof.
  intros s msgs w. eexists _, _. rewrite apply_viewports_framed.
  split; [reflexivity | apply framed_clients].
Qed.

Lemma relay_commit (id : string) (ws : conn) (msg : server_msg) (s : session)
    (msgs : list (conn * server_msg)) (w : world) :
  relay id ws msg (commit id s msgs w) =
    commit id s
      (msgs ++ map (fun c => (c, msg))
                   (List.filter (fun c => negb (Nat.eqb c ws) && is_open w c) (clients s)))
      w.
Proof.
  unfold relay. rewrite session_of_commit.
  pose proof (send_loop (fun c => negb (Nat.eqb c ws)) msg (clients s)
                (commit id s msgs w)) as H.
  rewrite H. unfold commit. simpl. rewrite <- app_assoc. reflexivity.
Qed.

Lemma tame_relay (id : string) (ws : conn) (msg : server_msg) :
  tame id (effect (relay id ws msg)).
Proof.
  intros s msgs w. eexists s, _. unfold effect. simpl snd. rewrite relay_commit.
  split; reflexivity.
Qed.

Ltac tame_step :=
  first
    [ apply tame_bind; [|intros ?]
    | apply tame_lift
    | apply tame_ret
    | apply tame_skip
    | apply tame_deref
    | apply tame_broadcast
    | apply tame_apply_viewports
    | apply tame_relay
    | apply tame_assign; intros []; reflexivity
    | match goal with
      | |- tame _ (if ?b then _ else _) => destruct b
      end ].

Ltac tame_all := repeat tame_step.

(** A tame handler that starts with [getSession(id)] edits [id]. *)
Lemma edits_after_getSession {A : Type} (id : string) (k : unit → handler A) (w : world) :
  (∀ u, tame id (k u)) → edits id w (snd ((getSession id ≫= k) w)).
Proof.
  intros Hk. rewrite run_bind, getSession_commit.
  destruct (Hk tt (session_of id w) [] w) as (s' & msgs' & H & Hc).
  rewrite H. unfold edits, commit. simpl. repeat split. eauto.
Qed.

Lemma get_session_edits (id : string) (w : world) :
  edits id w (snd (get_session id w)).
Proof. apply edits_after_getSession. intros u. tame_all. Qed.

Lemma post_elements_edits (id : string) (body : jsval) (w : world) :
  edits id w (snd (post_elements id body w)).
Proof. apply edits_after_getSession. intros u. tame_all. Qed.

Lemma post_append_edits (id : string) (body : jsval) (w : world) :
  edits id w (snd (post_append id body w)).
Proof. apply edits_after_getSession. intros u. tame_all. Qed.

Lemma post_viewport_edits (id : string) (body : jsval) (w : world) :
  edits id w (snd (post_viewport id body w)).
Proof. apply edits_after_getSession. intros u. tame_all. Qed.

Lemma post_clear_edits (id : string) (w : world) :
  edits id w (snd (post_clear id w)).
Proof. apply edits_after_getSession. intros u. tame_all. Qed.

(** ** The message listener (§4.4) *)

Lemma commit_present (id : string) (s : session) (w : world) :
  sessions w !! id = Some s → commit id s [] w = w.
Proof.
  intros Hs. unfold commit. destruct w as [ss so ob co cl ti]. simpl in *.
  rewrite (insert_id _ _ _ Hs), app_nil_r. reflexivity.
Qed.

Lemma session_of_present (id : string) (s : session) (w : world) :
  sessions w !! id = Some s → session_of id w = s.
Proof. intros Hs. unfold session_of. rewrite Hs. reflexivity. Qed.

Lemma try_message_tame (id : string) (ws : conn) (data : frame) :
  tame id (try_message id ws data).
Proof. unfold try_message. tame_all. Qed.

Lemma on_message_edits (id : string) (ws : conn) (data : frame) (s : session) (w : world) :
  sessions w !! id = Some s → edits id w (on_message id ws data w).
Proof.
  intros Hs. unfold on_message.
  destruct (try_message_tame id ws data s [] w) as (s' & msgs' & H & Hc).
  rewrite (commit_present id s w Hs) in H.
  unfold edits. rewrite (session_of_present id s w Hs).
  destruct (try_message id ws data w) as [[u|e] w']; simpl in H; subst w';
    unfold commit, log; simpl; repeat split; eauto.
Qed.

(** An [update] from [ws]: the scene is overwritten and relayed. *)
Lemma on_message_update (id : string) (ws : conn) (members : list (string * jsval))
    (s : session) (w : world) :
  sessions w !! id = Some s →
  own_member "type" members = JStr "update" →
  let scene := own_member "elements" members in
  on_message id ws (Json (JObj members)) w =
    commit id (with_elements scene s)
      (map (fun c => (c, MsgElements scene None))
           (List.filter (fun c => negb (Nat.eqb c ws) && is_open w c) (clients s)))
      w.
Proof.
  intros Hs Htag scene. unfold on_message, try_message.
  rewrite <- (commit_present id s w Hs) at 1.
  exec. simpl JSON_parse. exec. simpl member. rewrite Htag. exec.
  change (is_update (JStr "update")) with true. exec.
  simpl member. exec. fold scene.
  unfold effect. rewrite relay_commit. reflexivity.
Qed.

Lemma received_app (c : conn) (l1 l2 : list (conn * server_msg)) :
  received c (l1 ++ l2) = (received c l1 ++ received c l2)%list.
Proof. unfold received. rewrite List.filter_app, map_app. reflexivity. Qed.

(** Among messages sent once to each of the connections [l], [c] gets one
    when it is in [l] and none otherwise. *)
Lemma received_once (c : conn) (msg : server_msg) (l : list conn) :
  NoDup l →
  received c (map (fun c' => (c', msg)) l) = if existsb (Nat.eqb c) l then [msg] else [].
Proof.
  induction 1 as [|c' l Hnotin Hnodup IH]; [reflexivity|].
  change (received c (map (fun c' => (c', msg)) (c' :: l)))
    with (received c ([(c', msg)] ++ map (fun c' => (c', msg)) l)).
  rewrite received_app, IH. unfold received at 1. simpl.
  rewrite (Nat.eqb_sym c c').
  destruct (Nat.eqb c' c) eqn:Hc; simpl; [|reflexivity].
  apply Nat.eqb_eq in Hc as ->.
  destruct (existsb (Nat.eqb c) l) eqn:Hex; [|reflexivity].
  exfalso. apply existsb_exists in Hex as (c'' & Hin & Heq).
  apply Nat.eqb_eq in Heq as <-. apply Hnotin. apply list_elem_of_In. exact Hin.
Qed.

Lemma NoDup_filter_bool {A : Type} (p : A → bool) (l : list A) :
  NoDup l → NoDup (List.filter p l).
Proof.
  induction 1 as [|a l Hnotin Hnodup IH]; simpl; [constructor|].
  destruct (p a); [|exact IH]. constructor; [|exact IH].
  intros Hin. apply Hnotin. apply list_elem_of_In.
  apply list_elem_of_In in Hin. apply List.filter_In in Hin. tauto.
Qed.

(** Which of the connections [l] pass the relay's test for [c]. *)
Lemma existsb_relay (c ws : conn) (open : conn → bool) (l : list conn) :
  existsb (Nat.eqb c) (List.filter (fun c' => negb (Nat.eqb c' ws) && open c') l)
  = existsb (Nat.eqb c) l && negb (Nat.eqb c ws) && open c.
Proof.
  induction l as [|c' l IH]; [reflexivity|]. simpl.
  destruct (Nat.eqb c c') eqn:Hc.
  - apply Nat.eqb_eq in Hc as <-. simpl.
    destruct (negb (Nat.eqb c ws) && open c) eqn:Hpass; simpl.
    + rewrite Nat.eqb_refl. reflexivity.
    + rewrite IH, <- andb_assoc, Hpass, andb_false_r. reflexivity.
  - simpl. destruct (negb (Nat.eqb c' ws) && open c'); simpl; rewrite ?Hc; exact IH.
Qed.

(** ** The other listeners, and the timers *)

Lemma on_upgrade_frame (id : string) (ws : conn) (w w' : world) (r : completion unit) :
  on_upgrade id ws w = Some (r, w') →
  sockets w' = sockets w ∧ clock w' = clock w ∧ timers w' = timers w
  ∧ sessions w' =
      <[id := with_clients (set_add ws (clients (session_of id w))) (session_of id w)]>
        (sessions w).
Proof.
  unfold on_upgrade. rewrite getSession_commit. cbv beta iota.
  rewrite assign_commit. cbv beta iota.
  set (s1 := with_clients _ _).
  set (w1 := log _ _).
  assert (Hw1 : sockets w1 = sockets w ∧ clock w1 = clock w ∧ timers w1 = timers w
                ∧ sessions w1 = <[id := s1]> (sessions w)) by (repeat split).
  destruct (read_length (elements (session_of id w1))) as [n|e].
  - destruct (length_gt0 n) as [some|]; [|discriminate].
    intros H. injection H as _ <-.
    destruct some;
      match goal with
      | |- context [match viewport ?x with _ => _ end] => destruct (viewport x)
      end; exact Hw1.
  - intros H. injection H as _ <-. exact Hw1.
Qed.

Lemma In_enqueue_old (t : Z * string) (due : Z) (id : string) (q : list (Z * string)) :
  In t q → In t (enqueue due id q).
Proof.
  induction q as [|[d i] q IH]; simpl; [tauto|].
  intros [<- | Hin]; destruct (d <=? due); simpl; auto.
Qed.

Lemma In_enqueue_new (due : Z) (id : string) (q : list (Z * string)) :
  In (due, id) (enqueue due id q).
Proof.
  induction q as [|[d i] q IH]; simpl; [auto|].
  destruct (d <=? due); simpl; auto.
Qed.

Lemma on_close_frame (id : string) (ws : conn) (w : world) :
  sockets (on_close id ws w) = sockets w
  ∧ clock (on_close id ws w) = clock w
  ∧ sessions (on_close id ws w)
    = alter (fun s => with_clients (set_delete ws (clients s)) s) id (sessions w)
  ∧ (∀ t, In t (timers w) → In t (timers (on_close id ws w))).
Proof.
  unfold on_close.
  destruct (Nat.eqb _ 0); simpl; repeat split; auto.
  intros t Hin. apply In_enqueue_old. exact Hin.
Qed.

(** The close of the last client schedules the check, [idle_window] from
    now. *)
Lemma on_close_last (id : string) (ws : conn) (s : session) (w : world) :
  sessions w !! id = Some s →
  set_delete ws (clients s) = [] →
  In (clock w + idle_window, id) (timers (on_close id ws w))
  ∧ vacant id (on_close id ws w).
Proof.
  intros Hs Hlast. unfold on_close, vacant.
  assert (Hafter : clients (session_of id
             (log (LogDisconnected id 0)
                (set_sessions (alter (fun s => with_clients (set_delete ws (clients s)) s) id) w)))
           = []).
  { unfold session_of. simpl. rewrite lookup_alter_eq, Hs. simpl. exact Hlast. }
  unfold session_of in *. simpl in *.
  rewrite lookup_alter_eq, Hs in *. simpl in *. rewrite Hlast. simpl.
  rewrite lookup_alter_eq, Hs. simpl. split; [apply In_enqueue_new | exact Hlast].
Qed.

Lemma cleanup_frame (id : string) (w : world) :
  sockets (cleanup id w) = sockets w ∧ clock (cleanup id w) = clock w
  ∧ timers (cleanup id w) = timers w ∧ outbox (cleanup id w) = outbox w.
Proof.
  unfold cleanup. destruct (sessions w !! id) as [s|]; [|repeat split].
  destruct (Nat.eqb _ 0); repeat split.
Qed.

(** The callback removes nothing but a session without clients. *)
Lemma cleanup_lookup (id id' : string) (w : world) :
  sessions (cleanup id w) !! id' =
    match sessions w !! id' with
    | Some s => if decide (id = id') then
                  (if Nat.eqb (length (clients s)) 0 then None else Some s)
                else Some s
    | None => None
    end.
Proof.
  unfold cleanup. destruct (decide (id = id')) as [<-|Hne].
  - destruct (sessions w !! id) as [s|] eqn:Hs; [|exact Hs].
    destruct (Nat.eqb _ 0); simpl; [apply lookup_delete_eq | exact Hs].
  - destruct (sessions w !! id) as [s|] eqn:Hs.
    + destruct (Nat.eqb _ 0); simpl.
      * rewrite lookup_delete_ne by exact Hne. destruct (sessions w !! id'); reflexivity.
      * destruct (sessions w !! id'); reflexivity.
    + destruct (sessions w !! id'); reflexivity.
Qed.

Lemma cleanup_keeps (id id' : string) (s : session) (w : world) :
  sessions w !! id' = Some s → clients s ≠ [] →
  sessions (cleanup id w) !! id' = Some s.
Proof.
  intros Hs Hne. rewrite cleanup_lookup, Hs.
  destruct (decide (id = id')); [|reflexivity].
  destruct (clients s); [congruence | reflexivity].
Qed.

Lemma cleanup_sub (id id' : string) (s : session) (w : world) :
  sessions (cleanup id w) !! id' = Some s → sessions w !! id' = Some s.
Proof.
  rewrite cleanup_lookup. destruct (sessions w !! id') as [s'|]; [|discriminate].
  destruct (decide (id = id')); [|auto].
  destruct (Nat.eqb _ 0); [discriminate | auto].
Qed.

(** The callbacks of a list of timers, in a row. *)
Lemma cleanups_frame (l : list (Z * string)) :
  ∀ w, let w' := fold_left (fun w '(_, id) => cleanup id w) l w in
       sockets w' = sockets w ∧ clock w' = clock w
       ∧ timers w' = timers w ∧ outbox w' = outbox w.
Proof.
  induction l as [|[d i] l IH]; intros w; simpl; [repeat split|].
  destruct (IH (cleanup i w)) as (H1 & H2 & H3 & H4).
  destruct (cleanup_frame i w) as (G1 & G2 & G3 & G4).
  repeat split; congruence.
Qed.

Lemma cleanups_keep (l : list (Z * string)) (id : string) (s : session) :
  ∀ w, sessions w !! id = Some s → clients s ≠ [] →
       sessions (fold_left (fun w '(_, id) => cleanup id w) l w) !! id = Some s.
Proof.
  induction l as [|[d i] l IH]; intros w Hs Hne; simpl; [exact Hs|].
  apply IH; [|exact Hne]. apply cleanup_keeps; assumption.
Qed.

Lemma cleanups_sub (l : list (Z * string)) (id : string) (s : session) :
  ∀ w, sessions (fold_left (fun w '(_, id) => cleanup id w) l w) !! id = Some s →
       sessions w !! id = Some s.
Proof.
  induction l as [|[d i] l IH]; intros w H; simpl in H; [exact H|].
  apply (cleanup_sub i). apply IH. exact H.
Qed.

(** Once a session without clients has met its callback, it is gone. *)
Lemma cleanups_remove (l : list (Z * string)) (id : string) :
  ∀ w, vacant id w → (∃ d, In (d, id) l) →
       sessions (fold_left (fun w '(_, id) => cleanup id w) l w) !! id = None.
Proof.
  assert (Hgone : ∀ (l : list (Z * string)) w, sessions w !! id = None →
            sessions (fold_left (fun w '(_, id) => cleanup id w) l w) !! id = None).
  { intros l'. induction l' as [|[d i] l' IH]; intros w Hw; simpl; [exact Hw|].
    apply IH. rewrite cleanup_lookup, Hw. reflexivity. }
  induction l as [|[d i] l IH]; intros w Hvac [d0 Hin]; simpl in *; [tauto|].
  destruct (decide (i = id)) as [->|Hne].
  - apply Hgone. rewrite cleanup_lookup.
    unfold vacant, session_of in Hvac.
    destruct (sessions w !! id) as [s|]; [|reflexivity].
    simpl in Hvac. rewrite decide_True by reflexivity. rewrite Hvac. reflexivity.
  - apply IH.
    + unfold vacant, session_of in *. rewrite cleanup_lookup.
      destruct (sessions w !! id) as [s|]; [|exact Hvac].
      rewrite decide_False by exact Hne. exact Hvac.
    + destruct Hin as [Heq | Hin]; [congruence | eauto].
Qed.

(** ** Invariants of the reachable states *)

Lemma NoDup_set_add (c : conn) (l : list conn) : NoDup l → NoDup (set_add c l).
Proof.
  intros Hl. unfold set_add. destruct (existsb (Nat.eqb c) l) eqn:Hex; [exact Hl|].
  apply NoDup_app. split; [exact Hl|]. split; [|apply NoDup_singleton].
  intros x Hx Hx'. apply list_elem_of_singleton in Hx' as ->.
  assert (existsb (Nat.eqb c) l = true); [|congruence].
  apply existsb_exists. exists c. split; [|apply Nat.eqb_refl].
  apply list_elem_of_In. exact Hx.
Qed.

Lemma NoDup_set_delete (c : conn) (l : list conn) : NoDup l → NoDup (set_delete c l).
Proof. apply NoDup_filter_bool. Qed.

Lemma NoDup_session_of (id : string) (w : world) :
  sets_ok w → NoDup (clients (session_of id w)).
Proof.
  intros Hok. unfold session_of.
  destruct (sessions w !! id) as [s|] eqn:Hs; simpl; [eauto | constructor].
Qed.

Lemma edits_sets_ok (id : string) (w w' : world) :
  sets_ok w → edits id w w' → sets_ok w'.
Proof.
  intros Hok (_ & _ & _ & s' & Hss & Hc) id0 s0 Hs0.
  rewrite Hss in Hs0. destruct (decide (id = id0)) as [<-|Hne].
  - rewrite lookup_insert_eq in Hs0. injection Hs0 as <-.
    rewrite Hc. apply NoDup_session_of. exact Hok.
  - rewrite lookup_insert_ne in Hs0 by exact Hne. eauto.
Qed.

Lemma elapse_sub (dt : Z) (id : string) (s : session) (w : world) :
  sessions (elapse dt w) !! id = Some s → sessions w !! id = Some s.
Proof. unfold elapse. simpl. intros H. apply cleanups_sub in H. exact H. Qed.

Lemma connected_present (id : string) (ws : conn) (w : world) :
  connected id ws w = true →
  ∃ s, sessions w !! id = Some s ∧ existsb (Nat.eqb ws) (clients s) = true.
Proof.
  unfold connected. destruct (sessions w !! id) as [s|]; [eauto | discriminate].
Qed.

Lemma step_sets_ok (e : event) (w w' : world) :
  sets_ok w → step e w = Some w' → sets_ok w'.
Proof.
  intros Hok Hstep. destruct e as [id ws | id ws data | ws | id ws | id | id body
                                   | id body | id body | id | dt]; simpl in Hstep.
  - destruct (sockets w !! ws); [discriminate|].
    destruct (on_upgrade id ws _) as [[[u|e] w1]|] eqn:Hup; try discriminate.
    injection Hstep as <-.
    destruct (on_upgrade_frame _ _ _ _ _ Hup) as (_ & _ & _ & Hss).
    intros id0 s0 Hs0. rewrite Hss in Hs0.
    destruct (decide (id = id0)) as [<-|Hne].
    + rewrite lookup_insert_eq in Hs0. injection Hs0 as <-. simpl.
      apply NoDup_set_add. apply (NoDup_session_of id w Hok).
    + rewrite lookup_insert_ne in Hs0 by exact Hne. apply (Hok id0). exact Hs0.
  - destruct (connected id ws w) eqn:Hcon; [|discriminate]. injection Hstep as <-.
    destruct (connected_present _ _ _ Hcon) as (s & Hs & _).
    apply (edits_sets_ok id w); [exact Hok|]. apply (on_message_edits id ws data s w Hs).
  - destruct (sockets w !! ws) as [[]|]; try discriminate.
    injection Hstep as <-. exact Hok.
  - destruct (connected id ws w) eqn:Hcon; [|discriminate]. injection Hstep as <-.
    destruct (on_close_frame id ws (set_sockets <[ws := CLOSED]> w)) as (_ & _ & Hss & _).
    intros id0 s0 Hs0. rewrite Hss in Hs0. simpl in Hs0.
    rewrite lookup_alter in Hs0. destruct (decide (id = id0)) as [<-|Hne].
    + destruct (sessions w !! id) as [s|] eqn:Hs; [|discriminate].
      injection Hs0 as <-. simpl. apply NoDup_set_delete. eauto.
    + eauto.
  - injection Hstep as <-. eapply edits_sets_ok; [exact Hok | apply get_session_edits].
  - injection Hstep as <-. eapply edits_sets_ok; [exact Hok | apply post_elements_edits].
  - injection Hstep as <-. eapply edits_sets_ok; [exact Hok | apply post_append_edits].
  - injection Hstep as <-. eapply edits_sets_ok; [exact Hok | apply post_viewport_edits].
  - injection Hstep as <-. eapply edits_sets_ok; [exact Hok | apply post_clear_edits].
  - destruct (0 <=? dt); [|discriminate]. injection Hstep as <-.
    intros id0 s0 Hs0. apply elapse_sub in Hs0. eauto.
Qed.

Lemma run_sets_ok (evs : list event) :
  ∀ w w', sets_ok w → run evs w = Some w' → sets_ok w'.
Proof.
  induction evs as [|e evs IH]; intros w w' Hok Hrun; simpl in Hrun.
  - injection Hrun as <-. exact Hok.
  - destruct (step e w) as [w1|] eqn:Hstep; [|discriminate].
    eapply IH; [|exact Hrun]. eapply step_sets_ok; eassumption.
Qed.

(** In every reachable state the client sets are sets. *)
Lemma reachable_sets_ok (w : world) : reachable w → sets_ok w.
Proof.
  intros [evs Hrun]. eapply run_sets_ok; [|exact Hrun].
  intros id s Hs. unfold boot in Hs. simpl in Hs. rewrite lookup_empty in Hs. discriminate.
Qed.

(** C3. In a reachable state, when a connection [ws] of the session [id]
    delivers a message of type [update] with the elements [E], the
    session's elements become [E], whatever they were (its other fields
    and the other sessions stay), and the message [elements] with [E] is
    sent once to every connection of the session's client set that is not
    [ws] and is open, and to nobody else: not to [ws], not to a closing
    socket, not to a connection of another session.  Nothing is logged. *)
Theorem update_replaces_and_relays (id : string) (ws : conn)
    (members : list (string * jsval)) (w : world) :
  reachable w →
  connected id ws w = true →
  own_member "type" members = JStr "update" →
  let E := own_member "elements" members in
  let s := session_of id w in
  let w' := on_message id ws (Json (JObj members)) w in
  sessions w' = <[id := with_elements E s]> (sessions w)
  ∧ elements (session_of id w') = E
  ∧ (∃ sent, outbox w' = (outbox w ++ sent)%list
             ∧ ∀ c, received c sent =
                      if existsb (Nat.eqb c) (clients s) && negb (Nat.eqb c ws) && is_open w c
                      then [MsgElements E None] else [])
  ∧ console w' = console w ∧ sockets w' = sockets w
  ∧ timers w' = timers w ∧ clock w' = clock w.
Proof.
  intros Hreach Hcon Htag E s w'.
  destruct (connected_present _ _ _ Hcon) as (s0 & Hs & _).
  assert (s = s0) as -> by (subst s; apply session_of_present; exact Hs).
  pose proof (on_message_update id ws members s0 w Hs Htag) as Hup.
  cbv zeta in Hup. fold E in Hup. subst w'. rewrite Hup.
  split; [reflexivity|]. split; [rewrite session_of_commit; reflexivity|].
  split; [|repeat split].
  eexists. split; [reflexivity|]. intros c.
  rewrite received_once.
  - rewrite existsb_relay. reflexivity.
  - apply NoDup_filter_bool. apply (reachable_sets_ok w Hreach id s0 Hs).
Qed.

Lemma lobby_reachable : reachable lobby.
Proof. exists lobby_trace. vm_compute. reflexivity. Qed.

Lemma update_replaces_and_relays_witness :
  let update := [("type", JStr "update"); ("elements", JArr [rectangle "a"])] in
  let w' := on_message "demo" 1 (Json (JObj update)) lobby in
  elements (session_of "demo" w') = JArr [rectangle "a"]
  ∧ outbox w' = [(2%nat, MsgElements (JArr [rectangle "a"]) None)].
Proof.
  pose proof (update_replaces_and_relays "demo" 1
                [("type", JStr "update"); ("elements", JArr [rectangle "a"])] lobby
                lobby_reachable eq_refl eq_refl) as H.
  cbv zeta in H. destruct H as (_ & Hscene & _).
  cbv zeta. split; [exact Hscene | reflexivity].
Defined.

(** C8, as amended. A payload that is not valid JSON, or that is valid JSON
    without the type [update], is dropped: the sessions (elements,
    appState, viewport and client set of each), the sockets (the connection
    stays open), the outbox and the timers are as before.  It is logged
    only when it makes the [try] block throw, that is when it does not
    parse or is the JSON text [null]; any other message that is no
    [update] is ignored without a line in the log. *)
Theorem non_update_is_dropped (id : string) (ws : conn) (data : frame) (w : world) :
  not_update data = true →
  let w' := on_message id ws data w in
  w' = match parse_failure data with
       | Some e => log (LogParseError e) w
       | None => w
       end
  ∧ sessions w' = sessions w
  ∧ sockets w' = sockets w
  ∧ outbox w' = outbox w
  ∧ timers w' = timers w
  ∧ console w' = (console w ++ match parse_failure data with
                               | Some e => [LogParseError e]
                               | None => []
                               end)%list.
Proof.
  intros Hnot w'.
  assert (Hw' : w' = match parse_failure data with
                     | Some e => log (LogParseError e) w
                     | None => w
                     end).
  { subst w'. unfold on_message, try_message, not_update, parse_failure in *.
    exec. destruct (JSON_parse data) as [msg|e]; exec; [|reflexivity].
    destruct (member "type" msg) as [tag|e]; exec; [|reflexivity].
    apply negb_true_iff in Hnot. rewrite Hnot. exec. reflexivity. }
  rewrite Hw'. split; [reflexivity|].
  destruct (parse_failure data); simpl; rewrite ?app_nil_r; repeat split.
Qed.

Lemma non_update_is_dropped_witness :
  on_message "demo" 1 NotJSON lobby
    = log (LogParseError (SyntaxError "Unexpected token in JSON")) lobby
  ∧ on_message "demo" 1 (Json JNull) lobby
    = log (LogParseError
             (TypeError "Cannot read properties of null or undefined, reading type")) lobby
  ∧ on_message "demo" 1 (Json (JObj [("type", JStr "ping")])) lobby = lobby.
Proof.
  split; [|split].
  - exact (proj1 (non_update_is_dropped "demo" 1 NotJSON lobby eq_refl)).
  - exact (proj1 (non_update_is_dropped "demo" 1 (Json JNull) lobby eq_refl)).
  - exact (proj1 (non_update_is_dropped "demo" 1
                    (Json (JObj [("type", JStr "ping")])) lobby eq_refl)).
Defined.

(** Against C8 as the specification words it: valid JSON of an unexpected
    shape is not logged (a message of type [ping]), and an [update] without
    [elements] is not dropped: it overwrites the scene with [undefined]. *)
Lemma unexpected_shape_counterexample :
  ¬ logged_and_dropped "demo" 1 (Json (JObj [("type", JStr "ping")])) lobby
  ∧ ¬ logged_and_dropped "demo" 1 (Json (JObj [("type", JStr "update")])) lobby
  ∧ elements (session_of "demo" lobby) = JArr []
  ∧ elements (session_of "demo"
                (on_message "demo" 1 (Json (JObj [("type", JStr "update")])) lobby))
    = JUndefined.
Proof.
  split; [|split; [|split; reflexivity]].
  - intros [[e He] _]. apply (f_equal (@length log_line)) in He.
    vm_compute in He. discriminate.
  - intros [[e He] _]. apply (f_equal (@length log_line)) in He.
    vm_compute in He. discriminate.
Qed.

(** ** Camera commands and the scene *)

Lemma extract_returns_partition (v : jsval) (ex : extraction) :
  extractViewportUpdates v = Returned ex →
  ∃ items, iterate v = Returned items ∧ ex = partition_of items.
Proof.
  unfold extractViewportUpdates. unfold_monad.
  destruct (iterate v) as [items|e]; [|discriminate].
  intros H. exists items. split; [reflexivity|].
  destruct (existsb nullish items) eqn:Hn.
  - pose proof (extract_run_throws items Hn) as Ht.
    destruct (extract_run items) as [[[]|e] st]; simpl in Ht; congruence.
  - rewrite (extract_run_eq items Hn) in H. congruence.
Qed.

Lemma partition_draws_clean (items : list jsval) :
  existsb is_camera (drawElements (partition_of items)) = false.
Proof.
  unfold partition_of. cbn [drawElements].
  induction items as [|el items IH]; simpl; [reflexivity|].
  destruct (is_camera el) eqn:Hc; simpl; rewrite ?Hc; exact IH.
Qed.

Lemma clean_new_session : clean_scene new_session.
Proof. exists []. split; reflexivity. Qed.

Lemma clean_session_of (id : string) (w : world) :
  scenes_clean w → clean_scene (session_of id w).
Proof.
  intros Hok. unfold session_of.
  destruct (sessions w !! id) as [s|] eqn:Hs; simpl; [eauto | apply clean_new_session].
Qed.

Lemma clean_framed (cams : list Camera.t) (s : session) :
  clean_scene s → clean_scene (framed cams s).
Proof. unfold clean_scene. rewrite framed_elements. auto. Qed.

(** Replace-all leaves a clean scene: the draw elements of the batch, or
    the scene as it was when the handler threw before writing. *)
Lemma post_elements_clean (id : string) (body : jsval) (w : world) :
  clean_scene (session_of id w) →
  ∃ s' msgs', snd (post_elements id body w) = commit id s' msgs' w ∧ clean_scene s'.
Proof.
  intros Hclean. unfold post_elements. exec.
  destruct (member "elements" body) as [batch|e]; exec; [|eauto].
  destruct (member "appState" body) as [state|e]; exec; [|eauto].
  destruct (extractViewportUpdates (js_or batch (JArr []))) as [ex|e] eqn:Hex;
    exec; [|eauto].
  destruct (extract_returns_partition _ _ Hex) as (items & _ & ->).
  set (s1 := with_elements _ _).
  assert (Hs1 : clean_scene s1).
  { eexists. split; [reflexivity | apply partition_draws_clean]. }
  assert (Hstate : ∃ s2, (if truthy state then assign id (with_appState state) else skip)
                           (commit id s1 [] w) = (Returned tt, commit id s2 [] w)
                         ∧ clean_scene s2).
  { destruct (truthy state); exec; eauto. }
  destruct Hstate as (s2 & -> & Hs2). exec. rewrite apply_viewports_framed. exec.
  pose proof (clean_framed (viewports (partition_of items)) s2 Hs2) as Hs3.
  destruct (read_length _); exec; eauto.
Qed.

(** So does append: the old scene with the draw elements of the batch
    after it, or the scene as it was. *)
Lemma post_append_clean (id : string) (body : jsval) (w : world) :
  clean_scene (session_of id w) →
  ∃ s' msgs', snd (post_append id body w) = commit id s' msgs' w ∧ clean_scene s'.
Proof.
  intros Hclean. unfold post_append. exec.
  destruct (member "elements" body) as [batch|e]; exec; [|eauto].
  rewrite post_append_guard. exec.
  destruct (has_items batch); exec;
    [|destruct (read_length _); exec; eauto].
  destruct (extractViewportUpdates batch) as [ex|e] eqn:Hex; exec; [|eauto].
  destruct (extract_returns_partition _ _ Hex) as (items & _ & ->).
  destruct (negb (Nat.eqb (length (drawElements (partition_of items))) 0)); exec.
  - destruct Hclean as (old & Hold & Hclean). rewrite Hold. simpl iterate. exec.
    rewrite apply_viewports_framed. exec.
    assert (Hnew : clean_scene
              (framed (viewports (partition_of items))
                 (with_elements (JArr (old ++ drawElements (partition_of items)))
                    (session_of id w)))).
    { apply clean_framed. eexists. split; [reflexivity|].
      rewrite existsb_app, Hclean, partition_draws_clean. reflexivity. }
    destruct (read_length _); exec; eauto.
  - rewrite apply_viewports_framed. exec.
    pose proof (clean_framed (viewports (partition_of items)) _ Hclean) as Hnew.
    destruct (read_length _); exec; eauto.
Qed.

Lemma post_viewport_clean (id : string) (body : jsval) (w : world) :
  clean_scene (session_of id w) →
  ∃ s' msgs', snd (post_viewport id body w) = commit id s' msgs' w ∧ clean_scene s'.
Proof.
  intros Hclean. unfold post_viewport. exec.
  destruct (member "x" body); exec; [|eauto].
  destruct (member "y" body); exec; [|eauto].
  destruct (member "width" body); exec; [|eauto].
  destruct (member "height" body); exec; [|eauto].
  eexists _, _. split; [reflexivity | exact Hclean].
Qed.

Lemma commit_scenes_clean (id : string) (s' : session)
    (msgs' : list (conn * server_msg)) (w : world) :
  scenes_clean w → clean_scene s' → scenes_clean (commit id s' msgs' w).
Proof.
  intros Hok Hs' id0 s0 Hs0. unfold commit in Hs0. simpl in Hs0.
  destruct (decide (id = id0)) as [<-|Hne].
  - rewrite lookup_insert_eq in Hs0. congruence.
  - rewrite lookup_insert_ne in Hs0 by exact Hne. eauto.
Qed.

(** Every event but a WebSocket message keeps the scenes clean. *)
Lemma step_scenes_clean (e : event) (w w' : world) :
  is_message e = false → scenes_clean w → step e w = Some w' → scenes_clean w'.
Proof.
  intros Hnot Hok Hstep.
  destruct e as [id ws | id ws data | ws | id ws | id | id body
                 | id body | id body | id | dt]; simpl in Hstep; try discriminate.
  - destruct (sockets w !! ws); [discriminate|].
    destruct (on_upgrade id ws _) as [[[u|e] w1]|] eqn:Hup; try discriminate.
    injection Hstep as <-.
    destruct (on_upgrade_frame _ _ _ _ _ Hup) as (_ & _ & _ & Hss).
    intros id0 s0 Hs0. rewrite Hss in Hs0.
    destruct (decide (id = id0)) as [<-|Hne].
    + rewrite lookup_insert_eq in Hs0. injection Hs0 as <-.
      apply (clean_session_of id w Hok).
    + rewrite lookup_insert_ne in Hs0 by exact Hne. apply (Hok id0). exact Hs0.
  - destruct (sockets w !! ws) as [[]|]; try discriminate.
    injection Hstep as <-. exact Hok.
  - destruct (connected id ws w); [|discriminate]. injection Hstep as <-.
    destruct (on_close_frame id ws (set_sockets <[ws := CLOSED]> w)) as (_ & _ & Hss & _).
    intros id0 s0 Hs0. rewrite Hss in Hs0. simpl in Hs0.
    rewrite lookup_alter in Hs0. destruct (decide (id = id0)) as [<-|Hne]; [|eauto].
    destruct (sessions w !! id) as [s|] eqn:Hs; [|discriminate].
    injection Hs0 as <-. apply (Hok id s Hs).
  - injection Hstep as <-. rewrite get_session_eq. simpl snd.
    apply commit_scenes_clean; [exact Hok | apply clean_session_of; exact Hok].
  - injection Hstep as <-.
    destruct (post_elements_clean id body w (clean_session_of id w Hok))
      as (s' & msgs' & -> & Hs'). apply commit_scenes_clean; assumption.
  - injection Hstep as <-.
    destruct (post_append_clean id body w (clean_session_of id w Hok))
      as (s' & msgs' & -> & Hs'). apply commit_scenes_clean; assumption.
  - injection Hstep as <-.
    destruct (post_viewport_clean id body w (clean_session_of id w Hok))
      as (s' & msgs' & -> & Hs'). apply commit_scenes_clean; assumption.
  - injection Hstep as <-. rewrite post_clear_eq. simpl snd.
    apply commit_scenes_clean; [exact Hok|]. exists []. split; reflexivity.
  - destruct (0 <=? dt); [|discriminate]. injection Hstep as <-.
    intros id0 s0 Hs0. apply elapse_sub in Hs0. eauto.
Qed.

(** The invariant of §3 on the HTTP side: whatever requests, connections,
    disconnections and timers there are, as long as no client sends a
    message, no session's elements hold a camera pseudo-element. *)
Lemma scenes_clean_without_messages (evs : list event) :
  ∀ w w', without_messages evs = true → scenes_clean w →
          run evs w = Some w' → scenes_clean w'.
Proof.
  induction evs as [|e evs IH]; intros w w' Hnone Hok Hrun; simpl in *.
  - injection Hrun as <-. exact Hok.
  - destruct (step e w) as [w1|] eqn:Hstep; [|discriminate].
    apply andb_true_iff in Hnone as [He Hnone]. apply negb_true_iff in He.
    apply (IH w1 w' Hnone); [|exact Hrun].
    eapply step_scenes_clean; eassumption.
Qed.

(** ** Camera commands on the WebSocket path *)

(** C1, at its failing input. The scene that an [update] carries is stored
    as it is: after a client has joined [demo] and sent a scene with a
    camera command in it, the session's elements contain that command, in
    a reachable state.  The HTTP side does keep the invariant: replace-all
    with the same batch stores the rectangle alone, and in every state
    reached without a WebSocket message no session's elements hold a camera
    pseudo-element. *)
Theorem update_stores_camera_command :
  run smuggle_trace boot = Some smuggle_state
  ∧ reachable smuggle_state
  ∧ elements (session_of "demo" smuggle_state) = JArr smuggled
  ∧ existsb is_camera smuggled = true
  ∧ ¬ scenes_clean smuggle_state
  ∧ elements (session_of "demo"
                (snd (post_elements "demo" (JObj [("elements", JArr smuggled)])
                        smuggle_state)))
    = JArr [rectangle "a"]
  ∧ (∀ evs w, without_messages evs = true → run evs boot = Some w → scenes_clean w).
Proof.
  assert (Hrun : run smuggle_trace boot = Some smuggle_state)
    by (vm_compute; reflexivity).
  split; [exact Hrun|]. split; [exists smuggle_trace; exact Hrun|].
  split; [reflexivity|]. split; [reflexivity|]. split; [|split; [reflexivity|]].
  - intros Hclean.
    destruct (Hclean "demo" (session_of "demo" smuggle_state) eq_refl)
      as (items & Hitems & Hnone).
    injection Hitems as <-. discriminate.
  - intros evs w Hnone Hrun'.
    apply (scenes_clean_without_messages evs boot w Hnone); [|exact Hrun'].
    intros id s Hs. unfold boot in Hs. simpl in Hs. rewrite lookup_empty in Hs.
    discriminate.
Qed.

(** ** Idle sessions and their timers (§4.1) *)

Lemma edits_vacant (id id0 : string) (w w' : world) :
  edits id w w' → vacant id0 w → vacant id0 w'.
Proof.
  intros (_ & _ & _ & s' & Hss & Hc). unfold vacant, session_of. rewrite Hss.
  destruct (decide (id = id0)) as [<-|Hne].
  - rewrite lookup_insert_eq. simpl. intros Hv. rewrite Hc. exact Hv.
  - rewrite lookup_insert_ne by exact Hne. auto.
Qed.

Lemma edits_connected (id id0 : string) (ws : conn) (w w' : world) :
  edits id w w' → connected id0 ws w = true → connected id0 ws w' = true.
Proof.
  intros (_ & _ & _ & s' & Hss & Hc). unfold connected. rewrite Hss.
  destruct (decide (id = id0)) as [<-|Hne].
  - rewrite lookup_insert_eq, Hc. unfold session_of.
    destruct (sessions w !! id); [auto | discriminate].
  - rewrite lookup_insert_ne by exact Hne. auto.
Qed.

(** What an HTTP request or a message does, as an edit. *)
Lemma step_edits (e : event) (w w' : world) :
  step e w = Some w' →
  match e with
  | Message id _ _ | GetSession id | PostElements id _ | PostAppend id _
  | PostViewport id _ | PostClear id => edits id w w'
  | Upgrade _ _ | Closing _ | Close _ _ | Elapse _ => True
  end.
Proof.
  destruct e as [id ws | id ws data | ws | id ws | id | id body
                 | id body | id body | id | dt]; simpl; intros Hstep; try exact I.
  - destruct (connected id ws w) eqn:Hcon; [|discriminate]. injection Hstep as <-.
    destruct (connected_present _ _ _ Hcon) as (s & Hs & _).
    apply (on_message_edits id ws data s w Hs).
  - injection Hstep as <-. apply get_session_edits.
  - injection Hstep as <-. apply post_elements_edits.
  - injection Hstep as <-. apply post_append_edits.
  - injection Hstep as <-. apply post_viewport_edits.
  - injection Hstep as <-. apply post_clear_edits.
Qed.

Lemma elapse_clock (dt : Z) (w : world) : clock (elapse dt w) = clock w + dt.
Proof. reflexivity. Qed.

Lemma elapse_timers (dt : Z) (w : world) :
  timers (elapse dt w) = List.filter (fun '(d, _) => negb (d <=? clock w + dt)) (timers w).
Proof.
  unfold elapse. simpl.
  destruct (cleanups_frame
              (List.filter (fun '(d, _) => d <=? clock w + dt) (timers w))
              (set_timers (List.filter (fun '(d, _) => negb (d <=? clock w + dt)) (timers w)) w))
    as (_ & _ & Ht & _).
  exact Ht.
Qed.

Lemma step_clock (e : event) (w w' : world) : step e w = Some w' → clock w ≤ clock w'.
Proof.
  intros Hstep. pose proof (step_edits e w w' Hstep) as Hed.
  destruct e as [id ws | id ws data | ws | id ws | id | id body
                 | id body | id body | id | dt];
    try (destruct Hed as (_ & -> & _); lia); simpl in Hstep.
  - destruct (sockets w !! ws); [discriminate|].
    destruct (on_upgrade id ws _) as [[[u|e] w1]|] eqn:Hup; try discriminate.
    injection Hstep as <-.
    destruct (on_upgrade_frame _ _ _ _ _ Hup) as (_ & -> & _). simpl. lia.
  - destruct (sockets w !! ws) as [[]|]; try discriminate.
    injection Hstep as <-. simpl. lia.
  - destruct (connected id ws w); [|discriminate]. injection Hstep as <-.
    destruct (on_close_frame id ws (set_sockets <[ws := CLOSED]> w)) as (_ & -> & _).
    simpl. lia.
  - destruct (0 <=? dt) eqn:Hdt; [|discriminate]. injection Hstep as <-.
    rewrite elapse_clock. lia.
Qed.

Lemma run_clock (evs : list event) :
  ∀ w w', run evs w = Some w' → clock w ≤ clock w'.
Proof.
  induction evs as [|e evs IH]; intros w w' Hrun; simpl in Hrun.
  - injection Hrun as <-. lia.
  - destruct (step e w) as [w1|] eqn:Hstep; [|discriminate].
    pose proof (step_clock _ _ _ Hstep). pose proof (IH _ _ Hrun). lia.
Qed.

(** A timer stays in the queue until the clock reaches its due time. *)
Lemma step_keeps_timer (e : event) (t : Z * string) (w w' : world) :
  step e w = Some w' → In t (timers w) → clock w' < fst t → In t (timers w').
Proof.
  intros Hstep Hin Hlt. pose proof (step_edits e w w' Hstep) as Hed.
  destruct e as [id ws | id ws data | ws | id ws | id | id body
                 | id body | id body | id | dt];
    try (destruct Hed as (_ & _ & -> & _); exact Hin); simpl in Hstep.
  - destruct (sockets w !! ws); [discriminate|].
    destruct (on_upgrade id ws _) as [[[u|e] w1]|] eqn:Hup; try discriminate.
    injection Hstep as <-.
    destruct (on_upgrade_frame _ _ _ _ _ Hup) as (_ & _ & -> & _). exact Hin.
  - destruct (sockets w !! ws) as [[]|]; try discriminate.
    injection Hstep as <-. exact Hin.
  - destruct (connected id ws w); [|discriminate]. injection Hstep as <-.
    destruct (on_close_frame id ws (set_sockets <[ws := CLOSED]> w)) as (_ & _ & _ & Hq).
    apply Hq. exact Hin.
  - destruct (0 <=? dt); [|discriminate]. injection Hstep as <-.
    rewrite elapse_timers. apply List.filter_In. split; [exact Hin|].
    rewrite elapse_clock in Hlt. destruct t as [d i]. simpl in *.
    apply negb_true_iff. apply Z.leb_gt. exact Hlt.
Qed.

(** A session without clients stays so unless a client joins it. *)
Lemma step_keeps_vacant (e : event) (id : string) (w w' : world) :
  step e w = Some w' → is_upgrade_of id e = false → vacant id w → vacant id w'.
Proof.
  intros Hstep Hquiet Hvac. pose proof (step_edits e w w' Hstep) as Hed.
  destruct e as [id0 ws | id0 ws data | ws | id0 ws | id0 | id0 body
                 | id0 body | id0 body | id0 | dt];
    try (apply (edits_vacant id0 id w w' Hed Hvac)); simpl in Hstep.
  - simpl in Hquiet. apply String.eqb_neq in Hquiet.
    destruct (sockets w !! ws); [discriminate|].
    destruct (on_upgrade id0 ws _) as [[[u|e] w1]|] eqn:Hup; try discriminate.
    injection Hstep as <-.
    destruct (on_upgrade_frame _ _ _ _ _ Hup) as (_ & _ & _ & Hss).
    unfold vacant, session_of in *. rewrite Hss.
    rewrite lookup_insert_ne by congruence. exact Hvac.
  - destruct (sockets w !! ws) as [[]|]; try discriminate.
    injection Hstep as <-. exact Hvac.
  - destruct (connected id0 ws w); [|discriminate]. injection Hstep as <-.
    destruct (on_close_frame id0 ws (set_sockets <[ws := CLOSED]> w)) as (_ & _ & Hss & _).
    unfold vacant, session_of in *. rewrite Hss. simpl.
    rewrite lookup_alter. destruct (decide (id0 = id)) as [->|Hne]; [|exact Hvac].
    destruct (sessions w !! id) as [s|]; simpl in *; [|reflexivity].
    rewrite Hvac. reflexivity.
  - destruct (0 <=? dt); [|discriminate]. injection Hstep as <-.
    unfold vacant, session_of in *.
    destruct (sessions (elapse dt w) !! id) as [s|] eqn:Hs; [|reflexivity].
    apply elapse_sub in Hs. rewrite Hs in Hvac. exact Hvac.
Qed.

Lemma run_keeps_pending (evs : list event) (id : string) (t : Z * string) :
  ∀ w w', run evs w = Some w' →
          quiet id evs = true → vacant id w → In t (timers w) → clock w' < fst t →
          vacant id w' ∧ In t (timers w').
Proof.
  induction evs as [|e evs IH]; intros w w' Hrun Hquiet Hvac Hin Hlt; simpl in *.
  - injection Hrun as <-. split; assumption.
  - destruct (step e w) as [w1|] eqn:Hstep; [|discriminate].
    apply andb_true_iff in Hquiet as [He Hquiet]. apply negb_true_iff in He.
    pose proof (run_clock _ _ _ Hrun) as Hmono.
    apply (IH w1 w' Hrun Hquiet).
    + eapply step_keeps_vacant; eassumption.
    + eapply step_keeps_timer; [eassumption | exact Hin | lia].
    + exact Hlt.
Qed.

(** When the clock passes the due time of a timer of a session without
    clients, the session leaves the map. *)
Lemma elapse_removes (dt d : Z) (id : string) (w : world) :
  vacant id w → In (d, id) (timers w) → d ≤ clock w + dt →
  sessions (elapse dt w) !! id = None.
Proof.
  intros Hvac Hin Hdue. unfold elapse. simpl.
  apply cleanups_remove; [exact Hvac|].
  exists d. apply List.filter_In. split; [exact Hin|]. apply Z.leb_le. exact Hdue.
Qed.

(** A session with a client is not removed, whatever timers fire. *)
Lemma elapse_keeps (dt : Z) (id : string) (s : session) (w : world) :
  sessions w !! id = Some s → clients s ≠ [] →
  sessions (elapse dt w) !! id = Some s.
Proof.
  intros Hs Hne. unfold elapse. simpl. apply cleanups_keep; assumption.
Qed.

Lemma existsb_set_add (c c0 : conn) (l : list conn) :
  existsb (Nat.eqb c) l = true → existsb (Nat.eqb c) (set_add c0 l) = true.
Proof.
  intros H. unfold set_add. destruct (existsb (Nat.eqb c0) l); [exact H|].
  rewrite existsb_app, H. reflexivity.
Qed.

Lemma existsb_set_delete (c c0 : conn) (l : list conn) :
  c ≠ c0 → existsb (Nat.eqb c) l = true → existsb (Nat.eqb c) (set_delete c0 l) = true.
Proof.
  intros Hne H. apply existsb_exists in H as (x & Hin & Hx).
  apply Nat.eqb_eq in Hx as <-. apply existsb_exists. exists c.
  split; [|apply Nat.eqb_refl]. unfold set_delete. apply List.filter_In.
  split; [exact Hin|]. apply negb_true_iff. apply Nat.eqb_neq. congruence.
Qed.

(** A connection stays in its session's client set until its own close. *)
Lemma step_keeps_connected (e : event) (id : string) (ws : conn) (w w' : world) :
  step e w = Some w' → is_close_of id ws e = false →
  connected id ws w = true → connected id ws w' = true.
Proof.
  intros Hstep Hstay Hcon. pose proof (step_edits e w w' Hstep) as Hed.
  destruct e as [id0 ws0 | id0 ws0 data | ws0 | id0 ws0 | id0 | id0 body
                 | id0 body | id0 body | id0 | dt];
    try (apply (edits_connected id0 id ws w w' Hed Hcon)); simpl in Hstep.
  - destruct (sockets w !! ws0); [discriminate|].
    destruct (on_upgrade id0 ws0 _) as [[[u|e] w1]|] eqn:Hup; try discriminate.
    injection Hstep as <-.
    destruct (on_upgrade_frame _ _ _ _ _ Hup) as (_ & _ & _ & Hss).
    destruct (connected_present _ _ _ Hcon) as (s & Hs & Hin).
    unfold connected. rewrite Hss. destruct (decide (id0 = id)) as [->|Hne].
    + rewrite lookup_insert_eq. simpl. apply existsb_set_add.
      unfold session_of. simpl. rewrite Hs. exact Hin.
    + rewrite lookup_insert_ne by exact Hne. simpl. rewrite Hs. exact Hin.
  - destruct (sockets w !! ws0) as [[]|]; try discriminate.
    injection Hstep as <-. exact Hcon.
  - destruct (connected id0 ws0 w); [|discriminate]. injection Hstep as <-.
    destruct (on_close_frame id0 ws0 (set_sockets <[ws0 := CLOSED]> w)) as (_ & _ & Hss & _).
    destruct (connected_present _ _ _ Hcon) as (s & Hs & Hin).
    unfold connected. rewrite Hss. simpl. rewrite lookup_alter.
    destruct (decide (id0 = id)) as [->|Hne]; [|rewrite Hs; exact Hin].
    rewrite Hs. simpl. apply existsb_set_delete; [|exact Hin].
    intros ->. simpl in Hstay. rewrite String.eqb_refl, Nat.eqb_refl in Hstay.
    discriminate.
  - destruct (0 <=? dt); [|discriminate]. injection Hstep as <-.
    destruct (connected_present _ _ _ Hcon) as (s & Hs & Hin).
    unfold connected. rewrite (elapse_keeps dt id s w Hs); [exact Hin|].
    destruct (clients s); [discriminate | congruence].
Qed.

Lemma run_keeps_connected (evs : list event) (id : string) (ws : conn) :
  ∀ w w', run evs w = Some w' → stays id ws evs = true →
          connected id ws w = true → connected id ws w' = true.
Proof.
  induction evs as [|e evs IH]; intros w w' Hrun Hstay Hcon; simpl in *.
  - injection Hrun as <-. exact Hcon.
  - destruct (step e w) as [w1|] eqn:Hstep; [|discriminate].
    apply andb_true_iff in Hstay as [He Hstay]. apply negb_true_iff in He.
    apply (IH w1 w' Hrun Hstay). eapply step_keeps_connected; eassumption.
Qed.

(** C4, as amended. When the last client of a session disconnects a check
    is scheduled 300 s later, and when it fires the session is removed if
    its client set is empty then.  So: if no client joins the session in
    the 300 s that follow the disconnect, the session is out of the
    registry once those 300 s have passed.  A session that has a client
    when timers fire is not removed by them, and a client that has joined
    stays in the client set, and the session in the registry, until that
    client's own close: so a client that joins and is still connected when
    the check fires prevents the removal. *)
Theorem idle_session_is_collected (id : string) (ws : conn) (evs : list event)
    (dt : Z) (w w1 w2 : world) :
  step (Close id ws) w = Some w1 →
  vacant id w1 →
  quiet id evs = true →
  run evs w1 = Some w2 →
  clock w2 < clock w + idle_window →
  clock w + idle_window ≤ clock w2 + dt →
  In (clock w + idle_window, id) (timers w1)
  ∧ sessions (elapse dt w2) !! id = None
  ∧ (∀ (w3 : world) (s : session) (dt' : Z),
       sessions w3 !! id = Some s → clients s ≠ [] →
       sessions (elapse dt' w3) !! id = Some s)
  ∧ (∀ (w3 w4 : world) (ws' : conn) (evs' : list event),
       connected id ws' w3 = true → stays id ws' evs' = true →
       run evs' w3 = Some w4 →
       connected id ws' w4 = true ∧ is_Some (sessions w4 !! id)).
Proof.
  intros Hclose Hvac Hquiet Hrun Hbefore Hafter.
  assert (Hin : In (clock w + idle_window, id) (timers w1)).
  { simpl in Hclose. destruct (connected id ws w) eqn:Hcon; [|discriminate].
    injection Hclose as <-.
    destruct (connected_present _ _ _ Hcon) as (s & Hs & _).
    apply (on_close_last id ws s (set_sockets <[ws := CLOSED]> w) Hs).
    unfold vacant, session_of, on_close in Hvac.
    destruct (Nat.eqb _ 0) in Hvac; simpl in Hvac;
      rewrite lookup_alter_eq in Hvac; simpl in Hvac; rewrite Hs in Hvac; exact Hvac. }
  split; [exact Hin|]. split; [|split].
  - destruct (run_keeps_pending evs id (clock w + idle_window, id) w1 w2
                Hrun Hquiet Hvac Hin Hbefore) as [Hvac2 Hin2].
    apply (elapse_removes dt (clock w + idle_window) id w2 Hvac2 Hin2 Hafter).
  - intros w3 s dt' Hs Hne. apply elapse_keeps; assumption.
  - intros w3 w4 ws' evs' Hcon Hstay Hrun'.
    pose proof (run_keeps_connected evs' id ws' w3 w4 Hrun' Hstay Hcon) as Hcon'.
    split; [exact Hcon'|].
    destruct (connected_present _ _ _ Hcon') as (s & Hs & _). eauto.
Qed.

Lemma idle_session_is_collected_witness :
  observe "demo" (default boot (run idle_trace solo_closed)) = (304999, Some [])
  ∧ sessions (elapse 1 (default boot (run idle_trace solo_closed))) !! "demo" = None.
Proof.
  split; [vm_compute; reflexivity|].
  refine (proj1 (proj2 (idle_session_is_collected "demo" 1 idle_trace 1
                          solo solo_closed (default boot (run idle_trace solo_closed))
                          _ _ _ _ _ _))).
  - vm_compute. reflexivity.
  - vm_compute. reflexivity.
  - reflexivity.
  - vm_compute. reflexivity.
  - vm_compute. reflexivity.
  - vm_compute. discriminate.
Defined.

(** Against C4 as the specification words it.  A session that the HTTP API
    created and no client ever joined has an empty client set for 300 s,
    and for a day, and is still in the registry: no timer was ever set for
    it.  And a session whose client left at time 0 is removed at 300 s
    although a client joined it at 100 s, before 300 s of emptiness had
    passed: that client left again at 250 s, and the timer of the first
    disconnect finds the session empty. *)
Lemma idle_sessions_counterexample :
  observe "orphan" <$> run orphan_trace boot = Some (86700000, Some [])
  ∧ observe "demo" <$> run rejoin_trace boot = Some (250000, Some [])
  ∧ observe "demo" <$> run (rejoin_trace ++ [Elapse 50000]) boot = Some (300000, None).
Proof. repeat split; vm_compute; reflexivity. Qed.

(** ** The asset upload (§4.5) *)

Lemma writes_app (l1 l2 : list (Spaces.command * completion unit)) :
  Spaces.writes (l1 ++ l2) = (Spaces.writes l1 + Spaces.writes l2)%nat.
Proof. unfold Spaces.writes. rewrite List.filter_app, length_app. reflexivity. Qed.

Lemma stored_app (l1 l2 : list (Spaces.command * completion unit)) :
  Spaces.stored (l1 ++ l2) = (Spaces.stored l1 + Spaces.stored l2)%nat.
Proof. unfold Spaces.stored. rewrite List.filter_app, length_app. reflexivity. Qed.

Lemma stored_le_writes (l : list (Spaces.command * completion unit)) :
  (Spaces.stored l ≤ Spaces.writes l)%nat.
Proof.
  unfold Spaces.stored, Spaces.writes.
  induction l as [|x l IH]; simpl; [lia|].
  destruct (Spaces.is_put x), (Spaces.resolved x); simpl; lia.
Qed.

(** One call, case by case on what the backend answers: the commands it
    sends, in order, and its result. *)
Lemma uploadFile_cases {B : Type} `{Spaces.S3 B} (m : Spaces.module_state)
    (cl : Spaces.client) (cfg : Spaces.config)
    (sessionId fileId dataURL mimeType payload : string) (st : Spaces.io B) :
  Spaces.s3Client m = Some cl →
  Spaces.spacesConfig m = Some cfg →
  Spaces.match_dataURL dataURL = Some payload →
  let key := Spaces.object_key sessionId fileId mimeType in
  let url := Spaces.object_url cfg key in
  let head := Spaces.HeadObjectCommand (Spaces.bucket cfg) key in
  let put := Spaces.PutObjectCommand (Spaces.bucket cfg) key (Spaces.FromBase64 payload)
               mimeType "public-read" "public, max-age=31536000, immutable" in
  let '(h, b1) := Spaces.s3_send head (Spaces.backend st) in
  Spaces.uploadFile m sessionId fileId dataURL mimeType st =
    match h with
    | Returned _ =>
        (Returned url,
         {| Spaces.backend := b1; Spaces.sent := Spaces.sent st ++ [(head, h)] |})
    | Thrown e =>
        if Spaces.not_found e then
          let '(p, b2) := Spaces.s3_send put b1 in
          (match p with Returned _ => Returned url | Thrown e' => Thrown e' end,
           {| Spaces.backend := b2;
              Spaces.sent := (Spaces.sent st ++ [(head, h)]) ++ [(put, p)] |})
        else
          (Thrown e,
           {| Spaces.backend := b1; Spaces.sent := Spaces.sent st ++ [(head, h)] |})
    end.
Proof.
  intros Hcl Hcfg Hurl key url head put.
  unfold Spaces.uploadFile. rewrite Hcl, Hcfg, Hurl. fold key. fold head. fold put.
  unfold Spaces.send at 1.
  destruct (Spaces.s3_send head (Spaces.backend st)) as [[[]|e] b1]; [reflexivity|].
  destruct (Spaces.not_found e); simpl negb; cbv iota; [|reflexivity].
  unfold Spaces.send. simpl Spaces.backend. simpl Spaces.sent.
  destruct (Spaces.s3_send put b1) as [[[]|e'] b2]; reflexivity.
Qed.

(** C2. With the client initialised and a [dataURL] that matches, on a
    backend that finds on the next existence check what was written to it,
    two calls of [uploadFile] with the same arguments, one after the
    other: each sends [HeadObject] for the key first; when the object
    exists the call returns the canonical URL and sends nothing else; an
    error of the existence check that is not [NotFound] (by name or by
    status 404) is thrown on, with nothing written; when both calls return,
    they return the same URL, the canonical one; at most one [PutObject]
    succeeds over the two calls, and when the first call returned, at most
    one is sent at all. *)
Theorem upload_is_idempotent {B : Type} `{Spaces.S3 B} (m : Spaces.module_state)
    (cl : Spaces.client) (cfg : Spaces.config)
    (sessionId fileId dataURL mimeType payload : string) (st : Spaces.io B) :
  Spaces.s3Client m = Some cl →
  Spaces.spacesConfig m = Some cfg →
  Spaces.match_dataURL dataURL = Some payload →
  Spaces.read_your_writes B →
  let key := Spaces.object_key sessionId fileId mimeType in
  let url := Spaces.object_url cfg key in
  let head := Spaces.HeadObjectCommand (Spaces.bucket cfg) key in
  let first := Spaces.uploadFile m sessionId fileId dataURL mimeType st in
  let second := Spaces.uploadFile m sessionId fileId dataURL mimeType (snd first) in
  ∃ log1 log2,
    Spaces.sent (snd first) = (Spaces.sent st ++ log1)%list
    ∧ Spaces.sent (snd second) = (Spaces.sent (snd first) ++ log2)%list
    ∧ (∃ rest, log1 = (head, fst (Spaces.s3_send head (Spaces.backend st))) :: rest)
    ∧ (∃ rest,
         log2 = (head, fst (Spaces.s3_send head (Spaces.backend (snd first)))) :: rest)
    ∧ (fst (Spaces.s3_send head (Spaces.backend st)) = Returned tt →
       fst first = Returned url ∧ log1 = [(head, Returned tt)])
    ∧ (∀ e, fst (Spaces.s3_send head (Spaces.backend st)) = Thrown e →
            Spaces.not_found e = false →
            fst first = Thrown e ∧ log1 = [(head, Thrown e)])
    ∧ (∀ u1 u2, fst first = Returned u1 → fst second = Returned u2 →
                u1 = url ∧ u2 = url)
    ∧ (Spaces.stored (log1 ++ log2) ≤ 1)%nat
    ∧ (∀ u1, fst first = Returned u1 → (Spaces.writes (log1 ++ log2) ≤ 1)%nat).
Proof.
  intros Hcl Hcfg Hurl Hraw key url head first second.
  pose proof (uploadFile_cases m cl cfg sessionId fileId dataURL mimeType payload st
                Hcl Hcfg Hurl) as H1.
  pose proof (uploadFile_cases m cl cfg sessionId fileId dataURL mimeType payload
                (snd first) Hcl Hcfg Hurl) as H2.
  cbv zeta in H1, H2. fold key url head in H1, H2. fold first in H1. fold second in H2.
  set (put := Spaces.PutObjectCommand (Spaces.bucket cfg) key (Spaces.FromBase64 payload)
                mimeType "public-read" "public, max-age=31536000, immutable") in *.
  destruct (Spaces.s3_send head (Spaces.backend st)) as [h1 b1] eqn:Hh1.
  assert (Hsecond : ∀ (log1 : list (Spaces.command * completion unit)),
            Spaces.sent (snd first) = (Spaces.sent st ++ log1)%list →
            (Spaces.stored log1 = 1%nat →
             fst (Spaces.s3_send head (Spaces.backend (snd first))) = Returned tt) →
            ∃ log2,
              Spaces.sent (snd second) = (Spaces.sent (snd first) ++ log2)%list
              ∧ (∃ rest,
                   log2 = (head, fst (Spaces.s3_send head (Spaces.backend (snd first))))
                          :: rest)
              ∧ (∀ u2, fst second = Returned u2 → u2 = url)
              ∧ (Spaces.stored log2 ≤ 1)%nat ∧ (Spaces.writes log2 ≤ 1)%nat
              ∧ (Spaces.stored log1 = 1%nat → Spaces.writes log2 = 0%nat)).
  { intros log1 Hlog1 Hfound.
    destruct (Spaces.s3_send head (Spaces.backend (snd first))) as [h2 b3] eqn:Hh2.
    simpl fst in *. destruct h2 as [[]|e2].
    - rewrite H2. eexists. split; [reflexivity|]. split; [eauto|].
      split; [intros u2 Hu; simpl in Hu; congruence|].
      repeat split; simpl; auto.
    - destruct (Spaces.not_found e2).
      + destruct (Spaces.s3_send put b3) as [p2 b4]. rewrite H2. simpl snd. simpl fst.
        eexists. split; [rewrite <- app_assoc; reflexivity|]. split; [simpl; eauto|].
        split; [intros u2 Hu; destruct p2; simpl in Hu; congruence|].
        repeat split.
        * destruct p2; simpl; auto.
        * simpl. auto.
        * intros Hone. apply Hfound in Hone. discriminate.
      + rewrite H2. eexists. split; [reflexivity|]. split; [eauto|].
        split; [intros u2 Hu; simpl in Hu; congruence|].
        repeat split; simpl; auto. }
  simpl fst in *. destruct h1 as [[]|e1].
  - destruct (Hsecond [(head, Returned tt)])
      as (log2 & Hl2 & Hhead2 & Hu2 & Hs2 & Hw2 & _).
    + rewrite H1. reflexivity.
    + intros Hone. discriminate.
    + exists [(head, Returned tt)], log2.
      split; [rewrite H1; reflexivity|]. split; [exact Hl2|].
      split; [eauto|]. split; [exact Hhead2|].
      split; [intros _; rewrite H1; split; reflexivity|].
      split; [intros e He; discriminate|].
      split; [intros u1 u2 Hu1 Hu2'; split;
              [rewrite H1 in Hu1; simpl in Hu1; congruence | apply Hu2; exact Hu2']|].
      split; [rewrite stored_app; simpl; lia|].
      intros u1 _. rewrite writes_app. simpl. lia.
  - destruct (Spaces.not_found e1) eqn:Hnf.
    + destruct (Spaces.s3_send put b1) as [p1 b2] eqn:Hp1.
      destruct (Hsecond [(head, Thrown e1); (put, p1)])
        as (log2 & Hl2 & Hhead2 & Hu2 & Hs2 & Hw2 & Hzero).
      * rewrite H1. simpl. rewrite <- app_assoc. reflexivity.
      * intros Hone. rewrite H1. simpl Spaces.backend.
        destruct p1 as [[]|e']; [|discriminate].
        apply (Hraw _ _ _ _ _ _ _ _ Hp1).
      * exists [(head, Thrown e1); (put, p1)], log2.
        split; [rewrite H1; simpl; rewrite <- app_assoc; reflexivity|].
        split; [exact Hl2|]. split; [eauto|]. split; [exact Hhead2|].
        split; [intros He; discriminate|].
        split; [intros e He Hnf'; congruence|].
        split; [intros u1 u2 Hu1 Hu2'; split;
                [rewrite H1 in Hu1; destruct p1; simpl in Hu1; congruence
                | apply Hu2; exact Hu2']|].
        split.
        -- rewrite stored_app. destruct p1 as [[]|e'].
           ++ pose proof (stored_le_writes log2) as Hle.
              rewrite (Hzero eq_refl) in Hle. simpl. lia.
           ++ simpl. lia.
        -- intros u1 Hu1. rewrite H1 in Hu1. destruct p1 as [[]|e']; [|discriminate].
           rewrite writes_app, (Hzero eq_refl). reflexivity.
    + destruct (Hsecond [(head, Thrown e1)])
        as (log2 & Hl2 & Hhead2 & Hu2 & Hs2 & Hw2 & _).
      * rewrite H1. reflexivity.
      * intros Hone. discriminate.
      * exists [(head, Thrown e1)], log2.
        split; [rewrite H1; reflexivity|]. split; [exact Hl2|].
        split; [eauto|]. split; [exact Hhead2|].
        split; [intros He; discriminate|].
        split; [intros e He _; injection He as <-; rewrite H1; split; reflexivity|].
        split; [intros u1 u2 Hu1; rewrite H1 in Hu1; discriminate|].
        split; [rewrite stored_app; simpl; lia|].
        intros u1 Hu1. rewrite H1 in Hu1. discriminate.
Qed.

Lemma memory_read_your_writes : Spaces.read_your_writes Spaces.memory.
Proof.
  intros Bucket Key Body ContentType ACL CacheControl b b' Hput.
  unfold Spaces.s3_send, Spaces.memory_s3 in *. injection Hput as <-.
  rewrite lookup_insert_eq. reflexivity.
Qed.

Lemma upload_is_idempotent_witness :
  let url := "https://drawbridge.nyc3.digitaloceanspaces.com/files/demo/file-1.png" in
  let first := Spaces.uploadFile Spaces.ready "demo" "file-1" Spaces.sample_dataURL
                 "image/png" Spaces.empty_bucket in
  let second := Spaces.uploadFile Spaces.ready "demo" "file-1" Spaces.sample_dataURL
                  "image/png" (snd first) in
  fst first = Returned url ∧ fst second = Returned url
  ∧ Spaces.writes (Spaces.sent (snd second)) = 1%nat
  ∧ length (Spaces.sent (snd second)) = 3%nat.
Proof.
  epose proof (upload_is_idempotent Spaces.ready _ _ "demo" "file-1"
                 Spaces.sample_dataURL "image/png" _ Spaces.empty_bucket
                 eq_refl eq_refl eq_refl memory_read_your_writes) as H.
  cbv zeta in H. destruct H as (log1 & log2 & _ & _ & _ & _ & _ & _ & Hsame & _ & _).
  cbv zeta.
  destruct (Hsame _ _ eq_refl eq_refl) as [_ _].
  repeat split; vm_compute; reflexivity.
Defined.

(** * Further properties of the server *)

(** ** Broadcasts, clear and read *)

Lemma existsb_filter_open (c : conn) (open : conn → bool) (l : list conn) :
  existsb (Nat.eqb c) (List.filter open l) = existsb (Nat.eqb c) l && open c.
Proof.
  induction l as [|c' l IH]; [reflexivity|]. simpl.
  destruct (Nat.eqb c c') eqn:Hc.
  - apply Nat.eqb_eq in Hc as <-. destruct (open c) eqn:Ho; simpl.
    + rewrite Nat.eqb_refl. reflexivity.
    + rewrite IH, ?Ho, andb_false_r. reflexivity.
  - simpl. destruct (open c'); simpl; rewrite ?Hc; exact IH.
Qed.

(** What [c] gets of a message sent to the open clients of [s]. *)
Lemma received_to_open (w : world) (s : session) (msg : server_msg) (c : conn) :
  NoDup (clients s) →
  received c (to_open w s msg) =
    if existsb (Nat.eqb c) (clients s) && is_open w c then [msg] else [].
Proof.
  intros Hnodup. unfold to_open. rewrite received_once.
  - rewrite existsb_filter_open. reflexivity.
  - apply NoDup_filter_bool. exact Hnodup.
Qed.


Lemma connected_session_of (id : string) (c : conn) (w : world) :
  connected id c w = existsb (Nat.eqb c) (clients (session_of id w)).
Proof.
  unfold connected, session_of. destruct (sessions w !! id); reflexivity.
Qed.



(** X2. [POST /api/session/:id/clear] answers with success and leaves the
    session with no element, a null appState and a null viewport, which is
    what a read then returns; the client set, the other sessions, the
    sockets and the timers stay.  In a reachable state every open client
    of the session receives the [clear] message once, and nobody else
    receives anything. *)
Theorem clear_resets_the_session (id : string) (w : world) :
  reachable w →
  let w' := snd (post_clear id w) in
  fst (post_clear id w) = Returned ResClear
  ∧ fst (get_session id w') = Returned (ResSession id (JArr []) JNull None)
  ∧ clients (session_of id w') = clients (session_of id w)
  ∧ (∀ id', id' ≠ id → sessions w' !! id' = sessions w !! id')
  ∧ (∃ sent, outbox w' = (outbox w ++ sent)%list
             ∧ ∀ c, received c sent =
                      if connected id c w && is_open w c then [MsgClear] else [])
  ∧ sockets w' = sockets w ∧ timers w' = timers w ∧ clock w' = clock w.
Proof.
  intros Hreach w'. subst w'. rewrite post_clear_eq. simpl fst. simpl snd.
  rewrite get_session_eq, session_of_commit. simpl.
  split; [reflexivity|]. split; [reflexivity|]. split; [reflexivity|].
  split; [intros id' Hne; apply lookup_insert_ne; congruence|].
  split; [|repeat split].
  eexists. split; [reflexivity|]. intros c.
  rewrite connected_session_of. apply received_to_open.
  apply NoDup_session_of. apply reachable_sets_ok. exact Hreach.
Qed.

Lemma clear_resets_the_session_witness :
  let w1 := snd (post_elements "demo"
                   (JObj [("elements", JArr [rectangle "a"; cameraUpdate 1 2 3 4]);
                          ("appState", JObj [("theme", JStr "dark")])]) lobby) in
  viewport (session_of "demo" w1)
    = Some (Camera.make (JNum 1) (JNum 2) (JNum 3) (JNum 4))
  ∧ fst (get_session "demo" (snd (post_clear "demo" lobby)))
    = Returned (ResSession "demo" (JArr []) JNull None).
Proof.
  split; [vm_compute; reflexivity|].
  exact (proj1 (proj2 (clear_resets_the_session "demo" lobby lobby_reachable))).
Defined.

(** X3. [GET /api/session/:id] never fails and never sends anything.  On
    an id the map does not hold it answers with the empty scene (no
    element, null appState, null viewport) and leaves a new session under
    that id; on an id the map holds it answers with that session's fields
    and changes nothing.  A second read gives the same answer and changes
    nothing. *)
Theorem read_creates_then_repeats (id : string) (w : world) :
  let r := get_session id w in
  match sessions w !! id with
  | None =>
      fst r = Returned (ResSession id (JArr []) JNull None)
      ∧ sessions (snd r) = <[id := new_session]> (sessions w)
  | Some s =>
      fst r = Returned (ResSession id (elements s) (appState s) (viewport s))
      ∧ snd r = w
  end
  ∧ get_session id (snd r) = r
  ∧ outbox (snd r) = outbox w ∧ console (snd r) = console w
  ∧ sockets (snd r) = sockets w ∧ timers (snd r) = timers w
  ∧ clock (snd r) = clock w.
Proof.
  intros r. subst r. rewrite !get_session_eq. simpl fst. simpl snd.
  rewrite session_of_commit.
  split; [|split; [|unfold commit; simpl; rewrite app_nil_r; repeat split]].
  - unfold session_of.
    destruct (sessions w !! id) as [s|] eqn:Hs; simpl.
    + split; [reflexivity|]. apply commit_present. exact Hs.
    + split; reflexivity.
  - rewrite commit_commit. reflexivity.
Qed.

(** ** Joining a session *)

Lemma on_upgrade_array (id : string) (ws : conn) (items : list jsval) (w : world) :
  elements (session_of id w) = JArr items →
  let s0 := session_of id w in
  let s1 := with_clients (set_add ws (clients s0)) s0 in
  on_upgrade id ws w =
    Some (Returned tt,
          {| sessions := <[id := s1]> (sessions w); sockets := sockets w;
             outbox := outbox w ++ greeting ws s0;
             console := console w ++ [LogConnected id (length (clients s1))];
             clock := clock w; timers := timers w |}).
Proof.
  intros Hitems s0 s1. change (elements s0 = JArr items) in Hitems.
  unfold on_upgrade.
  rewrite getSession_commit. cbv beta iota. rewrite assign_commit. cbv beta iota.
  fold s0. fold s1.
  assert (Hs : ∀ msgs, session_of id (log (LogConnected id (length (clients s1)))
                                         (commit id s1 msgs w)) = s1).
  { intros msgs. unfold session_of, log, commit. simpl.
    rewrite lookup_insert_eq. reflexivity. }
  rewrite session_of_commit, Hs.
  assert (He : elements s1 = JArr items) by exact Hitems.
  rewrite He. simpl read_length. cbv beta iota. simpl length_gt0. cbv beta iota.
  unfold greeting. fold s0. rewrite Hitems.
  assert (Hv : viewport s1 = viewport s0) by reflexivity.
  assert (Ha : appState s1 = appState s0) by reflexivity.
  destruct items as [|el items]; simpl negb; cbv beta iota.
  - rewrite Hs. rewrite Hv. destruct (viewport s0); simpl;
      unfold commit, log, send; simpl; rewrite ?app_nil_r; reflexivity.
  - assert (Hs' : ∀ c m, session_of id
                    (send c m (log (LogConnected id (length (clients s1)))
                                 (commit id s1 [] w))) = s1).
    { intros c m. unfold session_of, send, log, commit. simpl.
      rewrite lookup_insert_eq. reflexivity. }
    rewrite Hs', Hv, Ha.
    destruct (viewport s0); simpl;
      unfold commit, log, send; simpl; rewrite ?app_nil_r, <- ?app_assoc; reflexivity.
Qed.

(** X4. When a new socket [ws] is upgraded on [/ws/id] and the session's
    scene is an array, the connection joins the client set and is greeted,
    alone: it is sent the scene (with the appState) when the scene is not
    empty, and then the viewport when one is set, in that order; no other
    connection is sent anything, and the session's scene, appState and
    viewport, the other sessions and the timers stay as they were. *)
Theorem upgrade_greets_the_newcomer (id : string) (ws : conn) (items : list jsval)
    (w : world) :
  sockets w !! ws = None →
  elements (session_of id w) = JArr items →
  let s0 := session_of id w in
  ∃ w', step (Upgrade id ws) w = Some w'
        ∧ outbox w' =
            (outbox w
             ++ (if Nat.eqb (length items) 0 then []
                 else [(ws, MsgElements (JArr items) (Some (appState s0)))])
             ++ match viewport s0 with
                | Some camera => [(ws, MsgViewport camera)]
                | None => []
                end)%list
        ∧ clients (session_of id w') = set_add ws (clients s0)
        ∧ connected id ws w' = true
        ∧ is_open w' ws = true
        ∧ elements (session_of id w') = JArr items
        ∧ appState (session_of id w') = appState s0
        ∧ viewport (session_of id w') = viewport s0
        ∧ (∀ id', id' ≠ id → sessions w' !! id' = sessions w !! id')
        ∧ timers w' = timers w.
Proof.
  intros Hfresh Hitems s0. simpl. rewrite Hfresh.
  pose proof (on_upgrade_array id ws items (set_sockets <[ws := OPEN]> w) Hitems) as Hup.
  cbv zeta in Hup. rewrite Hup. eexists. split; [reflexivity|].
  change (session_of id (set_sockets <[ws := OPEN]> w)) with s0.
  unfold session_of at 1 2 3 4. unfold connected, is_open. simpl.
  rewrite !lookup_insert_eq. simpl.
  change (elements s0 = JArr items) in Hitems.
  split.
  { unfold greeting. rewrite Hitems. destruct items; reflexivity. }
  split; [reflexivity|]. split.
  { unfold set_add. destruct (existsb (Nat.eqb ws) (clients s0)) eqn:Hin; [exact Hin|].
    rewrite existsb_app. simpl. rewrite Nat.eqb_refl. apply orb_true_r. }
  repeat split; try assumption.
  intros id' Hne. apply lookup_insert_ne. congruence.
Qed.

Lemma upgrade_greets_the_newcomer_witness :
  ∃ w', step (Upgrade "demo" 9%nat) solo = Some w'
        ∧ outbox w' = [(9%nat, MsgElements (JArr [rectangle "a"]) (Some JNull))]
        ∧ clients (session_of "demo" w') = [1%nat; 9%nat].
Proof.
  destruct (upgrade_greets_the_newcomer "demo" 9%nat [rectangle "a"] solo
              eq_refl eq_refl) as (w' & Hstep & Hout & Hclients & _).
  exists w'. split; [exact Hstep|]. split; [exact Hout | exact Hclients].
Defined.

(** ** Replace-all and append on any scene *)

Lemma with_elements_same (s : session) : with_elements (elements s) s = s.
Proof. destruct s; reflexivity. Qed.

Lemma with_appState_same (s : session) : with_appState (appState s) s = s.
Proof. destruct s; reflexivity. Qed.

Lemma framed_twice (cams : list Camera.t) (s : session) :
  framed cams (framed cams s) = framed cams s.
Proof. unfold framed. destruct (last cams); reflexivity. Qed.

(** X5. Replace-all with a batch without [null] overwrites the scene,
    whatever it was, with the draw elements of the batch; it replaces the
    appState only when the body's [appState] is truthy and the viewport
    only when the batch has a camera command; it answers with the number
    of draw elements and of clients.  The same request once more gives the
    same answer and leaves the session as it is. *)
Theorem replace_all_settles (id : string) (members : list (string * jsval))
    (items : list jsval) (w : world) :
  own_member "elements" members = JArr items →
  existsb nullish items = false →
  let s0 := session_of id w in
  let state := own_member "appState" members in
  let draws := List.filter (fun el => negb (is_camera el)) items in
  let first := post_elements id (JObj members) w in
  let second := post_elements id (JObj members) (snd first) in
  elements (session_of id (snd first)) = JArr draws
  ∧ appState (session_of id (snd first)) = (if truthy state then state else appState s0)
  ∧ viewport (session_of id (snd first)) =
      match last (List.filter is_camera items) with
      | Some cmd => Some (camera_of cmd)
      | None => viewport s0
      end
  ∧ clients (session_of id (snd first)) = clients s0
  ∧ fst first = Returned (ResElements (Count (length draws)) (length (clients s0)))
  ∧ fst second = fst first
  ∧ session_of id (snd second) = session_of id (snd first).
Proof.
  intros Hm Hnull s0 state draws first second.
  pose proof (extractViewportUpdates_array items) as Hex. rewrite Hnull in Hex.
  assert (Hb : member "elements" (JObj members) = Returned (JArr items))
    by (simpl; rewrite Hm; reflexivity).
  assert (Hpost : ∀ w0, post_elements id (JObj members) w0 =
            (Returned (ResElements (Count (length draws))
                         (length (clients (session_of id w0)))),
             commit id
               (framed (viewports (partition_of items))
                  (if truthy state
                   then with_appState state (with_elements (JArr draws) (session_of id w0))
                   else with_elements (JArr draws) (session_of id w0)))
               (to_open w0 (session_of id w0)
                  (MsgElements (JArr draws)
                     (Some (appState
                              (if truthy state
                               then with_appState state
                                      (with_elements (JArr draws) (session_of id w0))
                               else with_elements (JArr draws) (session_of id w0)))))
                ++ viewport_messages w0 (session_of id w0)
                     (viewports (partition_of items))) w0)).
  { intros w0. apply (post_elements_eq id (JObj members) (JArr items) state
                        (partition_of items) w0 Hb eq_refl Hex). }
  subst second first. rewrite !Hpost. simpl fst. simpl snd.
  rewrite !session_of_commit. fold s0.
  rewrite framed_elements, framed_appState, framed_clients.
  set (s2 := if truthy state then with_appState state (with_elements (JArr draws) s0)
             else with_elements (JArr draws) s0).
  assert (He : elements s2 = JArr draws) by (subst s2; destruct (truthy state); reflexivity).
  assert (Hc : clients s2 = clients s0) by (subst s2; destruct (truthy state); reflexivity).
  assert (Ha : appState s2 = if truthy state then state else appState s0)
    by (subst s2; destruct (truthy state); reflexivity).
  assert (Hv : viewport s2 = viewport s0) by (subst s2; destruct (truthy state); reflexivity).
  split; [exact He|]. split; [exact Ha|]. split.
  { unfold framed, partition_of. cbn [viewports]. rewrite last_map.
    destruct (last (List.filter is_camera items)); [reflexivity | exact Hv]. }
  split; [exact Hc|]. split; [reflexivity|]. split; [rewrite Hc; reflexivity|].
  assert (Hagain : (if truthy state
                    then with_appState state
                           (with_elements (JArr draws)
                              (framed (viewports (partition_of items)) s2))
                    else with_elements (JArr draws)
                           (framed (viewports (partition_of items)) s2))
                   = framed (viewports (partition_of items)) s2).
  { unfold framed. destruct (last (viewports (partition_of items))) as [cam|];
      subst s2; destruct (truthy state) eqn:Ht; reflexivity. }
  unfold partition_of in Hagain. cbn [viewports] in Hagain.
  unfold partition_of. cbn [viewports]. rewrite Hagain. apply framed_twice.
Qed.

Lemma replace_all_settles_witness :
  let body := [("elements", JArr [rectangle "a"; cameraUpdate 1 2 3 4; arrow "b"])] in
  elements (session_of "demo" (snd (post_elements "demo" (JObj body) solo)))
    = JArr [rectangle "a"; arrow "b"]
  ∧ fst (post_elements "demo" (JObj body) solo)
    = Returned (ResElements (Count 2) 1).
Proof.
  pose proof (replace_all_settles "demo"
                [("elements", JArr [rectangle "a"; cameraUpdate 1 2 3 4; arrow "b"])]
                [rectangle "a"; cameraUpdate 1 2 3 4; arrow "b"] solo
                eq_refl eq_refl) as H.
  cbv zeta in H. destruct H as (He & _ & _ & _ & Hr & _).
  split; [exact He | exact Hr].
Defined.

(** X6. A replace-all or an append whose batch makes the extraction
    throw (an item that is [null], or a batch that cannot be iterated) is
    answered with that error and has no effect: nothing is sent, and the
    session, which [getSession] has created if it was not there, has the
    elements, appState, viewport and clients it had. *)
Theorem rejected_batch_changes_nothing (id : string) (members : list (string * jsval))
    (e : exn) (w : world) :
  let batch := own_member "elements" members in
  extractViewportUpdates (js_or batch (JArr [])) = Thrown e →
  post_elements id (JObj members) w = (Thrown e, commit id (session_of id w) [] w)
  ∧ (has_items batch = true →
     post_append id (JObj members) w = (Thrown e, commit id (session_of id w) [] w))
  ∧ session_of id (commit id (session_of id w) [] w) = session_of id w
  ∧ outbox (commit id (session_of id w) [] w) = outbox w
  ∧ (∀ items, batch = JArr items → existsb nullish items = true → e = null_read).
Proof.
  intros batch Hthrow.
  split; [|split; [|split; [|split]]].
  - unfold post_elements. exec. simpl member. exec. fold batch. rewrite Hthrow. exec.
    reflexivity.
  - intros Hsome. unfold post_append. exec. simpl member. exec. fold batch.
    rewrite post_append_guard, Hsome. exec.
    assert (Hbatch : js_or batch (JArr []) = batch).
    { unfold js_or. unfold has_items in Hsome.
      destruct (truthy batch); [reflexivity | discriminate]. }
    rewrite Hbatch in Hthrow. rewrite Hthrow. exec. reflexivity.
  - apply session_of_commit.
  - unfold commit. simpl. apply app_nil_r.
  - intros items Hitems Hnull. rewrite Hitems in Hthrow.
    change (js_or (JArr items) (JArr [])) with (JArr items) in Hthrow.
    rewrite extractViewportUpdates_array, Hnull in Hthrow. congruence.
Qed.

Lemma rejected_batch_changes_nothing_witness :
  post_elements "demo" (JObj [("elements", JArr [rectangle "b"; JNull])]) solo
    = (Thrown null_read, solo)
  ∧ post_append "demo" (JObj [("elements", JObj [("length", JNum 1)])]) solo
    = (Thrown (TypeError "value is not iterable"), solo).
Proof.
  split.
  - rewrite <- (commit_present "demo" (session_of "demo" solo) solo eq_refl) at 2.
    exact (proj1 (rejected_batch_changes_nothing "demo"
                    [("elements", JArr [rectangle "b"; JNull])] null_read solo eq_refl)).
  - rewrite <- (commit_present "demo" (session_of "demo" solo) solo eq_refl) at 2.
    exact (proj1 (proj2 (rejected_batch_changes_nothing "demo"
                           [("elements", JObj [("length", JNum 1)])]
                           (TypeError "value is not iterable") solo eq_refl)) eq_refl).
Defined.

(** ** A scene that is not an array *)

Lemma on_upgrade_nullish (id : string) (ws : conn) (w : world) :
  nullish (elements (session_of id w)) = true →
  ∃ e w', on_upgrade id ws w = Some (Thrown e, w').
Proof.
  intros Hnull. unfold on_upgrade.
  rewrite getSession_commit. cbv beta iota. rewrite assign_commit. cbv beta iota.
  set (s1 := with_clients _ _).
  assert (Hs : session_of id (log (LogConnected id (length (clients s1)))
                                (commit id s1 [] w)) = s1).
  { unfold session_of, log, commit. simpl. rewrite lookup_insert_eq. reflexivity. }
  rewrite session_of_commit, Hs.
  assert (He : elements s1 = elements (session_of id w)) by reflexivity.
  rewrite He. destruct (elements (session_of id w)); try discriminate; simpl; eauto.
Qed.

Lemma post_append_nullish (id : string) (body : jsval) (w : world) :
  nullish (elements (session_of id w)) = true →
  ∃ e, fst (post_append id body w) = Thrown e.
Proof.
  intros Hnull.
  assert (Hlen : ∀ s, nullish (elements s) = true → ∃ e, read_length (elements s) = Thrown e).
  { intros s Hs. destruct (elements s); try discriminate; simpl; eauto. }
  unfold post_append. exec.
  destruct (member "elements" body) as [batch|e]; exec; [|eauto].
  rewrite post_append_guard. exec.
  destruct (has_items batch); exec.
  - destruct (extractViewportUpdates batch) as [ex|e] eqn:Hex; exec; [|eauto].
    destruct (negb (Nat.eqb (length (drawElements ex)) 0)); exec.
    + destruct (elements (session_of id w)); try discriminate; simpl iterate; exec; eauto.
    + rewrite apply_viewports_framed. exec.
      destruct (Hlen (framed (viewports ex) (session_of id w))) as (e & He).
      { rewrite framed_elements. exact Hnull. }
      rewrite He. exec. eauto.
  - destruct (Hlen _ Hnull) as (e & He). rewrite He. exec. eauto.
Qed.

(** X7. An [update] frame whose [elements] is absent or [null] is stored
    as the scene like any other.  From then on no connection can join the
    session (reading the scene's length throws in the upgrade callback,
    outside any [try]) and every append, whatever its body, is answered
    with an error; a clear makes the scene an array again. *)
Theorem update_without_elements_breaks_the_session (id : string) (ws : conn)
    (members : list (string * jsval)) (s : session) (w : world) :
  sessions w !! id = Some s →
  own_member "type" members = JStr "update" →
  nullish (own_member "elements" members) = true →
  let w' := on_message id ws (Json (JObj members)) w in
  elements (session_of id w') = own_member "elements" members
  ∧ (∀ ws', step (Upgrade id ws') w' = None)
  ∧ (∀ body, ∃ e, fst (post_append id body w') = Thrown e)
  ∧ elements (session_of id (snd (post_clear id w'))) = JArr [].
Proof.
  intros Hs Htag Hnull w'.
  assert (He : elements (session_of id w') = own_member "elements" members).
  { subst w'. rewrite (on_message_update id ws members s w Hs Htag).
    rewrite session_of_commit. reflexivity. }
  split; [exact He|]. split; [|split].
  - intros ws'. simpl. destruct (sockets w' !! ws'); [reflexivity|].
    destruct (on_upgrade_nullish id ws' (set_sockets <[ws' := OPEN]> w')) as (e & w'' & ->);
      [|reflexivity].
    change (session_of id (set_sockets <[ws' := OPEN]> w')) with (session_of id w').
    rewrite He. exact Hnull.
  - intros body. apply post_append_nullish. rewrite He. exact Hnull.
  - rewrite post_clear_eq. simpl snd. rewrite session_of_commit. reflexivity.
Qed.

Lemma update_without_elements_breaks_the_session_witness :
  let w' := on_message "demo" 1 (Json (JObj [("type", JStr "update")])) solo in
  elements (session_of "demo" w') = JUndefined
  ∧ step (Upgrade "demo" 2) w' = None
  ∧ ∃ e, fst (post_append "demo" (JObj [("elements", JArr [rectangle "b"])]) w') = Thrown e.
Proof.
  pose proof (update_without_elements_breaks_the_session "demo" 1
                [("type", JStr "update")] _ solo eq_refl eq_refl eq_refl) as H.
  cbv zeta in H. destruct H as (He & Hup & Happ & _).
  split; [exact He|]. split; [exact (Hup 2%nat) | exact (Happ _)].
Defined.

(** X8. An append never shortens an array scene and never puts a camera
    command into it: whatever the body, and whether the request is
    answered or fails, the scene afterwards is the old one followed by
    items none of which is a camera command, and the appState and the
    client set are the ones before. *)
Theorem append_only_extends (id : string) (body : jsval) (old : list jsval) (w : world) :
  elements (session_of id w) = JArr old →
  let after := session_of id (snd (post_append id body w)) in
  ∃ extra, elements after = JArr (old ++ extra)
           ∧ existsb is_camera extra = false
           ∧ appState after = appState (session_of id w)
           ∧ clients after = clients (session_of id w)
           ∧ (∀ n, fst (post_append id body w) = Returned (ResAppend n) →
                   n = Count (length (old ++ extra))).
Proof.
  intros Hold after. subst after.
  assert (Hsame : ∃ extra, elements (session_of id w) = JArr (old ++ extra)
                           ∧ existsb is_camera extra = false)
    by (exists []; rewrite app_nil_r; split; [exact Hold | reflexivity]).
  unfold post_append. exec.
  destruct (member "elements" body) as [batch|e]; exec.
  2:{ destruct Hsame as (extra & H1 & H2). exists extra.
      simpl snd. rewrite session_of_commit. repeat split; try assumption.
      intros n Hn. discriminate. }
  rewrite post_append_guard. exec.
  destruct (has_items batch); exec.
  - destruct (extractViewportUpdates batch) as [ex|e] eqn:Hex; exec.
    2:{ destruct Hsame as (extra & H1 & H2). exists extra.
        simpl snd. rewrite session_of_commit. repeat split; try assumption.
        intros n Hn. discriminate. }
    destruct (extract_returns_partition _ _ Hex) as (items & _ & ->).
    destruct (negb (Nat.eqb (length (drawElements (partition_of items))) 0)); exec.
    + rewrite Hold. simpl iterate. exec. rewrite apply_viewports_framed. exec.
      rewrite framed_elements. simpl read_length. exec.
      exists (drawElements (partition_of items)).
      simpl snd. rewrite session_of_commit, framed_elements, framed_appState, framed_clients.
      repeat split; [apply partition_draws_clean|].
      intros n Hn. cbn [fst] in Hn. injection Hn as <-. reflexivity.
    + rewrite apply_viewports_framed. exec. rewrite framed_elements, Hold.
      simpl read_length. exec. exists [].
      simpl snd. rewrite session_of_commit, framed_elements, framed_appState, framed_clients.
      rewrite app_nil_r. repeat split; [exact Hold|].
      intros n Hn. cbn [fst] in Hn. injection Hn as <-. reflexivity.
  - rewrite Hold. simpl read_length. exec. exists [].
    simpl snd. rewrite session_of_commit, app_nil_r. repeat split; [exact Hold|].
    intros n Hn. cbn [fst] in Hn. injection Hn as <-. reflexivity.
Qed.

Lemma append_only_extends_witness :
  ∃ extra,
    elements (session_of "demo"
                (snd (post_append "demo"
                        (JObj [("elements", JArr [cameraUpdate 1 2 3 4; arrow "b"])]) solo)))
      = JArr ([rectangle "a"] ++ extra)
    ∧ existsb is_camera extra = false.
Proof.
  destruct (append_only_extends "demo"
              (JObj [("elements", JArr [cameraUpdate 1 2 3 4; arrow "b"])])
              [rectangle "a"] solo eq_refl) as (extra & He & Hc & _).
  exists extra. split; [exact He | exact Hc].
Defined.

(** ** Who is sent what *)

Lemma addressed_app (w : world) (members : list conn) (l1 l2 : list (conn * server_msg)) :
  addressed w members l1 → addressed w members l2 → addressed w members (l1 ++ l2).
Proof. unfold addressed. intros H1 H2. apply Forall_app. split; assumption. Qed.

Lemma addressed_to_open (w : world) (s : session) (msg : server_msg) :
  addressed w (clients s) (to_open w s msg).
Proof.
  unfold addressed, to_open. apply List.Forall_forall. intros [c m] Hin.
  apply in_map_iff in Hin as (c' & Heq & Hin). injection Heq as -> ->.
  apply filter_In in Hin as [Hin Ho]. split; assumption.
Qed.

Lemma polite_bind {A B : Type} (id : string) (m : handler A) (k : A → handler B) :
  polite id m → (∀ a, polite id (k a)) → polite id (m ≫= k).
Proof.
  intros Hm Hk s msgs w. rewrite run_bind.
  destruct (Hm s msgs w) as (s1 & extra1 & H1 & Hc1 & Ha1).
  destruct (m (commit id s msgs w)) as [[a|e] st]; simpl in H1; subst st.
  - destruct (Hk a s1 (msgs ++ extra1)%list w) as (s2 & extra2 & H2 & Hc2 & Ha2).
    exists s2, (extra1 ++ extra2)%list. rewrite app_assoc.
    split; [exact H2|]. split; [congruence|].
    apply addressed_app; [exact Ha1|]. rewrite <- Hc1. exact Ha2.
  - exists s1, extra1. repeat split; assumption.
Qed.

Lemma polite_silent {A : Type} (id : string) (m : handler A) :
  (∀ s msgs w, snd (m (commit id s msgs w)) = commit id s msgs w) → polite id m.
Proof.
  intros H s msgs w. exists s, []. rewrite H, app_nil_r.
  repeat split. apply Forall_nil. trivial.
Qed.

Lemma polite_lift {A : Type} (id : string) (c : completion A) : polite id (lift c).
Proof. apply polite_silent. reflexivity. Qed.

Lemma polite_ret {A : Type} (id : string) (a : A) : polite id (mret a : handler A).
Proof. apply polite_silent. reflexivity. Qed.

Lemma polite_skip (id : string) : polite id (skip : handler unit).
Proof. apply polite_ret. Qed.

Lemma polite_deref {A : Type} (id : string) (field : session → A) :
  polite id (deref id field).
Proof. apply polite_silent. intros s msgs w. rewrite deref_commit. reflexivity. Qed.

Lemma polite_assign (id : string) (f : session → session) :
  (∀ s, clients (f s) = clients s) → polite id (assign id f).
Proof.
  intros Hf s msgs w. exists (f s), []. rewrite assign_commit, app_nil_r.
  split; [reflexivity|]. split; [apply Hf | apply Forall_nil; trivial].
Qed.

Lemma polite_broadcast (id : string) (msg : server_msg) : polite id (broadcast id msg).
Proof.
  intros s msgs w. exists s, (to_open w s msg). rewrite broadcast_commit.
  split; [reflexivity|]. split; [reflexivity | apply addressed_to_open].
Qed.

Lemma polite_apply_viewports (id : string) (cams : list Camera.t) :
  polite id (apply_viewports id cams).
Proof.
  intros s msgs w. exists (framed cams s), (viewport_messages w s cams).
  rewrite apply_viewports_framed.
  split; [reflexivity|]. split; [apply framed_clients|].
  unfold viewport_messages. destruct (last cams).
  - apply addressed_to_open.
  - apply Forall_nil. trivial.
Qed.

Lemma polite_relay (id : string) (ws : conn) (msg : server_msg) :
  polite id (effect (relay id ws msg)).
Proof.
  intros s msgs w. eexists s, _. unfold effect. simpl snd. rewrite relay_commit.
  split; [reflexivity|]. split; [reflexivity|].
  unfold addressed. apply List.Forall_forall. intros [c m] Hin.
  apply in_map_iff in Hin as (c' & Heq & Hin). injection Heq as -> ->.
  apply filter_In in Hin as [Hin Ho]. apply andb_true_iff in Ho as [_ Ho].
  split; assumption.
Qed.

Ltac polite_step :=
  first
    [ apply polite_bind; [|intros ?]
    | apply polite_lift
    | apply polite_ret
    | apply polite_skip
    | apply polite_deref
    | apply polite_broadcast
    | apply polite_apply_viewports
    | apply polite_relay
    | apply polite_assign; intros []; reflexivity
    | match goal with
      | |- polite _ (if ?b then _ else _) => destruct b
      end ].

Ltac polite_all := repeat polite_step.

(** What a polite handler that starts with [getSession(id)] sends goes
    to open clients of [id]. *)
Lemma sends_after_getSession {A : Type} (id : string) (k : unit → handler A) (w : world) :
  (∀ u, polite id (k u)) →
  ∃ extra, outbox (snd ((getSession id ≫= k) w)) = (outbox w ++ extra)%list
           ∧ addressed w (clients (session_of id w)) extra.
Proof.
  intros Hk. rewrite run_bind, getSession_commit.
  destruct (Hk tt (session_of id w) [] w) as (s' & extra & H & Hc & Ha).
  rewrite H. exists extra. split; [reflexivity | exact Ha].
Qed.

Lemma on_message_sends (id : string) (ws : conn) (data : frame) (s : session) (w : world) :
  sessions w !! id = Some s →
  ∃ extra, outbox (on_message id ws data w) = (outbox w ++ extra)%list
           ∧ addressed w (clients s) extra.
Proof.
  intros Hs.
  assert (Hp : polite id (try_message id ws data)) by (unfold try_message; polite_all).
  destruct (Hp s [] w) as (s' & extra & H & Hc & Ha).
  rewrite (commit_present id s w Hs) in H. unfold on_message.
  destruct (try_message id ws data w) as [[u|e] w1]; simpl in H; subst w1;
    exists extra; (split; [reflexivity | exact Ha]).
Qed.

Lemma on_upgrade_sends (id : string) (ws : conn) (r : completion unit) (w w' : world) :
  on_upgrade id ws w = Some (r, w') →
  ∃ extra, outbox w' = (outbox w ++ extra)%list ∧ Forall (fun m => fst m = ws) extra.
Proof.
  unfold on_upgrade. rewrite getSession_commit. cbv beta iota.
  rewrite assign_commit. cbv beta iota.
  set (w1 := log _ _).
  assert (Hw1 : outbox w1 = outbox w) by (unfold w1, log, commit; simpl; apply app_nil_r).
  destruct (read_length _) as [n|e].
  2:{ intros H. injection H as <- <-. exists []. rewrite app_nil_r. split; [exact Hw1 | constructor]. }
  destruct (length_gt0 n) as [some|]; [|discriminate].
  set (w2 := if some then _ else w1).
  assert (Hw2 : ∃ extra, outbox w2 = (outbox w ++ extra)%list
                         ∧ Forall (fun m => fst m = ws) extra).
  { subst w2. destruct some.
    - eexists [_]. unfold send. cbn [outbox]. rewrite Hw1.
      split; [reflexivity|]. repeat constructor.
    - exists []. rewrite app_nil_r. split; [exact Hw1 | constructor]. }
  destruct Hw2 as (extra & Hout & Hall).
  intros H. injection H as <- <-.
  destruct (viewport (session_of id w2)) as [camera|].
  - exists (extra ++ [(ws, MsgViewport camera)])%list. unfold send. cbn [outbox].
    rewrite Hout, app_assoc.
    split; [reflexivity|]. apply Forall_app. split; [exact Hall | repeat constructor].
  - exists extra. split; assumption.
Qed.

Lemma on_close_outbox (id : string) (ws : conn) (w : world) :
  outbox (on_close id ws w) = outbox w.
Proof. unfold on_close. destruct (Nat.eqb _ 0); reflexivity. Qed.

Lemma elapse_outbox (dt : Z) (w : world) : outbox (elapse dt w) = outbox w.
Proof.
  unfold elapse. simpl.
  destruct (cleanups_frame
              (List.filter (fun '(d, _) => d <=? clock w + dt) (timers w))
              (set_timers (List.filter (fun '(d, _) => negb (d <=? clock w + dt)) (timers w)) w))
    as (_ & _ & _ & H).
  exact H.
Qed.

(** What one event sends. *)
Lemma step_sends (e : event) (w w' : world) :
  step e w = Some w' →
  ∃ extra, outbox w' = (outbox w ++ extra)%list
           ∧ match e with
             | Upgrade _ ws => Forall (fun m => fst m = ws) extra
             | Message id _ _ | GetSession id | PostElements id _ | PostAppend id _
             | PostViewport id _ | PostClear id =>
                 addressed w (clients (session_of id w)) extra
             | Closing _ | Close _ _ | Elapse _ => extra = []
             end.
Proof.
  intros Hstep.
  destruct e as [id ws | id ws data | ws | id ws | id | id body
                 | id body | id body | id | dt]; simpl in Hstep.
  - destruct (sockets w !! ws); [discriminate|].
    destruct (on_upgrade id ws _) as [[[u|e] w1]|] eqn:Hup; try discriminate.
    injection Hstep as <-. exact (on_upgrade_sends _ _ _ _ _ Hup).
  - destruct (connected id ws w) eqn:Hcon; [|discriminate]. injection Hstep as <-.
    destruct (connected_present _ _ _ Hcon) as (s & Hs & _).
    rewrite (session_of_present id s w Hs). exact (on_message_sends id ws data s w Hs).
  - destruct (sockets w !! ws) as [[]|]; try discriminate. injection Hstep as <-.
    exists []. rewrite app_nil_r. split; reflexivity.
  - destruct (connected id ws w); [|discriminate]. injection Hstep as <-.
    exists []. rewrite app_nil_r, on_close_outbox. split; reflexivity.
  - injection Hstep as <-. apply sends_after_getSession. intros u. polite_all.
  - injection Hstep as <-. apply sends_after_getSession. intros u. polite_all.
  - injection Hstep as <-. apply sends_after_getSession. intros u. polite_all.
  - injection Hstep as <-. apply sends_after_getSession. intros u. polite_all.
  - injection Hstep as <-. apply sends_after_getSession. intros u. polite_all.
  - destruct (0 <=? dt); [|discriminate]. injection Hstep as <-.
    exists []. rewrite app_nil_r, elapse_outbox. split; reflexivity.
Qed.

Lemma In_connected (id : string) (c : conn) (s : session) (w : world) :
  sessions w !! id = Some s → In c (clients s) → connected id c w = true.
Proof.
  intros Hs Hin. unfold connected. rewrite Hs. apply existsb_exists.
  exists c. split; [exact Hin | apply Nat.eqb_refl].
Qed.

Lemma connected_In (id : string) (c : conn) (w : world) :
  connected id c w = true → ∃ s, sessions w !! id = Some s ∧ In c (clients s).
Proof.
  intros Hcon. destruct (connected_present _ _ _ Hcon) as (s & Hs & Hex).
  exists s. split; [exact Hs|].
  apply existsb_exists in Hex as (c' & Hin & Heq). apply Nat.eqb_eq in Heq. congruence.
Qed.

Lemma In_session_of (id : string) (c : conn) (w : world) :
  In c (clients (session_of id w)) → ∃ s, sessions w !! id = Some s ∧ In c (clients s).
Proof.
  unfold session_of. destruct (sessions w !! id) as [s|]; simpl; [eauto | tauto].
Qed.

(** X9. Whatever one event makes the server send is added after what was
    sent before, and every message of it goes to a connection whose socket
    is open and which is, after the event, a client of the session that the
    event names.  A closing handshake, a close and the passing of time send
    nothing. *)
Theorem messages_go_to_open_clients_of_the_session (e : event) (w w' : world) :
  step e w = Some w' →
  ∃ extra, outbox w' = (outbox w ++ extra)%list
           ∧ (∀ c msg, In (c, msg) extra →
                is_open w' c = true
                ∧ ∃ id, names id e = true ∧ connected id c w' = true)
           ∧ (match e with
              | Closing _ | Close _ _ | Elapse _ => extra = []
              | _ => True
              end).
Proof.
  intros Hstep. destruct (step_sends e w w' Hstep) as (extra & Hout & Hto).
  exists extra. split; [exact Hout|].
  pose proof (step_edits e w w' Hstep) as Hed.
  assert (Hhandler : ∀ id, edits id w w' →
            addressed w (clients (session_of id w)) extra →
            ∀ c msg, In (c, msg) extra →
              is_open w' c = true ∧ connected id c w' = true).
  { intros id (Hso & _ & _ & s' & Hss & Hcl) Hadd c msg Hin.
    unfold addressed in Hadd. rewrite List.Forall_forall in Hadd.
    destruct (Hadd _ Hin) as [Hmem Hopen]. simpl in Hmem, Hopen. split.
    - unfold is_open in *. rewrite Hso. exact Hopen.
    - apply (In_connected id c s'); [rewrite Hss; apply lookup_insert_eq|].
      rewrite Hcl. exact Hmem. }
  destruct e as [id ws | id ws data | ws | id ws | id | id body
                 | id body | id body | id | dt];
    try (split; [|exact I]; intros c msg Hin;
         destruct (Hhandler id Hed Hto c msg Hin) as [Ho Hc];
         split; [exact Ho|]; exists id; split; [apply String.eqb_refl | exact Hc]);
    try (subst extra; split; [intros c msg []|reflexivity]).
  split; [|exact I]. intros c msg Hin.
  rewrite List.Forall_forall in Hto. pose proof (Hto _ Hin) as Hc. simpl in Hc. subst c.
  simpl in Hstep. destruct (sockets w !! ws); [discriminate|].
  destruct (on_upgrade id ws _) as [[[u|e] w1]|] eqn:Hup; try discriminate.
  injection Hstep as <-.
  destruct (on_upgrade_frame _ _ _ _ _ Hup) as (Hso & _ & _ & Hss). split.
  - unfold is_open. rewrite Hso. simpl. rewrite lookup_insert_eq. reflexivity.
  - exists id. split; [apply String.eqb_refl|].
    unfold connected. rewrite Hss, lookup_insert_eq. cbn [clients with_clients].
    generalize (clients (session_of id (set_sockets <[ws := OPEN]> w))). intros l.
    unfold set_add. destruct (existsb (Nat.eqb ws) l) eqn:Hex; [exact Hex|].
    rewrite existsb_app. simpl. rewrite Nat.eqb_refl. apply orb_true_r.
Qed.

Lemma messages_go_to_open_clients_of_the_session_witness :
  ∃ extra, outbox (snd (post_clear "demo" lobby)) = (outbox lobby ++ extra)%list
           ∧ ∀ c msg, In (c, msg) extra →
               is_open (snd (post_clear "demo" lobby)) c = true
               ∧ ∃ id, names id (PostClear "demo") = true
                       ∧ connected id c (snd (post_clear "demo" lobby)) = true.
Proof.
  destruct (messages_go_to_open_clients_of_the_session (PostClear "demo") lobby _ eq_refl)
    as (extra & Hout & Hto & _).
  exists extra. split; [exact Hout | exact Hto].
Defined.

(** ** Sessions do not interfere *)

(** A state whose sockets include those of [w] and whose client sets are
    within those of [w] is housed when [w] is. *)
Lemma housed_within (w w' : world) :
  (∀ c, sockets w !! c ≠ None → sockets w' !! c ≠ None) →
  (∀ id s' c, sessions w' !! id = Some s' → In c (clients s') →
              ∃ s, sessions w !! id = Some s ∧ In c (clients s)) →
  housed w → housed w'.
Proof.
  intros Hso Hss Hw id s' c Hs' Hin.
  destruct (Hss id s' c Hs' Hin) as (s & Hs & Hc).
  destruct (Hw id s c Hs Hc) as [Hsock Huniq]. split; [apply Hso, Hsock|].
  intros id0 s0' Hs0' Hin0.
  destruct (Hss id0 s0' c Hs0' Hin0) as (s0 & Hs0 & Hc0). eauto.
Qed.

Lemma edits_housed (id : string) (w w' : world) : edits id w w' → housed w → housed w'.
Proof.
  intros (Hso & _ & _ & s' & Hss & Hcl). apply housed_within.
  - intros c. rewrite Hso. trivial.
  - intros id0 s0 c Hs0 Hin. rewrite Hss in Hs0.
    destruct (decide (id = id0)) as [<-|Hne].
    + rewrite lookup_insert_eq in Hs0. injection Hs0 as <-.
      rewrite Hcl in Hin. apply In_session_of. exact Hin.
    + rewrite lookup_insert_ne in Hs0 by exact Hne. eauto.
Qed.

Lemma In_set_add (c c0 : conn) (l : list conn) :
  In c (set_add c0 l) → c = c0 ∨ In c l.
Proof.
  unfold set_add. destruct (existsb (Nat.eqb c0) l); [tauto|].
  intros H. apply in_app_or in H as [H|[H|[]]]; [tauto | left; congruence].
Qed.

Lemma In_set_delete (c c0 : conn) (l : list conn) : In c (set_delete c0 l) → In c l.
Proof. unfold set_delete. intros H. apply filter_In in H. tauto. Qed.

Lemma step_housed (e : event) (w w' : world) : housed w → step e w = Some w' → housed w'.
Proof.
  intros Hw Hstep. pose proof (step_edits e w w' Hstep) as Hed.
  destruct e as [id ws | id ws data | ws | id ws | id | id body
                 | id body | id body | id | dt];
    try (apply (edits_housed _ w w' Hed Hw)); simpl in Hstep.
  - destruct (sockets w !! ws) eqn:Hfresh; [discriminate|].
    destruct (on_upgrade id ws _) as [[[u|e] w1]|] eqn:Hup; try discriminate.
    injection Hstep as <-.
    destruct (on_upgrade_frame _ _ _ _ _ Hup) as (Hso & _ & _ & Hss).
    change (session_of id (set_sockets <[ws := OPEN]> w)) with (session_of id w) in Hss.
    simpl in Hso, Hss.
    assert (Hold : ∀ id0 s0 c, sessions w1 !! id0 = Some s0 → In c (clients s0) →
                     c = ws ∧ id0 = id
                     ∨ ∃ s, sessions w !! id0 = Some s ∧ In c (clients s)).
    { intros id0 s0 c Hs0 Hin. rewrite Hss in Hs0.
      destruct (decide (id = id0)) as [<-|Hne].
      - rewrite lookup_insert_eq in Hs0. injection Hs0 as <-. simpl in Hin.
        apply In_set_add in Hin as [->|Hin]; [left; split; reflexivity|].
        right. apply In_session_of. exact Hin.
      - rewrite lookup_insert_ne in Hs0 by exact Hne. right. eauto. }
    intros id0 s0 c Hs0 Hin. split.
    + rewrite Hso. destruct (decide (ws = c)) as [->|Hne].
      * rewrite lookup_insert_eq. discriminate.
      * rewrite lookup_insert_ne by exact Hne.
        destruct (Hold _ _ _ Hs0 Hin) as [[-> _]|(s & Hs & Hc)]; [congruence|].
        exact (proj1 (Hw _ _ _ Hs Hc)).
    + intros id1 s1 Hs1 Hin1.
      destruct (Hold _ _ _ Hs0 Hin) as [[-> ->]|(s & Hs & Hc)];
        destruct (Hold _ _ _ Hs1 Hin1) as [[Hc1 ->]|(s' & Hs' & Hc')].
      * reflexivity.
      * destruct (proj1 (Hw _ _ _ Hs' Hc') Hfresh).
      * subst c. destruct (proj1 (Hw _ _ _ Hs Hc) Hfresh).
      * exact (proj2 (Hw _ _ _ Hs Hc) _ _ Hs' Hc').
  - destruct (sockets w !! ws) as [[]|] eqn:Hws; try discriminate.
    injection Hstep as <-. revert Hw. apply housed_within.
    + intros c Hc. simpl. destruct (decide (ws = c)) as [->|Hne].
      * rewrite lookup_insert_eq. discriminate.
      * rewrite lookup_insert_ne by exact Hne. exact Hc.
    + simpl. eauto.
  - destruct (connected id ws w); [|discriminate]. injection Hstep as <-.
    destruct (on_close_frame id ws (set_sockets <[ws := CLOSED]> w)) as (Hso & _ & Hss & _).
    revert Hw. apply housed_within.
    + intros c Hc. rewrite Hso. simpl. destruct (decide (ws = c)) as [->|Hne].
      * rewrite lookup_insert_eq. discriminate.
      * rewrite lookup_insert_ne by exact Hne. exact Hc.
    + intros id0 s0 c Hs0 Hin. rewrite Hss in Hs0. simpl in Hs0.
      destruct (decide (id = id0)) as [<-|Hne].
      * rewrite lookup_alter_eq in Hs0.
        destruct (sessions w !! id) as [s|]; [|discriminate].
        injection Hs0 as <-. simpl in Hin. exists s. split; [reflexivity|].
        exact (In_set_delete _ _ _ Hin).
      * rewrite lookup_alter_ne in Hs0 by exact Hne. eauto.
  - destruct (0 <=? dt); [|discriminate]. injection Hstep as <-.
    revert Hw. apply housed_within.
    + intros c Hc.
      assert (Hso : sockets (elapse dt w) = sockets w).
      { unfold elapse. simpl.
        exact (proj1 (cleanups_frame _ (set_timers _ w))). }
      rewrite Hso. exact Hc.
    + intros id0 s0 c Hs0 Hin. exists s0. split; [|exact Hin].
      exact (elapse_sub dt id0 s0 w Hs0).
Qed.

Lemma run_housed (evs : list event) :
  ∀ w w', housed w → run evs w = Some w' → housed w'.
Proof.
  induction evs as [|e evs IH]; intros w w' Hw Hrun; simpl in Hrun.
  - injection Hrun as <-. exact Hw.
  - destruct (step e w) as [w1|] eqn:Hstep; [|discriminate].
    exact (IH w1 w' (step_housed e w w1 Hw Hstep) Hrun).
Qed.

Lemma reachable_housed (w : world) : reachable w → housed w.
Proof.
  intros (evs & Hrun). apply (run_housed evs boot w); [|exact Hrun].
  intros id s c Hs. simpl in Hs. rewrite lookup_empty in Hs. discriminate.
Qed.

Lemma reachable_step (e : event) (w w' : world) :
  reachable w → step e w = Some w' → reachable w'.
Proof.
  intros (evs & Hrun) Hstep. exists (evs ++ [e])%list.
  revert Hrun. generalize boot. induction evs as [|e0 evs IH]; intros w0 Hrun; simpl in *.
  - injection Hrun as ->. rewrite Hstep. reflexivity.
  - destruct (step e0 w0) as [w1|]; [|discriminate]. exact (IH w1 Hrun).
Qed.

Lemma names_not_close (id : string) (ws : conn) (e : event) :
  names id e = false → is_close_of id ws e = false.
Proof. destruct e; simpl; try reflexivity. intros ->. reflexivity. Qed.

Lemma received_none (c : conn) (msgs : list (conn * server_msg)) :
  (∀ m, In m msgs → fst m ≠ c) → received c msgs = [].
Proof.
  intros H. unfold received. induction msgs as [|m msgs IH]; [reflexivity|].
  simpl. destruct (Nat.eqb (fst m) c) eqn:Heq.
  - apply Nat.eqb_eq in Heq. destruct (H m (or_introl eq_refl) Heq).
  - apply IH. intros m' Hin. apply H. right. exact Hin.
Qed.

Lemma step_no_cross_talk (e : event) (id : string) (c : conn) (w w' : world) :
  housed w → step e w = Some w' → names id e = false → connected id c w = true →
  received c (outbox w') = received c (outbox w).
Proof.
  intros Hw Hstep Hnot Hcon.
  destruct (step_sends e w w' Hstep) as (extra & Hout & Hto).
  rewrite Hout, received_app.
  destruct (connected_In _ _ _ Hcon) as (s & Hs & Hin).
  destruct (Hw id s c Hs Hin) as [Hsock Huniq].
  assert (Hother : ∀ id', String.eqb id id' = false →
            addressed w (clients (session_of id' w)) extra → received c extra = []).
  { intros id' Hne Hadd. apply received_none. intros m Hm Hc.
    unfold addressed in Hadd. rewrite List.Forall_forall in Hadd.
    destruct (Hadd m Hm) as [Hmem _]. rewrite Hc in Hmem.
    apply In_session_of in Hmem as (s' & Hs' & Hin').
    rewrite (Huniq id' s' Hs' Hin'), String.eqb_refl in Hne. discriminate. }
  destruct e as [id' ws | id' ws data | ws | id' ws | id' | id' body
                 | id' body | id' body | id' | dt]; simpl in Hnot;
    try (rewrite (Hother id' Hnot Hto); apply app_nil_r);
    try (subst extra; apply app_nil_r).
  rewrite (received_none c extra); [apply app_nil_r|].
  intros m Hm Hc. rewrite List.Forall_forall in Hto. rewrite (Hto m Hm) in Hc. subst c.
  simpl in Hstep. destruct (sockets w !! ws); [discriminate | congruence].
Qed.

(** X10. A client of a session hears nothing of the other sessions: in a
    state the server can reach, events that do not name the session [id]
    (requests and WebSocket events of other sessions, closing handshakes,
    time passing) send no message to a connection that is a client of
    [id], and leave it a client of [id]. *)
Theorem no_message_from_other_sessions (evs : list event) (id : string) (c : conn)
    (w w' : world) :
  reachable w →
  run evs w = Some w' →
  forallb (fun e => negb (names id e)) evs = true →
  connected id c w = true →
  received c (outbox w') = received c (outbox w) ∧ connected id c w' = true.
Proof.
  revert w. induction evs as [|e evs IH]; intros w Hreach Hrun Hnot Hcon; simpl in Hrun.
  - injection Hrun as <-. split; [reflexivity | exact Hcon].
  - destruct (step e w) as [w1|] eqn:Hstep; [|discriminate].
    simpl in Hnot. apply andb_true_iff in Hnot as [He Hrest].
    apply negb_true_iff in He.
    assert (Hcon1 : connected id c w1 = true)
      by exact (step_keeps_connected e id c w w1 Hstep (names_not_close id c e He) Hcon).
    destruct (IH w1 (reachable_step e w w1 Hreach Hstep) Hrun Hrest Hcon1) as [Hrec Hc'].
    split; [|exact Hc'].
    rewrite Hrec.
    exact (step_no_cross_talk e id c w w1 (reachable_housed w Hreach) Hstep He Hcon).
Qed.

Lemma no_message_from_other_sessions_witness :
  match run [Upgrade "other" 7%nat;
             PostAppend "other" (JObj [("elements", JArr [rectangle "z"])]);
             Elapse 400000; PostClear "other"] lobby with
  | Some w' => received 1%nat (outbox w') = received 1%nat (outbox lobby)
               ∧ connected "demo" 1%nat w' = true
  | None => False
  end.
Proof.
  destruct (run _ lobby) as [w'|] eqn:Hrun.
  - exact (no_message_from_other_sessions _ "demo" 1%nat lobby w' lobby_reachable Hrun
             eq_refl eq_refl).
  - vm_compute in Hrun. discriminate.
Defined.

Lemma step_leaves_others (e : event) (id : string) (w w' : world) :
  step e w = Some w' → names id e = false → (∀ dt, e ≠ Elapse dt) →
  sessions w' !! id = sessions w !! id.
Proof.
  intros Hstep Hnot Htime. pose proof (step_edits e w w' Hstep) as Hed.
  assert (Hhandler : ∀ id', String.eqb id id' = false → edits id' w w' →
            sessions w' !! id = sessions w !! id).
  { intros id' Hne (_ & _ & _ & s' & Hss & _). rewrite Hss. apply lookup_insert_ne.
    intros ->. rewrite String.eqb_refl in Hne. discriminate. }
  destruct e as [id' ws | id' ws data | ws | id' ws | id' | id' body
                 | id' body | id' body | id' | dt]; simpl in Hnot;
    try (exact (Hhandler id' Hnot Hed)); simpl in Hstep.
  - destruct (sockets w !! ws); [discriminate|].
    destruct (on_upgrade id' ws _) as [[[u|e] w1]|] eqn:Hup; try discriminate.
    injection Hstep as <-.
    destruct (on_upgrade_frame _ _ _ _ _ Hup) as (_ & _ & _ & Hss).
    rewrite Hss. simpl. apply lookup_insert_ne.
    intros ->. rewrite String.eqb_refl in Hnot. discriminate.
  - destruct (sockets w !! ws) as [[]|]; try discriminate.
    injection Hstep as <-. reflexivity.
  - destruct (connected id' ws w); [|discriminate]. injection Hstep as <-.
    destruct (on_close_frame id' ws (set_sockets <[ws := CLOSED]> w)) as (_ & _ & Hss & _).
    rewrite Hss. simpl. apply lookup_alter_ne.
    intros ->. rewrite String.eqb_refl in Hnot. discriminate.
  - destruct (Htime dt eq_refl).
Qed.

(** Time that passes removes no session that has a client. *)
Lemma step_leaves_live_session (e : event) (id : string) (s : session) (w w' : world) :
  step e w = Some w' → names id e = false →
  sessions w !! id = Some s → clients s ≠ [] →
  sessions w' !! id = Some s.
Proof.
  intros Hstep Hnot Hs Hlive.
  destruct e as [id' ws | id' ws data | ws | id' ws | id' | id' body
                 | id' body | id' body | id' | dt];
    try (rewrite (step_leaves_others _ id w w' Hstep Hnot); [exact Hs | discriminate]).
  simpl in Hstep. destruct (0 <=? dt); [|discriminate]. injection Hstep as <-.
  exact (elapse_keeps dt id s w Hs Hlive).
Qed.

(** X11. A session that has a client is changed by its own events only:
    after any run of events none of which names [id] (requests and
    WebSocket events of other sessions, closing handshakes, time passing
    and the timers that fire), the map holds for [id] the very session it
    held: same scene, appState, viewport and client set. *)
Theorem others_leave_a_live_session_alone (evs : list event) (id : string) (s : session)
    (w w' : world) :
  run evs w = Some w' →
  forallb (fun e => negb (names id e)) evs = true →
  sessions w !! id = Some s →
  clients s ≠ [] →
  sessions w' !! id = Some s.
Proof.
  revert w. induction evs as [|e evs IH]; intros w Hrun Hnot Hs Hlive; simpl in Hrun.
  - injection Hrun as <-. exact Hs.
  - destruct (step e w) as [w1|] eqn:Hstep; [|discriminate].
    simpl in Hnot. apply andb_true_iff in Hnot as [He Hrest].
    apply negb_true_iff in He.
    exact (IH w1 Hrun Hrest (step_leaves_live_session e id s w w1 Hstep He Hs Hlive) Hlive).
Qed.

Lemma others_leave_a_live_session_alone_witness :
  match run [Upgrade "other" 7%nat;
             PostElements "other" (JObj [("elements", JArr [rectangle "z"])]);
             Close "other" 7%nat; Elapse 400000] solo with
  | Some w' => sessions w' !! "demo" = sessions solo !! "demo"
  | None => False
  end.
Proof.
  destruct (run _ solo) as [w'|] eqn:Hrun.
  - refine (others_leave_a_live_session_alone _ "demo" _ solo w' Hrun eq_refl eq_refl _).
    discriminate.
  - vm_compute in Hrun. discriminate.
Defined.

(** ** When a session leaves the map *)

Lemma cleanup_console (id : string) (x : log_line) (w : world) :
  In x (console w) → In x (console (cleanup id w)).
Proof.
  intros Hin. unfold cleanup. destruct (sessions w !! id) as [s|]; [|exact Hin].
  destruct (Nat.eqb (length (clients s)) 0); [|exact Hin].
  simpl. apply in_or_app. left. exact Hin.
Qed.

Lemma cleanups_console (l : list (Z * string)) (x : log_line) :
  ∀ w, In x (console w) →
       In x (console (fold_left (fun w '(_, id) => cleanup id w) l w)).
Proof.
  induction l as [|[d id] l IH]; intros w Hin; simpl; [exact Hin|].
  apply IH, cleanup_console, Hin.
Qed.

Lemma cleanups_removed (l : list (Z * string)) (id : string) (s : session) :
  ∀ w, sessions w !! id = Some s →
       sessions (fold_left (fun w '(_, id) => cleanup id w) l w) !! id = None →
       clients s = [] ∧ (∃ d, In (d, id) l)
       ∧ In (LogCleanedUp id)
            (console (fold_left (fun w '(_, id) => cleanup id w) l w)).
Proof.
  induction l as [|[d0 id0] l IH]; intros w Hs Hgone; simpl in *; [congruence|].
  pose proof (cleanup_lookup id0 id w) as Hlook. rewrite Hs in Hlook.
  destruct (decide (id0 = id)) as [->|Hne].
  - destruct (Nat.eqb (length (clients s)) 0) eqn:Hlen.
    + split; [|split].
      * apply Nat.eqb_eq in Hlen. destruct (clients s); [reflexivity | discriminate].
      * exists d0. left. reflexivity.
      * apply cleanups_console. unfold cleanup. rewrite Hs, Hlen. simpl.
        apply in_or_app. right. left. reflexivity.
    + destruct (IH _ Hlook Hgone) as (H1 & (d & H2) & H3).
      split; [exact H1|]. split; [exists d; right; exact H2 | exact H3].
  - destruct (IH _ Hlook Hgone) as (H1 & (d & H2) & H3).
    split; [exact H1|]. split; [exists d; right; exact H2 | exact H3].
Qed.

(** X12. A session leaves the map in one way only: time passes, the
    session has no client then, and a timer set for it by a close has
    come due; the removal is logged.  No request, no WebSocket event and
    no timer removes a session that has a client. *)
Theorem session_leaves_only_by_its_timer (e : event) (id : string) (s : session)
    (w w' : world) :
  step e w = Some w' →
  sessions w !! id = Some s →
  sessions w' !! id = None →
  clients s = []
  ∧ (∃ dt d, e = Elapse dt ∧ In (d, id) (timers w) ∧ d ≤ clock w' ∧ clock w' = clock w + dt)
  ∧ In (LogCleanedUp id) (console w').
Proof.
  intros Hstep Hs Hgone.
  assert (Hkept : ∀ id', edits id' w w' → False).
  { intros id' (_ & _ & _ & s' & Hss & _). rewrite Hss in Hgone.
    destruct (decide (id' = id)) as [->|Hne].
    - rewrite lookup_insert_eq in Hgone. discriminate.
    - rewrite lookup_insert_ne in Hgone by exact Hne. congruence. }
  pose proof (step_edits e w w' Hstep) as Hed.
  destruct e as [id' ws | id' ws data | ws | id' ws | id' | id' body
                 | id' body | id' body | id' | dt];
    try (destruct (Hkept id' Hed)); simpl in Hstep.
  - destruct (sockets w !! ws); [discriminate|].
    destruct (on_upgrade id' ws _) as [[[u|e] w1]|] eqn:Hup; try discriminate.
    injection Hstep as <-.
    destruct (on_upgrade_frame _ _ _ _ _ Hup) as (_ & _ & _ & Hss).
    rewrite Hss in Hgone. simpl in Hgone.
    destruct (decide (id' = id)) as [->|Hne].
    + rewrite lookup_insert_eq in Hgone. discriminate.
    + rewrite lookup_insert_ne in Hgone by exact Hne. congruence.
  - destruct (sockets w !! ws) as [[]|]; try discriminate.
    injection Hstep as <-. simpl in Hgone. congruence.
  - destruct (connected id' ws w); [|discriminate]. injection Hstep as <-.
    destruct (on_close_frame id' ws (set_sockets <[ws := CLOSED]> w)) as (_ & _ & Hss & _).
    rewrite Hss in Hgone. simpl in Hgone.
    destruct (decide (id' = id)) as [->|Hne].
    + rewrite lookup_alter_eq, Hs in Hgone. discriminate.
    + rewrite lookup_alter_ne in Hgone by exact Hne. congruence.
  - destruct (0 <=? dt); [|discriminate]. injection Hstep as <-.
    unfold elapse in *. simpl in Hgone. simpl console. simpl clock.
    destruct (cleanups_removed _ id s (set_timers _ w) Hs Hgone)
      as (Hempty & (d & Hd) & Hlog).
    apply filter_In in Hd as [Hd Hdue]. apply Z.leb_le in Hdue.
    split; [exact Hempty|]. split; [|exact Hlog].
    exists dt, d. repeat split; [exact Hd | exact Hdue].
Qed.

Lemma session_leaves_only_by_its_timer_witness :
  clients (session_of "demo" solo_closed) = []
  ∧ In (LogCleanedUp "demo") (console (elapse 300000 solo_closed)).
Proof.
  destruct (session_leaves_only_by_its_timer (Elapse 300000) "demo"
              (session_of "demo" solo_closed) solo_closed (elapse 300000 solo_closed)
              eq_refl eq_refl eq_refl) as (H1 & _ & H3).
  split; [exact H1 | exact H3].
Defined.

(** ** What every stored viewport has *)

Section Keeps.
Variable P : session → Prop.
Variable id : string.

Lemma keeps_bind {A B : Type} (m : handler A) (k : A → handler B) :
  keeps P id m → (∀ a, keeps P id (k a)) → keeps P id (m ≫= k).
Proof.
  intros Hm Hk s msgs w Hs. rewrite run_bind.
  destruct (Hm s msgs w Hs) as (s1 & msgs1 & H1 & Hp1).
  destruct (m (commit id s msgs w)) as [[a|e] st]; simpl in H1; subst st.
  - exact (Hk a s1 msgs1 w Hp1).
  - exists s1, msgs1. split; [reflexivity | exact Hp1].
Qed.

(** What follows a computation that touches no state may rely on its
    result. *)
Lemma keeps_lift_bind {A B : Type} (c : completion A) (k : A → handler B) :
  (∀ a, c = Returned a → keeps P id (k a)) → keeps P id (lift c ≫= k).
Proof.
  intros Hk s msgs w Hs. rewrite run_bind, run_lift.
  destruct c as [a|e].
  - exact (Hk a eq_refl s msgs w Hs).
  - exists s, msgs. split; [reflexivity | exact Hs].
Qed.

Lemma keeps_silent {A : Type} (m : handler A) :
  (∀ s msgs w, snd (m (commit id s msgs w)) = commit id s msgs w) → keeps P id m.
Proof. intros H s msgs w Hs. exists s, msgs. split; [apply H | exact Hs]. Qed.

Lemma keeps_lift {A : Type} (c : completion A) : keeps P id (lift c).
Proof. apply keeps_silent. reflexivity. Qed.

Lemma keeps_ret {A : Type} (a : A) : keeps P id (mret a : handler A).
Proof. apply keeps_silent. reflexivity. Qed.

Lemma keeps_skip : keeps P id (skip : handler unit).
Proof. apply keeps_ret. Qed.

Lemma keeps_deref {A : Type} (field : session → A) : keeps P id (deref id field).
Proof. apply keeps_silent. intros s msgs w. rewrite deref_commit. reflexivity. Qed.

Lemma keeps_assign (f : session → session) :
  (∀ s, P s → P (f s)) → keeps P id (assign id f).
Proof.
  intros Hf s msgs w Hs. exists (f s), msgs. rewrite assign_commit.
  split; [reflexivity | apply Hf, Hs].
Qed.

Lemma keeps_broadcast (msg : server_msg) : keeps P id (broadcast id msg).
Proof.
  intros s msgs w Hs. eexists s, _. rewrite broadcast_commit.
  split; [reflexivity | exact Hs].
Qed.

Lemma keeps_relay (ws : conn) (msg : server_msg) : keeps P id (effect (relay id ws msg)).
Proof.
  intros s msgs w Hs. eexists s, _. unfold effect. simpl snd. rewrite relay_commit.
  split; [reflexivity | exact Hs].
Qed.

End Keeps.

Lemma sized_or (a b c d : jsval) :
  sized (Camera.make a b (js_or c (JNum 800)) (js_or d (JNum 600))).
Proof.
  unfold sized, js_or. simpl.
  destruct (truthy c) eqn:Hc, (truthy d) eqn:Hd; rewrite ?Hc, ?Hd; split; reflexivity.
Qed.

Lemma sized_camera_of (el : jsval) : sized (camera_of el).
Proof. destruct el; try apply sized_or; split; reflexivity. Qed.

Lemma sized_partition (items : list jsval) :
  ∀ camera, In camera (viewports (partition_of items)) → sized camera.
Proof.
  unfold partition_of. cbn [viewports]. intros camera Hin.
  apply in_map_iff in Hin as (el & <- & _). apply sized_camera_of.
Qed.

Lemma last_In {A : Type} (l : list A) (a : A) : last l = Some a → In a l.
Proof.
  intros H. apply last_Some in H as (l' & ->). apply in_or_app. right. left. reflexivity.
Qed.

Lemma keeps_apply_viewports (id : string) (cams : list Camera.t) :
  (∀ camera, In camera cams → sized camera) →
  keeps viewport_sized id (apply_viewports id cams).
Proof.
  intros Hall s msgs w Hs. eexists _, _. rewrite apply_viewports_framed.
  split; [reflexivity|]. unfold framed. destruct (last cams) as [camera|] eqn:Hlast.
  - intros cam Hcam. simpl in Hcam. injection Hcam as <-.
    apply Hall, last_In, Hlast.
  - exact Hs.
Qed.

Lemma viewport_sized_with_elements (v : jsval) (s : session) :
  viewport_sized s → viewport_sized (with_elements v s).
Proof. destruct s. trivial. Qed.

Lemma viewport_sized_with_appState (v : jsval) (s : session) :
  viewport_sized s → viewport_sized (with_appState v s).
Proof. destruct s. trivial. Qed.

Lemma viewport_sized_with_clients (l : list conn) (s : session) :
  viewport_sized s → viewport_sized (with_clients l s).
Proof. destruct s. trivial. Qed.

Lemma viewport_sized_none (s : session) : viewport_sized (with_viewport None s).
Proof. intros camera H. destruct s. discriminate. Qed.

Ltac keeps_step :=
  first
    [ apply keeps_lift_bind; intros ? ?
    | apply keeps_bind; [|intros ?]
    | apply keeps_lift
    | apply keeps_ret
    | apply keeps_skip
    | apply keeps_deref
    | apply keeps_broadcast
    | apply keeps_relay
    | apply keeps_assign; intros ? ?;
      first [ apply viewport_sized_with_elements; assumption
            | apply viewport_sized_with_appState; assumption
            | apply viewport_sized_none ]
    | match goal with
      | |- keeps _ _ (if ?b then _ else _) => destruct b
      end ].

Ltac keeps_all := repeat keeps_step.

Lemma keeps_after_getSession {A : Type} (id : string) (k : unit → handler A) (w : world) :
  (∀ u, keeps viewport_sized id (k u)) →
  viewport_sized (session_of id w) →
  ∃ s' msgs', snd ((getSession id ≫= k) w) = commit id s' msgs' w ∧ viewport_sized s'.
Proof.
  intros Hk Hs. rewrite run_bind, getSession_commit. exact (Hk tt _ [] w Hs).
Qed.

Lemma extraction_sized (v : jsval) (ex : extraction) :
  extractViewportUpdates v = Returned ex →
  ∀ camera, In camera (viewports ex) → sized camera.
Proof.
  intros Hex. destruct (extract_returns_partition _ _ Hex) as (items & _ & ->).
  apply sized_partition.
Qed.

Lemma post_elements_sized (id : string) (body : jsval) (w : world) :
  viewport_sized (session_of id w) →
  ∃ s' msgs', snd (post_elements id body w) = commit id s' msgs' w ∧ viewport_sized s'.
Proof.
  apply keeps_after_getSession. intros u. keeps_all.
  apply keeps_apply_viewports. eapply extraction_sized. eassumption.
Qed.

Lemma post_append_sized (id : string) (body : jsval) (w : world) :
  viewport_sized (session_of id w) →
  ∃ s' msgs', snd (post_append id body w) = commit id s' msgs' w ∧ viewport_sized s'.
Proof.
  apply keeps_after_getSession. intros u. keeps_all;
    try (apply keeps_apply_viewports; eapply extraction_sized; eassumption).
Qed.

Lemma post_viewport_sized (id : string) (body : jsval) (w : world) :
  viewport_sized (session_of id w) →
  ∃ s' msgs', snd (post_viewport id body w) = commit id s' msgs' w ∧ viewport_sized s'.
Proof.
  apply keeps_after_getSession. intros u. keeps_all.
  apply keeps_assign. intros s _ camera Hc. destruct s. simpl in Hc.
  injection Hc as <-. apply sized_or.
Qed.

Lemma post_clear_sized (id : string) (w : world) :
  viewport_sized (session_of id w) →
  ∃ s' msgs', snd (post_clear id w) = commit id s' msgs' w ∧ viewport_sized s'.
Proof. apply keeps_after_getSession. intros u. keeps_all. Qed.

Lemma get_session_sized (id : string) (w : world) :
  viewport_sized (session_of id w) →
  ∃ s' msgs', snd (get_session id w) = commit id s' msgs' w ∧ viewport_sized s'.
Proof. apply keeps_after_getSession. intros u. keeps_all. Qed.

Lemma sized_session_of (id : string) (w : world) :
  viewports_sized w → viewport_sized (session_of id w).
Proof.
  intros Hw. unfold session_of. destruct (sessions w !! id) as [s|] eqn:Hs; simpl.
  - exact (Hw id s Hs).
  - intros camera H. discriminate.
Qed.

Lemma commit_sized (id : string) (s' : session) (msgs' : list (conn * server_msg))
    (w : world) :
  viewports_sized w → viewport_sized s' → viewports_sized (commit id s' msgs' w).
Proof.
  intros Hw Hs' id0 s0 Hs0. unfold commit in Hs0. simpl in Hs0.
  destruct (decide (id = id0)) as [<-|Hne].
  - rewrite lookup_insert_eq in Hs0. injection Hs0 as <-. exact Hs'.
  - rewrite lookup_insert_ne in Hs0 by exact Hne. eauto.
Qed.

Lemma on_message_sized (id : string) (ws : conn) (data : frame) (s : session) (w : world) :
  sessions w !! id = Some s → viewports_sized w →
  viewports_sized (on_message id ws data w).
Proof.
  intros Hs Hw.
  assert (Hk : keeps viewport_sized id (try_message id ws data))
    by (unfold try_message; keeps_all).
  destruct (Hk s [] w (Hw id s Hs)) as (s' & msgs' & H & Hp).
  rewrite (commit_present id s w Hs) in H. unfold on_message.
  destruct (try_message id ws data w) as [[u|e] w1]; simpl in H; subst w1.
  - apply commit_sized; assumption.
  - exact (commit_sized id s' msgs' w Hw Hp).
Qed.

Lemma step_sized (e : event) (w w' : world) :
  viewports_sized w → step e w = Some w' → viewports_sized w'.
Proof.
  intros Hw Hstep.
  destruct e as [id ws | id ws data | ws | id ws | id | id body
                 | id body | id body | id | dt]; simpl in Hstep.
  - destruct (sockets w !! ws); [discriminate|].
    destruct (on_upgrade id ws _) as [[[u|e] w1]|] eqn:Hup; try discriminate.
    injection Hstep as <-.
    destruct (on_upgrade_frame _ _ _ _ _ Hup) as (_ & _ & _ & Hss).
    intros id0 s0 Hs0. rewrite Hss in Hs0.
    destruct (decide (id = id0)) as [<-|Hne].
    + rewrite lookup_insert_eq in Hs0. injection Hs0 as <-.
      apply viewport_sized_with_clients. apply (sized_session_of id w Hw).
    + rewrite lookup_insert_ne in Hs0 by exact Hne. apply (Hw id0). exact Hs0.
  - destruct (connected id ws w) eqn:Hcon; [|discriminate]. injection Hstep as <-.
    destruct (connected_present _ _ _ Hcon) as (s & Hs & _).
    exact (on_message_sized id ws data s w Hs Hw).
  - destruct (sockets w !! ws) as [[]|]; try discriminate.
    injection Hstep as <-. exact Hw.
  - destruct (connected id ws w); [|discriminate]. injection Hstep as <-.
    destruct (on_close_frame id ws (set_sockets <[ws := CLOSED]> w)) as (_ & _ & Hss & _).
    intros id0 s0 Hs0. rewrite Hss in Hs0. simpl in Hs0.
    destruct (decide (id = id0)) as [<-|Hne].
    + rewrite lookup_alter_eq in Hs0.
      destruct (sessions w !! id) as [s|] eqn:Hs; [|discriminate].
      injection Hs0 as <-. apply viewport_sized_with_clients. exact (Hw id s Hs).
    + rewrite lookup_alter_ne in Hs0 by exact Hne. eauto.
  - injection Hstep as <-.
    destruct (get_session_sized id w (sized_session_of id w Hw)) as (s' & msgs' & -> & Hs').
    apply commit_sized; assumption.
  - injection Hstep as <-.
    destruct (post_elements_sized id body w (sized_session_of id w Hw))
      as (s' & msgs' & -> & Hs'). apply commit_sized; assumption.
  - injection Hstep as <-.
    destruct (post_append_sized id body w (sized_session_of id w Hw))
      as (s' & msgs' & -> & Hs'). apply commit_sized; assumption.
  - injection Hstep as <-.
    destruct (post_viewport_sized id body w (sized_session_of id w Hw))
      as (s' & msgs' & -> & Hs'). apply commit_sized; assumption.
  - injection Hstep as <-.
    destruct (post_clear_sized id w (sized_session_of id w Hw))
      as (s' & msgs' & -> & Hs'). apply commit_sized; assumption.
  - destruct (0 <=? dt); [|discriminate]. injection Hstep as <-.
    intros id0 s0 Hs0. apply elapse_sub in Hs0. eauto.
Qed.

(** X13. The viewport a session holds always has a size: in every state
    the server can reach, by whatever requests, frames, closes and timers,
    the width and the height of a session's viewport are truthy, never
    [0], [null], missing or an empty string (the extraction and the
    viewport route put 800 and 600 there instead), and no WebSocket frame
    can change a viewport. *)
Theorem stored_viewport_has_a_size (w : world) (id : string) (s : session)
    (camera : Camera.t) :
  reachable w →
  sessions w !! id = Some s →
  viewport s = Some camera →
  truthy (Camera.width camera) = true ∧ truthy (Camera.height camera) = true.
Proof.
  intros (evs & Hrun) Hs Hcam.
  assert (Hall : ∀ evs w0 w1, viewports_sized w0 → run evs w0 = Some w1 → viewports_sized w1).
  { clear. induction evs as [|e evs IH]; intros w0 w1 Hw0 Hrun; simpl in Hrun.
    - injection Hrun as <-. exact Hw0.
    - destruct (step e w0) as [w2|] eqn:Hstep; [|discriminate].
      exact (IH w2 w1 (step_sized e w0 w2 Hw0 Hstep) Hrun). }
  assert (Hboot : viewports_sized boot).
  { intros id0 s0 Hs0. simpl in Hs0. rewrite lookup_empty in Hs0. discriminate. }
  exact (Hall evs boot w Hboot Hrun id s Hs camera Hcam).
Qed.

Lemma stored_viewport_has_a_size_witness :
  truthy (Camera.width (Camera.make (JNum 0) (JNum 0) (JNum 800) (JNum 600))) = true
  ∧ truthy (Camera.height (Camera.make (JNum 0) (JNum 0) (JNum 800) (JNum 600))) = true.
Proof.
  refine (stored_viewport_has_a_size framed_demo "demo" (session_of "demo" framed_demo)
            _ _ _ _).
  - exists [PostViewport "demo" (JObj [])]. reflexivity.
  - vm_compute. reflexivity.
  - vm_compute. reflexivity.
Defined.

(** ** Leaving a session *)

Lemma existsb_set_delete_self (c : conn) (l : list conn) :
  existsb (Nat.eqb c) (set_delete c l) = false.
Proof.
  unfold set_delete. induction l as [|c' l IH]; simpl; [reflexivity|].
  destruct (Nat.eqb c c') eqn:Heq; simpl; [exact IH|]. rewrite Heq. exact IH.
Qed.

Lemma existsb_set_delete_other (c c0 : conn) (l : list conn) :
  c ≠ c0 → existsb (Nat.eqb c) (set_delete c0 l) = existsb (Nat.eqb c) l.
Proof.
  intros Hne. unfold set_delete. induction l as [|c' l IH]; simpl; [reflexivity|].
  destruct (Nat.eqb c0 c') eqn:Heq; simpl.
  - apply Nat.eqb_eq in Heq. subst c'.
    apply Nat.eqb_neq in Hne. rewrite Hne. exact IH.
  - rewrite IH. reflexivity.
Qed.

(** X14. When the connection [ws] of the session [id] closes, it alone
    leaves the client set, its socket is closed, nothing is sent, and the
    session stays in the map with its scene, appState and viewport, also
    when [ws] was its last client.  A cleanup is scheduled exactly when no
    client is left, for five minutes later; the timers already set all
    stay. *)
Theorem close_removes_only_that_client (id : string) (ws : conn) (w : world) :
  connected id ws w = true →
  let s := session_of id w in
  ∃ w', step (Close id ws) w = Some w'
        ∧ connected id ws w' = false
        ∧ (∀ c, c ≠ ws → connected id c w' = connected id c w)
        ∧ is_open w' ws = false
        ∧ outbox w' = outbox w
        ∧ sessions w' !! id = Some (with_clients (set_delete ws (clients s)) s)
        ∧ (∀ id', id' ≠ id → sessions w' !! id' = sessions w !! id')
        ∧ timers w' = (if Nat.eqb (length (set_delete ws (clients s))) 0
                       then enqueue (clock w + idle_window) id (timers w)
                       else timers w)
        ∧ (∀ t, In t (timers w) → In t (timers w'))
        ∧ clock w' = clock w.
Proof.
  intros Hcon s. simpl. rewrite Hcon. eexists. split; [reflexivity|].
  destruct (connected_present _ _ _ Hcon) as (s0 & Hs & Hin).
  assert (Hs0 : s = s0) by (unfold s; apply session_of_present; exact Hs).
  set (w1 := set_sockets <[ws := CLOSED]> w).
  destruct (on_close_frame id ws w1) as (Hso & Hcl & Hss & Htimers).
  assert (Hlook : sessions (on_close id ws w1) !! id
                  = Some (with_clients (set_delete ws (clients s)) s)).
  { rewrite Hss. simpl. rewrite lookup_alter_eq, Hs, Hs0. reflexivity. }
  split; [|split; [|split; [|split; [|split; [|split; [|split; [|split]]]]]]].
  - unfold connected. rewrite Hlook. simpl. apply existsb_set_delete_self.
  - intros c Hne. unfold connected. rewrite Hlook, Hs. simpl. rewrite Hs0.
    apply existsb_set_delete_other. exact Hne.
  - unfold is_open. rewrite Hso. simpl. rewrite lookup_insert_eq. reflexivity.
  - exact (on_close_outbox id ws w1).
  - exact Hlook.
  - intros id' Hne. rewrite Hss. simpl. apply lookup_alter_ne. congruence.
  - unfold on_close.
    assert (Hafter : session_of id
              (log (LogDisconnected id
                      (length (clients (session_of id
                         (set_sessions
                            (alter (fun s => with_clients (set_delete ws (clients s)) s) id)
                            w1)))))
                 (set_sessions
                    (alter (fun s => with_clients (set_delete ws (clients s)) s) id) w1))
              = with_clients (set_delete ws (clients s)) s).
    { unfold session_of. simpl. rewrite lookup_alter_eq, Hs, Hs0. reflexivity. }
    rewrite Hafter. simpl. destruct (Nat.eqb _ 0); reflexivity.
  - exact Htimers.
  - exact Hcl.
Qed.

Lemma close_removes_only_that_client_witness :
  ∃ w', step (Close "demo" 1%nat) solo = Some w'
        ∧ connected "demo" 1%nat w' = false
        ∧ timers w' = [(305000, "demo")].
Proof.
  destruct (close_removes_only_that_client "demo" 1%nat solo eq_refl)
    as (w' & Hstep & Hgone & _ & _ & _ & _ & _ & Ht & _).
  exists w'. split; [exact Hstep|]. split; [exact Hgone | exact Ht].
Defined.

(** ** Paths, data URLs and object keys *)

Lemma append_nil (r : string) : "" ++ r = r.
Proof. reflexivity. Qed.

Lemma append_cons (a : ascii) (p r : string) : String a p ++ r = String a (p ++ r).
Proof. reflexivity. Qed.

Ltac unroll := rewrite ?append_cons, ?append_nil in *.

Lemma strip_prefix_Some (p s rest : string) :
  Spaces.strip_prefix p s = Some rest ↔ s = p ++ rest.
Proof.
  revert s. induction p as [|a p IH]; intros s; simpl; unroll.
  - split; congruence.
  - destruct s as [|b s].
    + split; discriminate.
    + destruct (Ascii.eqb a b) eqn:Hab.
      * apply Ascii.eqb_eq in Hab. subst b. rewrite IH. split; congruence.
      * apply Ascii.eqb_neq in Hab. split; [discriminate | congruence].
Qed.

Lemma until_semicolon_Some (s run tail : string) :
  Spaces.until_semicolon s = Some (run, tail) ↔
  s = run ++ tail ∧ has_char ";" run = false ∧ ∃ t, tail = String ";" t.
Proof.
  revert run. induction s as [|c s IH]; intros run; simpl.
  - split; [discriminate|]. intros (Hs & _ & t & ->). destruct run; unroll; discriminate.
  - destruct (Ascii.eqb c ";") eqn:Hc.
    + apply Ascii.eqb_eq in Hc. subst c. split.
      * intros H. injection H as <- <-. repeat split. eauto.
      * intros (Hs & Hrun & t & ->). destruct run as [|a run]; unroll.
        -- congruence.
        -- simpl in Hrun. injection Hs as <- _.
           rewrite Ascii.eqb_refl in Hrun. discriminate.
    + split.
      * destruct (Spaces.until_semicolon s) as [[run' tail']|] eqn:Hu; [|discriminate].
        intros H. injection H as <- <-.
        destruct (proj1 (IH run') eq_refl) as (-> & Hrun & Ht).
        simpl. rewrite Hc. unroll. auto.
      * intros (Hs & Hrun & t & ->). destruct run as [|a run]; unroll.
        -- injection Hs as -> _. rewrite Ascii.eqb_refl in Hc. discriminate.
        -- simpl in Hrun. injection Hs as <- ->.
           apply orb_false_iff in Hrun as [_ Hrun].
           rewrite (proj2 (IH run) (conj eq_refl (conj Hrun (ex_intro _ t eq_refl)))).
           reflexivity.
Qed.

Lemma string_eqb_empty (s : string) : String.eqb s "" = false ↔ s ≠ "".
Proof. apply String.eqb_neq. Qed.

(** X15. The data URLs [uploadFile] accepts are exactly the texts
    [data:<type>;base64,<payload>] with a non-empty type that holds no
    [;] and a non-empty payload without a line terminator; the payload is
    what is captured.  The type named in the URL and the alphabet of the
    payload are not looked at. *)
Theorem dataURL_is_matched_exactly (dataURL payload : string) :
  Spaces.match_dataURL dataURL = Some payload ↔
  ∃ type, dataURL = "data:" ++ type ++ ";base64," ++ payload
          ∧ type ≠ "" ∧ has_char ";" type = false
          ∧ payload ≠ "" ∧ Spaces.dot_matches_all payload = true.
Proof.
  unfold Spaces.match_dataURL. split.
  - destruct (Spaces.strip_prefix "data:" dataURL) as [rest|] eqn:Hrest; [|discriminate].
    apply strip_prefix_Some in Hrest.
    destruct (Spaces.until_semicolon rest) as [[run tail]|] eqn:Hrun; [|discriminate].
    apply until_semicolon_Some in Hrun as (Hsplit & Hnone & _).
    destruct (String.eqb run "") eqn:Hne; [discriminate|].
    destruct (Spaces.strip_prefix ";base64," tail) as [p|] eqn:Htail; [|discriminate].
    apply strip_prefix_Some in Htail.
    destruct (String.eqb p "") eqn:Hp; [discriminate|].
    destruct (Spaces.dot_matches_all p) eqn:Hdot; [|discriminate].
    intros H. injection H as <-. exists run.
    split; [congruence|]. split; [apply string_eqb_empty, Hne|].
    split; [exact Hnone|]. split; [apply string_eqb_empty, Hp | exact Hdot].
  - intros (type & -> & Htype & Hnone & Hp & Hdot).
    rewrite (proj2 (strip_prefix_Some "data:" _ (type ++ ";base64," ++ payload)) eq_refl).
    rewrite (proj2 (until_semicolon_Some (type ++ ";base64," ++ payload) type
                      (";base64," ++ payload))
               (conj eq_refl (conj Hnone (ex_intro _ _ eq_refl)))).
    rewrite (proj2 (string_eqb_empty type) Htype).
    rewrite (proj2 (strip_prefix_Some ";base64," _ payload) eq_refl).
    rewrite (proj2 (string_eqb_empty payload) Hp), Hdot. reflexivity.
Qed.

(** X16. The upload refuses to run rather than guess.  [initSpacesClient]
    succeeds exactly when the access key, the secret key and the bucket are
    all set and non-empty; then the module is enabled, with the CDN base
    built from the bucket and the region ([nyc3] by default).  When it
    fails it changes nothing: a module that was enabled stays enabled with
    its old settings.  Until the module is enabled every [uploadFile] is
    rejected with [Spaces client not initialized], and on an enabled
    module a data URL that does not match is rejected with
    [Invalid dataURL format]; in both cases no command reaches the
    store. *)
Theorem upload_refuses_before_any_command {B : Type} `{Spaces.S3 B}
    (env : Spaces.environment) (m : Spaces.module_state)
    (sessionId fileId dataURL mimeType : string) (st : Spaces.io B) :
  let r := Spaces.initSpacesClient env m in
  (fst r = true ↔
     is_Some (Spaces.present (Spaces.DO_SPACES_ACCESS_KEY env))
     ∧ is_Some (Spaces.present (Spaces.DO_SPACES_SECRET_KEY env))
     ∧ is_Some (Spaces.present (Spaces.DO_SPACES_BUCKET env)))
  ∧ (fst r = true →
     Spaces.isSpacesEnabled (snd r) = true
     ∧ ∃ cfg, Spaces.spacesConfig (snd r) = Some cfg
              ∧ Spaces.present (Spaces.DO_SPACES_BUCKET env) = Some (Spaces.bucket cfg)
              ∧ Spaces.region cfg
                = default "nyc3" (Spaces.present (Spaces.DO_SPACES_REGION env))
              ∧ Spaces.cdnBase cfg
                = "https://" ++ Spaces.bucket cfg ++ "." ++ Spaces.region cfg
                    ++ ".digitaloceanspaces.com")
  ∧ (fst r = false → snd r = m)
  ∧ (Spaces.isSpacesEnabled m = false →
     Spaces.uploadFile m sessionId fileId dataURL mimeType st
     = (Thrown (Error "Spaces client not initialized"), st))
  ∧ (Spaces.isSpacesEnabled m = true → Spaces.match_dataURL dataURL = None →
     Spaces.uploadFile m sessionId fileId dataURL mimeType st
     = (Thrown (Error "Invalid dataURL format"), st)).
Proof.
  intros r. subst r.
  split; [|split; [|split; [|split]]].
  - unfold Spaces.initSpacesClient.
    destruct (Spaces.present (Spaces.DO_SPACES_ACCESS_KEY env)) as [a|];
      destruct (Spaces.present (Spaces.DO_SPACES_SECRET_KEY env)) as [s|];
      destruct (Spaces.present (Spaces.DO_SPACES_BUCKET env)) as [b|]; simpl;
      (split; [intros Ht; try discriminate; repeat split; eauto|]);
      intros (Ha & Hs & Hb); try reflexivity;
      first [ apply is_Some_None in Ha | apply is_Some_None in Hs
            | apply is_Some_None in Hb ]; contradiction.
  - unfold Spaces.initSpacesClient.
    destruct (Spaces.present (Spaces.DO_SPACES_ACCESS_KEY env)) as [a|];
      destruct (Spaces.present (Spaces.DO_SPACES_SECRET_KEY env)) as [s|];
      destruct (Spaces.present (Spaces.DO_SPACES_BUCKET env)) as [b|]; simpl;
      intros Ht; try discriminate.
    split; [reflexivity|]. eexists. repeat split; reflexivity.
  - unfold Spaces.initSpacesClient.
    destruct (Spaces.present (Spaces.DO_SPACES_ACCESS_KEY env)) as [a|];
      destruct (Spaces.present (Spaces.DO_SPACES_SECRET_KEY env)) as [s|];
      destruct (Spaces.present (Spaces.DO_SPACES_BUCKET env)) as [b|]; simpl;
      intros Ht; try discriminate; reflexivity.
  - unfold Spaces.isSpacesEnabled, Spaces.uploadFile.
    destruct (Spaces.s3Client m), (Spaces.spacesConfig m);
      intros He; try discriminate; reflexivity.
  - unfold Spaces.isSpacesEnabled, Spaces.uploadFile.
    destruct (Spaces.s3Client m), (Spaces.spacesConfig m);
      intros He Hu; try discriminate. rewrite Hu. reflexivity.
Qed.









(** X18. The upgrade route takes a path apart in one way: a request is
    accepted exactly when its path is [/ws/] followed by a non-empty text
    on one line, and that whole text, any [/] in it included, is the
    session id.  Any other path leaves the server as it was; an accepted
    one is the upgrade of that session. *)
Theorem upgrade_route_is_exact (pathname : option string) (id : string) (ws : conn)
    (w : world) :
  (ws_route pathname = Some id ↔
     pathname = Some ("/ws/" ++ id) ∧ id ≠ "" ∧ Spaces.dot_matches_all id = true)
  ∧ (ws_route pathname = None → upgrade_request pathname ws w = Some w)
  ∧ (ws_route pathname = Some id →
     upgrade_request pathname ws w = step (Upgrade id ws) w).
Proof.
  split; [|split].
  - unfold ws_route. split.
    + destruct pathname as [path|]; [|discriminate].
      destruct (Spaces.strip_prefix "/ws/" path) as [rest|] eqn:Hrest; [|discriminate].
      apply strip_prefix_Some in Hrest.
      destruct (String.eqb rest "") eqn:Hne; [discriminate|].
      destruct (Spaces.dot_matches_all rest) eqn:Hdot; [|discriminate].
      intros H. injection H as <-.
      split; [congruence|]. split; [apply string_eqb_empty, Hne | exact Hdot].
    + intros (-> & Hne & Hdot).
      rewrite (proj2 (strip_prefix_Some "/ws/" _ id) eq_refl).
      rewrite (proj2 (string_eqb_empty id) Hne), Hdot. reflexivity.
  - unfold upgrade_request. intros ->. reflexivity.
  - unfold upgrade_request. intros ->. reflexivity.
Qed.

(** ** The client's conversion test *)

Lemma some_has_label_false (items : list jsval) :
  Client.some Client.has_label items = Returned false ↔
  forallb (fun el => negb (nullish el)
                     && match el with
                        | JObj members => negb (truthy (own_member "label" members))
                        | _ => true
                        end) items = true.
Proof.
  induction items as [|el items IH]; simpl; [tauto|].
  unfold Client.has_label. unfold_monad.
  destruct el as [| |b|f|s|l|members]; simpl; try (split; discriminate); try exact IH.
  destruct (truthy (own_member "label" members)); simpl; [split; discriminate | exact IH].
Qed.

Lemma some_lacks_seed_false (items : list jsval) :
  Client.some Client.lacks_seed items = Returned false ↔
  forallb (fun el => match el with
                     | JObj members => truthy (own_member "seed" members)
                     | _ => false
                     end) items = true.
Proof.
  induction items as [|el items IH]; simpl; [tauto|].
  unfold Client.lacks_seed. unfold_monad.
  destruct el as [| |b|f|s|l|members]; simpl; try (split; discriminate).
  destruct (truthy (own_member "seed" members)); simpl; [exact IH | split; discriminate].
Qed.

(** X19. The client and the export script leave a list of elements as it
    is exactly when every element is finished: an object with a truthy
    [seed] and no truthy [label].  The test answers [false] for those
    lists and for no other (for any other it answers [true] or throws on a
    [null] item); then [sanitizeElements] returns the list itself,
    whatever the converter would do.  It returns the list itself also when
    the fonts fail to load or the converter throws, and the empty list for
    what is not an array: it never throws. *)
Theorem finished_elements_pass_through (fonts : completion unit)
    (convert : list jsval → completion (list jsval)) (items : list jsval) :
  (Client.needsConversion items = Returned false ↔ forallb Client.finished items = true)
  ∧ (forallb Client.finished items = true →
     Client.sanitizeElements fonts convert (JArr items) = items)
  ∧ ((∃ e, fonts = Thrown e) ∨ (∃ e, convert items = Thrown e) →
     Client.sanitizeElements fonts convert (JArr items) = items)
  ∧ (fonts = Returned tt → Client.needsConversion items = Returned true →
     ∀ result, convert items = Returned result →
       Client.sanitizeElements fonts convert (JArr items) = result)
  ∧ (∀ v, (∀ l, v ≠ JArr l) → Client.sanitizeElements fonts convert v = []).
Proof.
  assert (Hiff : Client.needsConversion items = Returned false ↔
                 forallb Client.finished items = true).
  { unfold Client.needsConversion. unfold_monad.
    pose proof (some_has_label_false items) as Hl.
    pose proof (some_lacks_seed_false items) as Hs.
    assert (Hboth : forallb Client.finished items = true ↔
              forallb (fun el => negb (nullish el)
                         && match el with
                            | JObj members => negb (truthy (own_member "label" members))
                            | _ => true
                            end) items = true
              ∧ forallb (fun el => match el with
                                   | JObj members => truthy (own_member "seed" members)
                                   | _ => false
                                   end) items = true).
    { clear. induction items as [|el items IH]; simpl; [tauto|].
      rewrite !andb_true_iff, IH.
      destruct el as [| |b|f|s|l|members]; simpl; try (split; intros; intuition discriminate).
      rewrite andb_true_iff. tauto. }
    rewrite Hboth, <- Hl, <- Hs.
    destruct (Client.some Client.has_label items) as [[]|e];
      [split; [discriminate | intros [H _]; discriminate] | | split;
        [discriminate | intros [H _]; discriminate]].
    destruct (Client.some Client.lacks_seed items) as [[]|e];
      [split; [discriminate | intros [_ H]; discriminate] | tauto
      | split; [discriminate | intros [_ H]; discriminate]]. }
  split; [exact Hiff|]. split; [|split; [|split]].
  - intros Hfin. apply Hiff in Hfin. unfold Client.sanitizeElements. unfold_monad.
    rewrite Hfin. destruct fonts as [[]|e]; reflexivity.
  - intros Hfail. unfold Client.sanitizeElements. unfold_monad.
    destruct fonts as [[]|e]; [|reflexivity].
    destruct Hfail as [(e & He)|(e & He)]; [discriminate|].
    destruct (Client.needsConversion items) as [[]|e']; simpl; rewrite ?He; reflexivity.
  - intros -> Hneed result Hres. unfold Client.sanitizeElements. unfold_monad.
    rewrite Hneed. simpl. rewrite Hres. reflexivity.
  - intros v Hv. destruct v as [| |b|f|s|l|ms]; try reflexivity. destruct (Hv l eq_refl).
Qed.

(** ** The extraction, once more *)

Lemma filter_filter_none {A : Type} (p : A → bool) (l : list A) :
  List.filter p (List.filter (fun a => negb (p a)) l) = [].
Proof.
  induction l as [|a l IH]; simpl; [reflexivity|].
  destruct (p a) eqn:Hp; simpl; rewrite ?Hp, IH; reflexivity.
Qed.

Lemma filter_lengths {A : Type} (p : A → bool) (l : list A) :
  (length (List.filter (fun a => negb (p a)) l) + length (List.filter p l))%nat = length l.
Proof.
  induction l as [|a l IH]; simpl; [reflexivity|].
  destruct (p a); simpl; lia.
Qed.

(** X20. The extraction loses nothing and settles at once: for a batch
    without [null], every item is either among the draw elements or has
    given one camera, so the two arrays together are as long as the
    batch; every camera has a truthy width and height; and extracting
    from the draw elements again returns them all, with no camera. *)
Theorem extraction_loses_nothing (items : list jsval) (ex : extraction) :
  extractViewportUpdates (JArr items) = Returned ex →
  (length (drawElements ex) + length (viewports ex))%nat = length items
  ∧ (∀ el, In el items → In el (drawElements ex) ∨ In (camera_of el) (viewports ex))
  ∧ (∀ camera, In camera (viewports ex) → sized camera)
  ∧ ∃ ex', extractViewportUpdates (JArr (drawElements ex)) = Returned ex'
           ∧ drawElements ex' = drawElements ex ∧ viewports ex' = [].
Proof.
  intros Hex. pose proof (extractViewportUpdates_array items) as Harr.
  destruct (existsb nullish items) eqn:Hnull; [congruence|].
  rewrite Harr in Hex. injection Hex as <-.
  unfold partition_of. cbn [drawElements viewports].
  split; [|split; [|split]].
  - rewrite length_map. apply filter_lengths.
  - intros el Hin. destruct (is_camera el) eqn:Hc.
    + right. apply in_map. apply filter_In. split; assumption.
    + left. apply filter_In. split; [exact Hin|]. rewrite Hc. reflexivity.
  - apply (sized_partition items).
  - eexists. split.
    + rewrite extractViewportUpdates_array.
      rewrite (existsb_filter_false nullish _ items Hnull). reflexivity.
    + unfold partition_of. cbn [drawElements viewports].
      rewrite filter_filter_same, filter_filter_none. split; reflexivity.
Qed.

Lemma extraction_loses_nothing_witness :
  (length (drawElements (partition_of [rectangle "a"; cameraUpdate 1 2 3 4; arrow "b"]))
   + length (viewports (partition_of [rectangle "a"; cameraUpdate 1 2 3 4; arrow "b"])))%nat
  = 3%nat.
Proof.
  exact (proj1 (extraction_loses_nothing
                  [rectangle "a"; cameraUpdate 1 2 3 4; arrow "b"] _ eq_refl)).
Defined.

(** ** The health check *)

Section Sums.
Context {K : Type} `{Countable K} {A : Type}.
Variable f : A → nat.

Lemma sum_insert_fresh (m : gmap K A) (k : K) (a : A) :
  m !! k = None →
  map_fold (fun _ a n => (n + f a)%nat) 0%nat (<[k := a]> m)
  = (map_fold (fun _ a n => (n + f a)%nat) 0%nat m + f a)%nat.
Proof.
  intros Hk. apply (map_fold_insert_L (fun _ a n => (n + f a)%nat)); [|exact Hk].
  intros. lia.
Qed.

Lemma sum_delete (m : gmap K A) (k : K) (a : A) :
  m !! k = Some a →
  map_fold (fun _ a n => (n + f a)%nat) 0%nat m
  = (map_fold (fun _ a n => (n + f a)%nat) 0%nat (delete k m) + f a)%nat.
Proof.
  intros Hk. apply (map_fold_delete_L (fun _ a n => (n + f a)%nat)); [|exact Hk].
  intros. lia.
Qed.

Lemma sum_insert (m : gmap K A) (k : K) (a : A) :
  (map_fold (fun _ a n => (n + f a)%nat) 0%nat (<[k := a]> m)
   + default 0%nat (f <$> m !! k))%nat
  = (map_fold (fun _ a n => (n + f a)%nat) 0%nat m + f a)%nat.
Proof.
  destruct (m !! k) as [a0|] eqn:Hk; simpl.
  - rewrite <- (insert_delete_eq m k a).
    rewrite sum_insert_fresh by apply lookup_delete_eq.
    rewrite (sum_delete m k a0 Hk). lia.
  - rewrite sum_insert_fresh by exact Hk. lia.
Qed.

End Sums.

Lemma alter_present {A : Type} (g : A → A) (k : string) (a : A) (m : gmap string A) :
  m !! k = Some a → alter g k m = <[k := g a]> m.
Proof.
  intros Hk. apply map_eq. intros j. destruct (decide (k = j)) as [<-|Hne].
  - rewrite lookup_alter_eq, lookup_insert_eq, Hk. reflexivity.
  - rewrite lookup_alter_ne, lookup_insert_ne by exact Hne. reflexivity.
Qed.

Lemma length_session_of (id : string) (w : world) :
  default 0%nat ((fun s => length (clients s)) <$> sessions w !! id)
  = length (clients (session_of id w)).
Proof. unfold session_of. destruct (sessions w !! id); reflexivity. Qed.

Lemma length_set_delete (c : conn) (l : list conn) :
  NoDup l → In c l → (length (set_delete c l) + 1)%nat = length l.
Proof.
  unfold set_delete. induction l as [|a l IH]; intros Hnd Hin; [destruct Hin|].
  apply NoDup_cons in Hnd as [Ha Hnd]. simpl.
  destruct (Nat.eqb c a) eqn:Hca; simpl.
  - apply Nat.eqb_eq in Hca. subst a.
    assert (Hall : List.filter (fun c' => negb (Nat.eqb c c')) l = l).
    { clear IH Hin Hnd. induction l as [|b l IH]; simpl; [reflexivity|].
      destruct (Nat.eqb c b) eqn:Hcb.
      - apply Nat.eqb_eq in Hcb. subst b. destruct Ha. constructor.
      - simpl. rewrite IH; [reflexivity|]. intros Hin. apply Ha. constructor 2. exact Hin. }
    rewrite Hall. lia.
  - destruct Hin as [->|Hin]; [rewrite Nat.eqb_refl in Hca; discriminate|].
    rewrite <- (IH Hnd Hin). lia.
Qed.

Lemma step_alive (e : event) (w w' : world) :
  housed w → alive w → step e w = Some w' → alive w'.
Proof.
  intros Hh Hw Hstep. pose proof (step_edits e w w' Hstep) as Hed.
  assert (Hhandler : ∀ id, edits id w w' → alive w').
  { intros id (Hso & _ & _ & s' & Hss & Hcl) id0 s0 c Hs0 Hin.
    rewrite Hso. rewrite Hss in Hs0. destruct (decide (id = id0)) as [<-|Hne].
    - rewrite lookup_insert_eq in Hs0. injection Hs0 as <-. rewrite Hcl in Hin.
      apply In_session_of in Hin as (s & Hs & Hc). eauto.
    - rewrite lookup_insert_ne in Hs0 by exact Hne. eauto. }
  destruct e as [id ws | id ws data | ws | id ws | id | id body
                 | id body | id body | id | dt];
    try (exact (Hhandler _ Hed)); simpl in Hstep.
  - destruct (sockets w !! ws) eqn:Hfresh; [discriminate|].
    destruct (on_upgrade id ws _) as [[[u|e] w1]|] eqn:Hup; try discriminate.
    injection Hstep as <-.
    destruct (on_upgrade_frame _ _ _ _ _ Hup) as (Hso & _ & _ & Hss).
    change (session_of id (set_sockets <[ws := OPEN]> w)) with (session_of id w) in Hss.
    simpl in Hso, Hss.
    intros id0 s0 c Hs0 Hin. rewrite Hso.
    destruct (decide (ws = c)) as [->|Hne].
    + exists OPEN. rewrite lookup_insert_eq. split; reflexivity.
    + rewrite lookup_insert_ne by exact Hne.
      rewrite Hss in Hs0. destruct (decide (id = id0)) as [<-|Hid].
      * rewrite lookup_insert_eq in Hs0. injection Hs0 as <-. simpl in Hin.
        apply In_set_add in Hin as [->|Hin]; [congruence|].
        apply In_session_of in Hin as (s & Hs & Hc). eauto.
      * rewrite lookup_insert_ne in Hs0 by exact Hid. eauto.
  - destruct (sockets w !! ws) as [[]|] eqn:Hws; try discriminate.
    injection Hstep as <-. intros id0 s0 c Hs0 Hin. simpl in *.
    destruct (decide (ws = c)) as [->|Hne].
    + exists CLOSING. rewrite lookup_insert_eq. split; reflexivity.
    + rewrite lookup_insert_ne by exact Hne. eauto.
  - destruct (connected id ws w) eqn:Hcon; [|discriminate]. injection Hstep as <-.
    destruct (on_close_frame id ws (set_sockets <[ws := CLOSED]> w)) as (Hso & _ & Hss & _).
    simpl in Hso, Hss.
    destruct (connected_In _ _ _ Hcon) as (s & Hs & Hws).
    intros id0 s0 c Hs0 Hin. rewrite Hso. rewrite Hss in Hs0.
    assert (Hold : c ≠ ws ∧ ∃ s1, sessions w !! id0 = Some s1 ∧ In c (clients s1)).
    { destruct (decide (id = id0)) as [<-|Hid].
      - rewrite lookup_alter_eq, Hs in Hs0. injection Hs0 as <-. simpl in Hin.
        unfold set_delete in Hin. apply filter_In in Hin as [Hin Hne].
        split; [|eauto]. intros ->. rewrite Nat.eqb_refl in Hne. discriminate.
      - rewrite lookup_alter_ne in Hs0 by exact Hid. split; [|eauto].
        intros ->. destruct (Hh id s ws Hs Hws) as [_ Huniq].
        apply Hid. symmetry. exact (Huniq id0 s0 Hs0 Hin). }
    destruct Hold as (Hne & s1 & Hs1 & Hc1).
    rewrite lookup_insert_ne by congruence. eauto.
  - destruct (0 <=? dt); [|discriminate]. injection Hstep as <-.
    intros id0 s0 c Hs0 Hin.
    assert (Hso : sockets (elapse dt w) = sockets w).
    { unfold elapse. simpl. exact (proj1 (cleanups_frame _ (set_timers _ w))). }
    rewrite Hso. apply elapse_sub in Hs0. eauto.
Qed.

Lemma cleanup_count (id : string) (w : world) :
  clientCount (health (cleanup id w)) = clientCount (health w).
Proof.
  unfold cleanup. destruct (sessions w !! id) as [s|] eqn:Hs; [|reflexivity].
  destruct (Nat.eqb (length (clients s)) 0) eqn:Hlen; [|reflexivity].
  apply Nat.eqb_eq in Hlen. unfold health. simpl.
  rewrite (sum_delete (fun s => length (clients s)) (sessions w) id s Hs), Hlen. lia.
Qed.

Lemma cleanups_count (l : list (Z * string)) :
  ∀ w, clientCount (health (fold_left (fun w '(_, id) => cleanup id w) l w))
       = clientCount (health w).
Proof.
  induction l as [|[d id] l IH]; intros w; [reflexivity|].
  cbn [fold_left]. rewrite IH. apply cleanup_count.
Qed.

Lemma step_count (e : event) (w w' : world) :
  sets_ok w → housed w → alive w → step e w = Some w' →
  clientCount (health w) = live_sockets w →
  clientCount (health w') = live_sockets w'.
Proof.
  intros Hnd Hh Ha Hstep Heq. pose proof (step_edits e w w' Hstep) as Hed.
  unfold health, live_sockets in *. simpl in *.
  assert (Hhandler : ∀ id, edits id w w' →
            map_fold (fun _ s n => (n + length (clients s))%nat) 0%nat (sessions w')
            = map_fold (fun _ st n => (n + if is_closed st then 0 else 1)%nat) 0%nat
                (sockets w')).
  { intros id (Hso & _ & _ & s' & Hss & Hcl). rewrite Hso, Hss, <- Heq.
    pose proof (sum_insert (fun s => length (clients s)) (sessions w) id s') as Hsum.
    rewrite length_session_of, Hcl in Hsum. lia. }
  destruct e as [id ws | id ws data | ws | id ws | id | id body
                 | id body | id body | id | dt];
    try (exact (Hhandler _ Hed)); simpl in Hstep.
  - destruct (sockets w !! ws) eqn:Hfresh; [discriminate|].
    destruct (on_upgrade id ws _) as [[[u|e] w1]|] eqn:Hup; try discriminate.
    injection Hstep as <-.
    destruct (on_upgrade_frame _ _ _ _ _ Hup) as (Hso & _ & _ & Hss).
    change (session_of id (set_sockets <[ws := OPEN]> w)) with (session_of id w) in Hss.
    simpl in Hso, Hss. rewrite Hso, Hss.
    rewrite (sum_insert_fresh (fun st => if is_closed st then 0 else 1)%nat
               (sockets w) ws OPEN Hfresh).
    pose proof (sum_insert (fun s => length (clients s)) (sessions w) id
                  (with_clients (set_add ws (clients (session_of id w)))
                     (session_of id w))) as Hsum.
    rewrite length_session_of in Hsum. simpl in Hsum.
    assert (Hnew : length (set_add ws (clients (session_of id w)))
                   = (length (clients (session_of id w)) + 1)%nat).
    { unfold set_add.
      destruct (existsb (Nat.eqb ws) (clients (session_of id w))) eqn:Hex.
      - apply existsb_exists in Hex as (c & Hin & Hc). apply Nat.eqb_eq in Hc. subst c.
        apply In_session_of in Hin as (s & Hs & Hin).
        destruct (proj1 (Hh id s ws Hs Hin) Hfresh).
      - apply length_app. }
    simpl. lia.
  - destruct (sockets w !! ws) as [[]|] eqn:Hws; try discriminate.
    injection Hstep as <-. simpl.
    pose proof (sum_insert (fun st => if is_closed st then 0 else 1)%nat
                  (sockets w) ws CLOSING) as Hsum.
    rewrite Hws in Hsum. simpl in Hsum. lia.
  - destruct (connected id ws w) eqn:Hcon; [|discriminate]. injection Hstep as <-.
    destruct (on_close_frame id ws (set_sockets <[ws := CLOSED]> w)) as (Hso & _ & Hss & _).
    simpl in Hso, Hss. rewrite Hso, Hss.
    destruct (connected_In _ _ _ Hcon) as (s & Hs & Hws).
    destruct (Ha id s ws Hs Hws) as (st & Hst & Hlive).
    rewrite (alter_present _ id s (sessions w) Hs).
    pose proof (sum_insert (fun st => if is_closed st then 0 else 1)%nat
                  (sockets w) ws CLOSED) as Hsock.
    rewrite Hst in Hsock. simpl in Hsock. rewrite Hlive in Hsock.
    pose proof (sum_insert (fun s => length (clients s)) (sessions w) id
                  (with_clients (set_delete ws (clients s)) s)) as Hsum.
    rewrite Hs in Hsum. simpl in Hsum.
    pose proof (length_set_delete ws (clients s) (Hnd id s Hs) Hws) as Hlen.
    lia.
  - destruct (0 <=? dt); [|discriminate]. injection Hstep as <-.
    assert (Hso : sockets (elapse dt w) = sockets w).
    { unfold elapse. simpl. exact (proj1 (cleanups_frame _ (set_timers _ w))). }
    rewrite Hso, <- Heq. unfold elapse. simpl.
    exact (cleanups_count _ (set_timers _ w)).
Qed.

(** X21. The health check counts the live connections: in every state
    the server can reach, the [clients] number of [GET /health], the sum
    of the sizes of the client sets, is the number of sockets that are not
    [CLOSED].  No connection is counted twice, a connection that has
    closed is no longer counted, and no open connection is missed. *)
Theorem health_counts_the_live_connections (w : world) :
  reachable w →
  clientCount (health w) = live_sockets w
  ∧ (∀ id c, connected id c w = true →
       ∃ st, sockets w !! c = Some st ∧ is_closed st = false).
Proof.
  intros (evs & Hrun).
  assert (Hall : ∀ evs w0 w1,
            sets_ok w0 → housed w0 → alive w0 →
            clientCount (health w0) = live_sockets w0 →
            run evs w0 = Some w1 →
            alive w1 ∧ clientCount (health w1) = live_sockets w1).
  { clear. induction evs as [|e evs IH]; intros w0 w1 Hnd Hh Ha Heq Hrun; simpl in Hrun.
    - injection Hrun as <-. split; assumption.
    - destruct (step e w0) as [w2|] eqn:Hstep; [|discriminate].
      apply (IH w2 w1); [| | | |exact Hrun].
      + exact (step_sets_ok e w0 w2 Hnd Hstep).
      + exact (step_housed e w0 w2 Hh Hstep).
      + exact (step_alive e w0 w2 Hh Ha Hstep).
      + exact (step_count e w0 w2 Hnd Hh Ha Hstep Heq). }
  destruct (Hall evs boot w) as [Ha Heq]; try exact Hrun.
  - intros id s Hs. simpl in Hs. rewrite lookup_empty in Hs. discriminate.
  - intros id s c Hs. simpl in Hs. rewrite lookup_empty in Hs. discriminate.
  - intros id s c Hs. simpl in Hs. rewrite lookup_empty in Hs. discriminate.
  - reflexivity.
  - split; [exact Heq|].
    intros id c Hcon. destruct (connected_In _ _ _ Hcon) as (s & Hs & Hin). eauto.
Qed.

Lemma health_counts_the_live_connections_witness :
  clientCount (health lobby) = live_sockets lobby.
Proof. exact (proj1 (health_counts_the_live_connections lobby lobby_reachable)). Defined.

(** ** Sessions that nobody joins *)

Lemma In_enqueue_inv (t : Z * string) (due : Z) (id : string) (q : list (Z * string)) :
  In t (enqueue due id q) → t = (due, id) ∨ In t q.
Proof.
  induction q as [|[d i] q IH]; simpl.
  - intros [<-|[]]. left. reflexivity.
  - destruct (d <=? due); simpl.
    + intros [<-|Hin]; [right; left; reflexivity|].
      destruct (IH Hin) as [->|Hq]; [left; reflexivity | right; right; exact Hq].
    + intros [<-|Hin]; [left; reflexivity | right; exact Hin].
Qed.

Lemma vacant_not_connected (id : string) (ws : conn) (w : world) :
  vacant id w → connected id ws w = false.
Proof. intros Hv. rewrite connected_session_of, Hv. reflexivity. Qed.

Lemma step_keeps_untimed (e : event) (id : string) (w w' : world) :
  step e w = Some w' → vacant id w →
  (∀ d, ¬ In (d, id) (timers w)) → ∀ d, ¬ In (d, id) (timers w').
Proof.
  intros Hstep Hv Hnone d Hin. pose proof (step_edits e w w' Hstep) as Hed.
  destruct e as [id' ws | id' ws data | ws | id' ws | id' | id' body
                 | id' body | id' body | id' | dt];
    try (destruct Hed as (_ & _ & Ht & _); rewrite Ht in Hin; exact (Hnone d Hin));
    simpl in Hstep.
  - destruct (sockets w !! ws); [discriminate|].
    destruct (on_upgrade id' ws _) as [[[u|e] w1]|] eqn:Hup; try discriminate.
    injection Hstep as <-.
    destruct (on_upgrade_frame _ _ _ _ _ Hup) as (_ & _ & Ht & _).
    rewrite Ht in Hin. exact (Hnone d Hin).
  - destruct (sockets w !! ws) as [[]|]; try discriminate.
    injection Hstep as <-. exact (Hnone d Hin).
  - destruct (connected id' ws w) eqn:Hcon; [|discriminate]. injection Hstep as <-.
    unfold on_close in Hin.
    destruct (Nat.eqb _ 0); simpl in Hin; [|exact (Hnone d Hin)].
    apply In_enqueue_inv in Hin as [Heq|Hin]; [|exact (Hnone d Hin)].
    injection Heq as _ ->. rewrite (vacant_not_connected id' ws w Hv) in Hcon. discriminate.
  - destruct (0 <=? dt); [|discriminate]. injection Hstep as <-.
    rewrite elapse_timers in Hin. apply filter_In in Hin as [Hin _].
    exact (Hnone d Hin).
Qed.

Lemma step_removed_had_timer (e : event) (id : string) (w w' : world) :
  step e w = Some w' → is_Some (sessions w !! id) → sessions w' !! id = None →
  ∃ d, In (d, id) (timers w).
Proof.
  intros Hstep [s Hs] Hgone.
  assert (Hkept : ∀ id', edits id' w w' → False).
  { intros id' (_ & _ & _ & s' & Hss & _). rewrite Hss in Hgone.
    destruct (decide (id' = id)) as [->|Hne].
    - rewrite lookup_insert_eq in Hgone. discriminate.
    - rewrite lookup_insert_ne in Hgone by exact Hne. congruence. }
  pose proof (step_edits e w w' Hstep) as Hed.
  destruct e as [id' ws | id' ws data | ws | id' ws | id' | id' body
                 | id' body | id' body | id' | dt];
    try (destruct (Hkept id' Hed)); simpl in Hstep.
  - destruct (sockets w !! ws); [discriminate|].
    destruct (on_upgrade id' ws _) as [[[u|e] w1]|] eqn:Hup; try discriminate.
    injection Hstep as <-.
    destruct (on_upgrade_frame _ _ _ _ _ Hup) as (_ & _ & _ & Hss).
    rewrite Hss in Hgone. simpl in Hgone.
    destruct (decide (id' = id)) as [->|Hne].
    + rewrite lookup_insert_eq in Hgone. discriminate.
    + rewrite lookup_insert_ne in Hgone by exact Hne. congruence.
  - destruct (sockets w !! ws) as [[]|]; try discriminate.
    injection Hstep as <-. simpl in Hgone. congruence.
  - destruct (connected id' ws w); [|discriminate]. injection Hstep as <-.
    destruct (on_close_frame id' ws (set_sockets <[ws := CLOSED]> w)) as (_ & _ & Hss & _).
    rewrite Hss in Hgone. simpl in Hgone.
    destruct (decide (id' = id)) as [->|Hne].
    + rewrite lookup_alter_eq, Hs in Hgone. discriminate.
    + rewrite lookup_alter_ne in Hgone by exact Hne. congruence.
  - destruct (0 <=? dt); [|discriminate]. injection Hstep as <-.
    unfold elapse in Hgone. simpl in Hgone.
    destruct (cleanups_removed _ id s (set_timers _ w) Hs Hgone) as (_ & (d & Hd) & _).
    apply filter_In in Hd as [Hd _]. exists d. exact Hd.
Qed.

(** X22. A session that no client joins is never collected.  When a
    session is in the map with no client and no timer set for it (as a
    session is that a request has created), it stays in the map through
    any run of events in which no connection joins it, however much time
    passes: only a disconnect sets the timer that removes a session. *)
Theorem unjoined_session_is_never_collected (evs : list event) (id : string)
    (w w' : world) :
  run evs w = Some w' →
  quiet id evs = true →
  vacant id w →
  (∀ d, ¬ In (d, id) (timers w)) →
  is_Some (sessions w !! id) →
  is_Some (sessions w' !! id) ∧ vacant id w' ∧ ∀ d, ¬ In (d, id) (timers w').
Proof.
  revert w. induction evs as [|e evs IH]; intros w Hrun Hq Hv Hnone Hs; simpl in Hrun.
  - injection Hrun as <-. repeat split; assumption.
  - destruct (step e w) as [w1|] eqn:Hstep; [|discriminate].
    unfold quiet in Hq. simpl in Hq. apply andb_true_iff in Hq as [He Hq].
    apply negb_true_iff in He.
    apply (IH w1 Hrun Hq).
    + exact (step_keeps_vacant e id w w1 Hstep He Hv).
    + exact (step_keeps_untimed e id w w1 Hstep Hv Hnone).
    + destruct (sessions w1 !! id) as [s1|] eqn:Hs1; [eauto|].
      destruct (step_removed_had_timer e id w w1 Hstep Hs Hs1) as (d & Hd).
      destruct (Hnone d Hd).
Qed.

Lemma unjoined_session_is_never_collected_witness :
  match run [Elapse idle_window; PostAppend "orphan" (JObj []); Elapse 86400000]
            (snd (get_session "orphan" boot)) with
  | Some w' => is_Some (sessions w' !! "orphan")
  | None => False
  end.
Proof.
  destruct (run _ (snd (get_session "orphan" boot))) as [w'|] eqn:Hrun.
  - refine (proj1 (unjoined_session_is_never_collected _ "orphan" _ w' Hrun
                     eq_refl eq_refl _ _)).
    + intros d [].
    + vm_compute. eauto.
  - vm_compute in Hrun. discriminate.
Defined.

(** ** What a later upload does to an object *)




(** ** Reading and joining after a replace-all *)

Lemma upgrade_outbox (id : string) (ws : conn) (items : list jsval) (w : world) :
  sockets w !! ws = None →
  elements (session_of id w) = JArr items →
  ∃ w', step (Upgrade id ws) w = Some w'
        ∧ outbox w' = (outbox w ++ greeting ws (session_of id w))%list.
Proof.
  intros Hfresh Hitems. simpl. rewrite Hfresh.
  pose proof (on_upgrade_array id ws items (set_sockets <[ws := OPEN]> w) Hitems) as Hup.
  cbv zeta in Hup. rewrite Hup. eexists. split; reflexivity.
Qed.

(** X24. What a replace-all has stored is what a reader and a late joiner
    get.  After a replace-all with a batch without [null], a [GET] of the
    session returns the draw elements of the batch with the appState and
    the viewport the session now holds, and a connection that joins then
    is sent that same scene and appState, in the very message the clients
    present were sent, unless there is no draw element (then it is sent no
    scene), followed by the session's viewport, also when that viewport is
    older than the batch. *)
Theorem replaced_scene_is_read_and_greeted (id : string)
    (members : list (string * jsval)) (items : list jsval) (ws : conn) (w : world) :
  own_member "elements" members = JArr items →
  existsb nullish items = false →
  sockets w !! ws = None →
  let w1 := snd (post_elements id (JObj members) w) in
  let s1 := session_of id w1 in
  let draws := List.filter (fun el => negb (is_camera el)) items in
  let scene := MsgElements (JArr draws) (Some (appState s1)) in
  fst (get_session id w1) = Returned (ResSession id (JArr draws) (appState s1) (viewport s1))
  ∧ outbox w1 = (outbox w ++ to_open w (session_of id w) scene
                 ++ viewport_messages w (session_of id w)
                      (map camera_of (List.filter is_camera items)))%list
  ∧ ∃ w2, step (Upgrade id ws) w1 = Some w2
          ∧ outbox w2 = (outbox w1
                         ++ (if Nat.eqb (length draws) 0 then [] else [(ws, scene)])
                         ++ match viewport s1 with
                            | Some camera => [(ws, MsgViewport camera)]
                            | None => []
                            end)%list.
Proof.
  intros Hm Hnull Hfresh w1 s1 draws scene.
  pose proof (extractViewportUpdates_array items) as Hex. rewrite Hnull in Hex.
  assert (Hb : member "elements" (JObj members) = Returned (JArr items))
    by (simpl; rewrite Hm; reflexivity).
  pose proof (post_elements_eq id (JObj members) (JArr items)
                (own_member "appState" members) (partition_of items) w
                Hb eq_refl Hex) as Hpost.
  cbv zeta in Hpost. unfold partition_of in Hpost. cbn [drawElements viewports] in Hpost.
  fold draws in Hpost.
  assert (Hs1 : elements s1 = JArr draws).
  { unfold s1, w1. rewrite Hpost. simpl snd.
    rewrite session_of_commit, framed_elements.
    destruct (truthy (own_member "appState" members)); reflexivity. }
  assert (Hstate : appState s1
                   = appState (if truthy (own_member "appState" members)
                               then with_appState (own_member "appState" members)
                                      (with_elements (JArr draws) (session_of id w))
                               else with_elements (JArr draws) (session_of id w))).
  { unfold s1, w1. rewrite Hpost. simpl snd.
    rewrite session_of_commit, framed_appState. reflexivity. }
  split; [|split].
  - rewrite get_session_eq. simpl fst. fold s1. rewrite Hs1. reflexivity.
  - unfold scene. rewrite Hstate. unfold w1. rewrite Hpost. reflexivity.
  - assert (Hfresh1 : sockets w1 !! ws = None).
    { unfold w1. rewrite Hpost. exact Hfresh. }
    destruct (upgrade_outbox id ws draws w1 Hfresh1 Hs1) as (w2 & Hstep & Hout).
    exists w2. split; [exact Hstep|]. rewrite Hout. fold s1.
    unfold greeting. rewrite Hs1. unfold scene.
    destruct draws; reflexivity.
Qed.

Lemma replaced_scene_is_read_and_greeted_witness :
  let body := [("elements", JArr [rectangle "b"; cameraUpdate 1 2 3 4])] in
  let w1 := snd (post_elements "demo" (JObj body) solo) in
  ∃ w2, step (Upgrade "demo" 9%nat) w1 = Some w2
        ∧ received 9%nat (outbox w2)
          = [MsgElements (JArr [rectangle "b"]) (Some JNull);
             MsgViewport (camera_of (cameraUpdate 1 2 3 4))].
Proof.
  intros body w1.
  destruct (replaced_scene_is_read_and_greeted "demo" body
              [rectangle "b"; cameraUpdate 1 2 3 4] 9%nat solo eq_refl eq_refl eq_refl)
    as (_ & _ & w2 & Hstep & Hout).
  exists w2. split; [exact Hstep|]. rewrite Hout. vm_compute. reflexivity.
Defined.
